(** * Topic/question matching pipeline: a shallow embedding and its properties

    The development follows the three tools of the repository:

    - [tools/match_topics.py]: alias normalisation, similarity scoring and
      the greedy per-topic matcher;
    - [tools/extract_slide_titles.py]: the per-page title selector;
    - [tools/extract_exam_questions.py]: the layout-driven segmentation of
      an exam into items.

    Modelling conventions.

    - A Python [str] is a list of characters.  Characters are the code
      points below 256, so that [str.lower], [str.isspace] and the regular
      expression classes [\s], [\w], [\d] are the finite tables written out
      below.
    - A Python [float] is an exact rational of [Q]; [round(x, 3)] is
      rounding to the nearest multiple of 1/1000, a tie of the exact value
      going to the even neighbour.
    - A Python [int] is a [Z]; [Optional[int]] is [option Z].
    - A [dict] whose iteration order matters (the alias table) is an
      association list in insertion order.
    - An exception is an explicit [None] result where the code can raise. *)

From Stdlib Require Import Ascii String.
From Stdlib Require Import List Bool Arith ZArith NArith QArith Lia.
From Stdlib Require Import Qround Qabs Qminmax Permutation Sorted Lqa.
Import ListNotations.

Close Scope Q_scope.
Set Implicit Arguments.

(** ** Python strings *)

Module Py.

Definition str := list ascii.

Definition lit (s : string) : str := list_ascii_of_string s.

Definition code (c : ascii) : N := N_of_ascii c.

Definition str_eqb (a b : str) : bool :=
  if list_eq_dec ascii_dec a b then true else false.

Definition between (lo hi n : N) : bool := ((lo <=? n) && (n <=? hi))%N.

(** [str.isspace] and the class [\s] of [re] on one character. *)
Definition isspace (c : ascii) : bool :=
  let n := code c in
  between 9 13 n || between 28 32 n || (n =? 133)%N || (n =? 160)%N.

(** The class [\d]. *)
Definition isdigit (c : ascii) : bool := between 48 57 (code c).

Definition islower_az (c : ascii) : bool := between 97 122 (code c).

Definition isupper_az (c : ascii) : bool := between 65 90 (code c).

(** The class [\w]: alphanumeric characters and the underscore. *)
Definition isword (c : ascii) : bool :=
  let n := code c in
  between 48 57 n || between 65 90 n || (n =? 95)%N || between 97 122 n
  || (n =? 170)%N || between 178 179 n || (n =? 181)%N || between 185 186 n
  || between 188 190 n || between 192 214 n || between 216 246 n
  || between 248 255 n.

(** [str.lower] on one character. *)
Definition lower_char (c : ascii) : ascii :=
  let n := code c in
  if between 65 90 n || (between 192 222 n && negb (n =? 215)%N)
  then ascii_of_N (n + 32) else c.

Definition lower (s : str) : str := map lower_char s.

Fixpoint lstrip (s : str) : str :=
  match s with
  | [] => []
  | c :: s' => if isspace c then lstrip s' else s
  end.

Definition rstrip (s : str) : str := rev (lstrip (rev s)).

Definition strip (s : str) : str := rstrip (lstrip s).

(** [s.split()]: the maximal runs of characters that are not whitespace.
    [cur] holds the run being read, last character first. *)
Fixpoint split_from (cur : str) (s : str) : list str :=
  match s with
  | [] => match cur with [] => [] | _ => [rev cur] end
  | c :: s' =>
      if isspace c
      then match cur with
           | [] => split_from [] s'
           | _ => rev cur :: split_from [] s'
           end
      else split_from (c :: cur) s'
  end.

Definition split (s : str) : list str := split_from [] s.

Fixpoint join (sep : str) (l : list str) : str :=
  match l with
  | [] => []
  | [x] => x
  | x :: l' => x ++ sep ++ join sep l'
  end.

Definition space : ascii := " "%char.

(** [not l], for a list or a string. *)
Definition is_empty (A : Type) (l : list A) : bool :=
  match l with [] => true | _ => false end.

(** [s.endswith(c)] for a one-character suffix. *)
Definition endswith_char (c : ascii) (s : str) : bool :=
  match rev s with
  | d :: _ => if ascii_dec c d then true else false
  | [] => false
  end.

Fixpoint startswith (p s : str) : bool :=
  match p, s with
  | [], _ => true
  | _ :: _, [] => false
  | a :: p', b :: s' => if ascii_dec a b then startswith p' s' else false
  end.

End Py.

(** ** The regular expressions of the tools *)

Module Re.

Import Py.

(** [\b] between the character before a position and the one at it. *)
Definition wordish (c : option ascii) : bool :=
  match c with Some x => isword x | None => false end.

Definition boundary (before after : option ascii) : bool :=
  negb (Bool.eqb (wordish before) (wordish after)).

Definition last_or (d : option ascii) (s : str) : option ascii :=
  match rev s with c :: _ => Some c | [] => d end.

(** Does [\b syn \b] match at the current position, [prev] being the
    character before it and [t] the rest of the subject? *)
Definition word_match_at (syn : str) (prev : option ascii) (t : str) : bool :=
  boundary prev (hd_error t)
  && startswith syn t
  && boundary (last_or prev syn) (hd_error (skipn (length syn) t)).

(** [re.sub(r"\b" + re.escape(syn) + r"\b", canon, t)], for a replacement
    [canon] free of backslashes (the replacement is then taken literally).
    The scan goes left to right; [skip] counts the characters of the
    current match still to be consumed. *)
Fixpoint sub_word_from (syn canon : str) (prev : option ascii) (skip : nat) (t : str) : str :=
  match t with
  | [] => if word_match_at syn prev [] then canon else []
  | c :: t' =>
      match skip with
      | S k => sub_word_from syn canon (Some c) k t'
      | O =>
          if word_match_at syn prev t
          then match length syn with
               | O => canon ++ c :: sub_word_from syn canon (Some c) 0 t'
               | S k => canon ++ sub_word_from syn canon (Some c) k t'
               end
          else c :: sub_word_from syn canon (Some c) 0 t'
      end
  end.

Definition sub_word (syn canon t : str) : str := sub_word_from syn canon None 0 t.

(** [_punct_re = [^a-z0-9\s]], substituted by one space. *)
Definition ispunct (c : ascii) : bool :=
  negb (islower_az c || isdigit c || isspace c).

Definition punct_sub (t : str) : str :=
  map (fun c => if ispunct c then space else c) t.

(** [_ws_re = \s+], substituted by one space: [inrun] tells whether the
    previous character already belonged to the run being replaced. *)
Fixpoint ws_sub_from (inrun : bool) (t : str) : str :=
  match t with
  | [] => []
  | c :: t' =>
      if isspace c
      then if inrun then ws_sub_from true t' else space :: ws_sub_from true t'
      else c :: ws_sub_from false t'
  end.

Definition ws_sub (t : str) : str := ws_sub_from false t.

End Re.

(** ** Stable sorting, as [list.sort] and [sorted] do it

    [before y x] says that [y] has to come strictly before [x] (its key is
    smaller for an ascending sort, larger when [reverse=True]).  Elements
    that are not ordered by [before] keep their input order. *)

Section StableSort.

Variable A : Type.
Variable before : A -> A -> bool.

Fixpoint insert_stable (x : A) (l : list A) : list A :=
  match l with
  | [] => [x]
  | y :: l' => if before y x then y :: insert_stable x l' else x :: l
  end.

Fixpoint stable_sort (l : list A) : list A :=
  match l with
  | [] => []
  | x :: l' => insert_stable x (stable_sort l')
  end.

End StableSort.

Definition Qltb (x y : Q) : bool := negb (Qle_bool y x).

(** ** [difflib.SequenceMatcher(None, a, b).ratio()]

    The matcher of the Python library, with no junk predicate and the
    default [autojunk=True]: when [b] has at least 200 elements, the
    elements occurring more than [len(b) // 100 + 1] times are left out of
    the index [b2j]. *)

Module Difflib.

Import Py.

Definition triple := (nat * nat * nat)%type.

Fixpoint indices_from (x : ascii) (j : nat) (b : str) : list nat :=
  match b with
  | [] => []
  | y :: b' =>
      if ascii_dec x y then j :: indices_from x (S j) b'
      else indices_from x (S j) b'
  end.

Definition popular (b : str) (x : ascii) : bool :=
  (200 <=? length b) && (length b / 100 + 1 <? count_occ ascii_dec b x).

Definition b2j (b : str) (x : ascii) : list nat :=
  if popular b x then [] else indices_from x 0 b.

(** [j2len.get(j, 0)] on a row kept as an association list. *)
Fixpoint get (j : nat) (m : list (nat * nat)) : nat :=
  match m with
  | [] => 0
  | (j', k) :: m' => if j =? j' then k else get j m'
  end.

(** [j2len.get(j - 1, 0)]: no key is negative. *)
Definition get_pred (j : nat) (m : list (nat * nat)) : nat :=
  match j with O => 0 | S j' => get j' m end.

(** The loop [for j in b2j.get(a[i], nothing)] of [find_longest_match]. *)
Fixpoint row (i blo bhi : nat) (j2len : list (nat * nat)) (js : list nat)
    (newj2len : list (nat * nat)) (best : triple) : list (nat * nat) * triple :=
  match js with
  | [] => (newj2len, best)
  | j :: js' =>
      if j <? blo then row i blo bhi j2len js' newj2len best
      else if bhi <=? j then (newj2len, best)
      else
        let k := get_pred j j2len + 1 in
        let '(_, _, bestsize) := best in
        row i blo bhi j2len js' ((j, k) :: newj2len)
          (if bestsize <? k then (i + 1 - k, j + 1 - k, k) else best)
  end.

(** The loop [for i in range(alo, ahi)]; [n] rows are left from [i] on. *)
Fixpoint rows (a b : str) (blo bhi : nat) (n i : nat)
    (j2len : list (nat * nat)) (best : triple) : triple :=
  match n with
  | O => best
  | S n' =>
      match nth_error a i with
      | None => best
      | Some x =>
          let '(newj2len, best') := row i blo bhi j2len (b2j b x) [] best in
          rows a b blo bhi n' (S i) newj2len best'
      end
  end.

Definition same_at (a b : str) (i j : nat) : bool :=
  match nth_error a i, nth_error b j with
  | Some x, Some y => if ascii_dec x y then true else false
  | _, _ => false
  end.

(** [while besti > alo and bestj > blo and a[besti-1] == b[bestj-1]]. *)
Fixpoint extend_back (a b : str) (alo blo : nat) (fuel : nat) (best : triple) : triple :=
  match fuel with
  | O => best
  | S fuel' =>
      let '(besti, bestj, bestsize) := best in
      if (alo <? besti) && (blo <? bestj) && same_at a b (besti - 1) (bestj - 1)
      then extend_back a b alo blo fuel' (besti - 1, bestj - 1, bestsize + 1)
      else best
  end.

(** [while besti+bestsize < ahi and bestj+bestsize < bhi and
     a[besti+bestsize] == b[bestj+bestsize]]. *)
Fixpoint extend_fwd (a b : str) (ahi bhi : nat) (fuel : nat) (best : triple) : triple :=
  match fuel with
  | O => best
  | S fuel' =>
      let '(besti, bestj, bestsize) := best in
      if (besti + bestsize <? ahi) && (bestj + bestsize <? bhi)
         && same_at a b (besti + bestsize) (bestj + bestsize)
      then extend_fwd a b ahi bhi fuel' (besti, bestj, bestsize + 1)
      else best
  end.

(** [find_longest_match(alo, ahi, blo, bhi)].  Each extension loop runs at
    most [ahi - alo] times, which is the fuel it is given. *)
Definition find_longest_match (a b : str) (alo ahi blo bhi : nat) : triple :=
  let best := rows a b blo bhi (ahi - alo) alo [] (alo, blo, 0) in
  let best := extend_back a b alo blo (ahi - alo) best in
  extend_fwd a b ahi bhi (ahi - alo) best.

(** The sum of the sizes of the blocks of [get_matching_blocks]: the block
    found in a window, then the windows to its left and to its right. *)
Fixpoint matched (a b : str) (fuel : nat) (alo ahi blo bhi : nat) : nat :=
  match fuel with
  | O => 0
  | S fuel' =>
      let '(i, j, k) := find_longest_match a b alo ahi blo bhi in
      if k =? 0 then 0
      else
        k
        + (if (alo <? i) && (blo <? j) then matched a b fuel' alo i blo j else 0)
        + (if (i + k <? ahi) && (j + k <? bhi)
           then matched a b fuel' (i + k) ahi (j + k) bhi else 0)
  end.

Definition matches (a b : str) : nat :=
  matched a b (S (length a)) 0 (length a) 0 (length b).

(** [_calculate_ratio(matches, len(a) + len(b))]. *)
Definition ratio (a b : str) : Q :=
  match (length a + length b)%nat with
  | O => 1%Q
  | S _ as n => (inject_Z (2 * Z.of_nat (matches a b)) / inject_Z (Z.of_nat n))%Q
  end.

End Difflib.

(** ** [tools/match_topics.py] *)

Module MatchTopics.

Import Py.

(** *** Alias table *)

Definition alias_table := list (str * list str).

(** The character [i] with diaeresis of the synonym of "naive bayes". *)
Definition i_diaeresis : ascii := ascii_of_N 239.

(** The table [default_aliases] of [load_aliases], in insertion order. *)
Definition default_aliases : alias_table :=
  [ (lit "naive bayes", [lit "nb"; lit "na" ++ i_diaeresis :: lit "ve bayes"]);
    (lit "k-means", [lit "kmeans"; lit "k means"; lit "k-means clustering"]);
    (lit "k-medoids", [lit "kmedoids"; lit "k medoids"]);
    (lit "hierarchical clustering",
      [lit "agglomerative clustering"; lit "divisive clustering"]);
    (lit "principal component analysis", [lit "pca"]);
    (lit "support vector machine",
      [lit "svm"; lit "support vector machines"; lit "support vector classifier"]);
    (lit "decision tree", [lit "dt"; lit "id3"; lit "c4.5"; lit "cart"]);
    (lit "association rules",
      [lit "apriori"; lit "fp growth"; lit "frequent pattern"; lit "market basket"]);
    (lit "outlier detection", [lit "anomaly detection"]);
    (lit "feature selection", [lit "attribute selection"]);
    (lit "data preprocessing",
      [lit "data preparation"; lit "data cleaning"; lit "data cleansing"]);
    (lit "distance measures",
      [lit "similarity measures"; lit "dissimilarity"; lit "proximity"]);
    (lit "logistic regression", [lit "logit"]);
    (lit "linear regression", [lit "ols"]);
    (lit "neural networks", [lit "ann"; lit "mlp"]);
    (lit "k-nearest neighbors", [lit "knn"; lit "k nn"; lit "k-nn"]);
    (lit "dimensionality reduction", [lit "feature extraction"]);
    (lit "cross validation", [lit "k-fold"; lit "k fold"]) ].

(** *** [normalize] *)

Definition STOPWORDS : list str :=
  map lit
    [ "the"; "a"; "an"; "of"; "and"; "or"; "to"; "for"; "from"; "in"; "on";
      "with"; "without"; "by"; "as"; "at"; "into"; "over"; "under";
      "between"; "among"; "against" ]%string.

Definition is_stopword (w : str) : bool := existsb (str_eqb w) STOPWORDS.

(** [sorted(aliases.keys(), key=len, reverse=True)], each key kept with
    its list of synonyms (the keys of a dictionary are distinct). *)
Definition longer_first (x y : str * list str) : bool :=
  length (fst y) <? length (fst x).

Definition by_length_desc (aliases : alias_table) : alias_table :=
  stable_sort longer_first aliases.

(** The inner loop [for syn in aliases[canon]]. *)
Definition apply_synonyms (canon : str) (syns : list str) (t : str) : str :=
  fold_left (fun t syn => Re.sub_word syn canon t) syns t.

(** The outer loop over the canonical terms. *)
Definition apply_aliases (aliases : alias_table) (t : str) : str :=
  fold_left (fun t e => apply_synonyms (fst e) (snd e) t)
    (by_length_desc aliases) t.

(** What follows the alias loop: punctuation, whitespace, stop words. *)
Definition clean (t : str) : str :=
  let t := Re.punct_sub t in
  let t := strip (Re.ws_sub t) in
  join [space] (filter (fun w => negb (is_stopword w)) (split t)).

Definition normalize (text : str) (aliases : alias_table) : str :=
  clean (apply_aliases aliases (strip (lower text))).

(** *** Scores *)

Definition tokens (text : str) : list str :=
  filter (fun w => match w with [] => false | _ => true end) (split text).

(** [set(l)], as the list of the distinct elements of [l]. *)
Definition set_of (l : list str) : list str := nodup (list_eq_dec ascii_dec) l.

Definition mem (w : str) (l : list str) : bool := existsb (str_eqb w) l.

(** [len(a & b)] and [len(a | b)]. *)
Definition inter_size (a b : list str) : nat :=
  length (filter (fun w => mem w b) (set_of a)).

Definition union_size (a b : list str) : nat := length (set_of (a ++ b)).

Definition Qnat (n : nat) : Q := inject_Z (Z.of_nat n).

(** [x / y if y else 0.0]; the division of [Q] already gives 0 by 0. *)
Definition jaccard (a_tokens b_tokens : list str) : Q :=
  if is_empty a_tokens || is_empty b_tokens then 0%Q
  else (Qnat (inter_size a_tokens b_tokens) / Qnat (union_size a_tokens b_tokens))%Q.

Definition token_overlap (a_tokens b_tokens : list str) : Q :=
  if is_empty a_tokens || is_empty b_tokens then 0%Q
  else (Qnat (inter_size a_tokens b_tokens)
        / Qnat (Nat.min (length (set_of a_tokens)) (length (set_of b_tokens))))%Q.

Definition char_similarity (a b : str) : Q := Difflib.ratio a b.

Definition combined_score (a b : str) : Q :=
  let a_toks := tokens a in
  let b_toks := tokens b in
  let j := jaccard a_toks b_toks in
  let o := token_overlap a_toks b_toks in
  let c := char_similarity a b in
  ((40 # 100) * c + (30 # 100) * j + (30 # 100) * o)%Q.

Inductive tier := high | medium | low.

Definition confidence (score : Q) : tier :=
  if Qle_bool (85 # 100) score then high
  else if Qle_bool (70 # 100) score then medium
  else low.

(** [round(x)] to an integer, ties to even. *)
Definition round_half_even (x : Q) : Z :=
  let f := Qfloor x in
  match (x - inject_Z f ?= 1 # 2)%Q with
  | Lt => f
  | Gt => (f + 1)%Z
  | Eq => if Z.even f then f else (f + 1)%Z
  end.

(** [round(s, 3)]. *)
Definition round3 (s : Q) : Q :=
  (inject_Z (round_half_even (s * 1000)) / 1000)%Q.

(** *** Reading the two artifacts *)

(** [s.split("|", 1)] when ["|" in s]: the text before the first bar and
    the text after it. *)
Fixpoint split_bar (s : str) : option (str * str) :=
  match s with
  | [] => None
  | c :: s' =>
      if ascii_dec c "|"%char then Some ([], s')
      else match split_bar s' with
           | Some (l, r) => Some (c :: l, r)
           | None => None
           end
  end.

Definition digit_value (c : ascii) : Z := (Z.of_N (code c) - 48)%Z.

(** The digits of an integer literal: single underscores may separate
    digits.  [acc] is the value read so far, [after_digit] tells whether
    the previous character was a digit. *)
Fixpoint int_digits (acc : Z) (after_digit : bool) (s : str) : option Z :=
  match s with
  | [] => if after_digit then Some acc else None
  | c :: s' =>
      if isdigit c then int_digits (10 * acc + digit_value c)%Z true s'
      else if ascii_dec c "_"%char
           then if after_digit then int_digits acc false s' else None
           else None
  end.

(** The whitespace that [int] skips at both ends: [isspace] without the
    four separators 28 to 31. *)
Definition int_isspace (c : ascii) : bool :=
  isspace c && negb (between 28 31 (code c)).

Fixpoint int_lstrip (s : str) : str :=
  match s with
  | [] => []
  | c :: s' => if int_isspace c then int_lstrip s' else s
  end.

(** [int(s)] in base 10; [None] stands for [ValueError]. *)
Definition py_int (s : str) : option Z :=
  match rev (int_lstrip (rev (int_lstrip s))) with
  | [] => None
  | c :: s' =>
      if ascii_dec c "-"%char then option_map Z.opp (int_digits 0 false s')
      else if ascii_dec c "+"%char then int_digits 0 false s'
      else int_digits 0 false (c :: s')
  end.

Definition slide := (option Z * str)%type.

(** One turn of the loop of [parse_slides]: the pair appended to [out], if
    any. *)
Definition parse_slide_line (raw : str) : option slide :=
  let s := strip raw in
  if is_empty s then None
  else match split_bar s with
       | Some (left_, right_) =>
           let '(page, right_) :=
             match py_int (strip left_) with
             | Some p => (Some p, right_)
             | None => (None, s)
             end in
           let topic := strip right_ in
           if is_empty topic then None else Some (page, topic)
       | None => Some (None, s)
       end.

Fixpoint parse_slides (lines : list str) : list slide :=
  match lines with
  | [] => []
  | raw :: lines' =>
      match parse_slide_line raw with
      | Some x => x :: parse_slides lines'
      | None => parse_slides lines'
      end
  end.

Fixpoint parse_exam (lines : list str) : list str :=
  match lines with
  | [] => []
  | raw :: lines' =>
      let s := strip raw in
      if is_empty s then parse_exam lines'
      else if length s <? 4 then parse_exam lines'
      else s :: parse_exam lines'
  end.

(** *** [match_topics] *)

Record MatchRecord := {
  r_page : option Z;
  r_slide_topic : str;
  r_exam_question : str;
  r_score : Q;
  r_confidence : tier
}.

(** [l.remove(q)] when [q in l]: the first occurrence goes. *)
Fixpoint remove_first (q : str) (l : list str) : list str :=
  match l with
  | [] => []
  | x :: l' => if str_eqb q x then l' else x :: remove_first q l'
  end.

(** [l[:k]], also for a negative [k]. *)
Definition take (A : Type) (k : Z) (l : list A) : list A :=
  if (0 <=? k)%Z then firstn (Z.to_nat k) l
  else firstn (length l - Z.to_nat (- k)) l.

Definition higher_first (x y : Q * str) : bool := Qltb (fst y) (fst x).

Section Matcher.

Variable aliases : alias_table.
Variable min_score : Q.
Variable max_matches : Z.

(** The inner loop filling [scored]. *)
Fixpoint score_all (norm_topic : str) (norm_exam : list (str * str)) : list (Q * str) :=
  match norm_exam with
  | [] => []
  | (orig_q, norm_q) :: rest =>
      let s := combined_score norm_topic norm_q in
      if Qle_bool min_score s then (s, orig_q) :: score_all norm_topic rest
      else score_all norm_topic rest
  end.

(** [top] for one topic. *)
Definition top_for (norm_exam : list (str * str)) (topic : str) : list (Q * str) :=
  take max_matches
    (stable_sort higher_first (score_all (normalize topic aliases) norm_exam)).

Definition record_of (sl : slide) (sq : Q * str) : MatchRecord :=
  {| r_page := fst sl; r_slide_topic := snd sl; r_exam_question := snd sq;
     r_score := round3 (fst sq); r_confidence := confidence (fst sq) |}.

(** The state of the main loop. *)
Record state := {
  results : list MatchRecord;
  unmatched_slides : list slide;
  unmatched_exam : list str
}.

(** One turn of [for s, q in top]. *)
Definition claim (sl : slide) (st : state) (sq : Q * str) : state :=
  {| results := results st ++ [record_of sl sq];
     unmatched_slides := unmatched_slides st;
     unmatched_exam :=
       if mem (snd sq) (unmatched_exam st)
       then remove_first (snd sq) (unmatched_exam st)
       else unmatched_exam st |}.

(** One turn of [for page, topic in slides]. *)
Definition step (norm_exam : list (str * str)) (st : state) (sl : slide) : state :=
  match top_for norm_exam (snd sl) with
  | [] => {| results := results st;
             unmatched_slides := unmatched_slides st ++ [sl];
             unmatched_exam := unmatched_exam st |}
  | top => fold_left (claim sl) top st
  end.

Definition match_topics (slides : list slide) (exam : list str) : state :=
  let norm_exam := map (fun q => (q, normalize q aliases)) exam in
  fold_left (step norm_exam) slides
    {| results := []; unmatched_slides := []; unmatched_exam := exam |}.

End Matcher.

End MatchTopics.

(** ** [tools/extract_slide_titles.py] *)

Module SlideTitles.

Import Py.

Record LineInfo := {
  page : Z;
  text : str;
  x0 : Q;
  y0 : Q;
  x1 : Q;
  y1 : Q;
  avg_size : Q
}.

(** The key [(ln.avg_size, ln.y1)] with [reverse=True]: larger pairs
    first, pairs being compared lexicographically. *)
Definition larger_first (a b : LineInfo) : bool :=
  Qltb (avg_size b) (avg_size a)
  || (Qeq_bool (avg_size a) (avg_size b) && Qltb (y1 b) (y1 a)).

(** The key [abs(ln.y1 - title.y0)], ascending. *)
Definition proximity (title ln : LineInfo) : Q := Qabs (y1 ln - y0 title).

Definition closer_first (title a b : LineInfo) : bool :=
  Qltb (proximity title a) (proximity title b).

(** The filter of [candidates_below]. *)
Definition is_below (title ln : LineInfo) : bool :=
  Qltb (y0 ln) (y0 title)
  && Qle_bool 0 (Qabs (avg_size ln - avg_size title)
                 / Qmax (avg_size title) (1 # 1000000)).

(** [candidates_below], after its sort by vertical proximity. *)
Definition candidates_below (title : LineInfo) (lines : list LineInfo) : list LineInfo :=
  stable_sort (closer_first title) (filter (is_below title) lines).

Section Page.

Variable merge_threshold : Q.

(** The three tests of the merge loop on one candidate; [None] is the
    [ZeroDivisionError] of [size_similarity] when both sizes are zero. *)
Definition can_merge (title ln : LineInfo) : option bool :=
  let larger := Qmax (avg_size title) (avg_size ln) in
  if Qeq_bool larger 0 then None
  else
    let size_similarity := (Qmin (avg_size title) (avg_size ln) / larger)%Q in
    let vertically_close :=
      Qle_bool (y0 title - y1 ln) (avg_size title * (16 # 10)) in
    let horizontally_aligned :=
      Qle_bool (Qabs (x0 ln - x0 title))
               (Qmax 10 (avg_size title * (8 # 10))) in
    Some (Qle_bool merge_threshold size_similarity
          && vertically_close && horizontally_aligned).

(** The loop [for ln in candidates_below], with its [break]. *)
Fixpoint merge_loop (title : LineInfo) (candidates : list LineInfo) : option str :=
  match candidates with
  | [] => Some (text title)
  | ln :: rest =>
      match can_merge title ln with
      | None => None
      | Some true => Some (strip (text title ++ space :: text ln))
      | Some false => merge_loop title rest
      end
  end.

(** The body of the loop over the pages, from the collected [lines] on.
    When no line lies in the top area, [top_lines] is the list [lines]
    itself, which the in-place sort then reorders as well. *)
Definition page_title (page_height top_ratio : Q) (lines : list LineInfo) : option str :=
  match lines with
  | [] => Some []
  | _ =>
      let top_cut := (page_height * (1 - top_ratio))%Q in
      let in_top := filter (fun ln => Qle_bool top_cut (y1 ln)) lines in
      let '(top_lines, lines) :=
        match in_top with
        | [] => (stable_sort larger_first lines, stable_sort larger_first lines)
        | _ => (stable_sort larger_first in_top, lines)
        end in
      match top_lines with
      | [] => None
      | title :: _ =>
          merge_loop title (candidates_below title lines)
      end
  end.

End Page.

End SlideTitles.

(** ** [tools/extract_exam_questions.py] *)

Module ExamQuestions.

Import Py.

Record Line := {
  page : Z;
  text : str;
  x0 : Q;
  y0 : Q;
  x1 : Q;
  y1 : Q;
  avg_size : Q
}.

(** *** The two patterns *)

Fixpoint strip_prefix (p s : str) : option str :=
  match p, s with
  | [], _ => Some s
  | _ :: _, [] => None
  | a :: p', b :: s' => if ascii_dec a b then strip_prefix p' s' else None
  end.

Fixpoint span (f : ascii -> bool) (s : str) : str * str :=
  match s with
  | [] => ([], [])
  | c :: s' =>
      if f c then let '(a, b) := span f s' in (c :: a, b) else ([], s)
  end.

(** [\b] after a word character: the end, or a character outside [\w]. *)
Definition word_end (s : str) : bool := negb (Re.wordish (hd_error s)).

(** [HEADER_RE.match]: [^(?:page\s*\d+|\d{4}|section|part|final|midterm|exam)\b],
    on a subject that [lower] went through. *)
Definition header_match (t : str) : bool :=
  (match strip_prefix (lit "page") t with
   | Some r =>
       let '(ds, r') := span isdigit (lstrip r) in
       negb (is_empty ds) && word_end r'
   | None => false
   end)
  || (let '(ds, _) := span isdigit (firstn 4 t) in
      (length ds =? 4) && word_end (skipn 4 t))
  || existsb
       (fun w => match strip_prefix (lit w) t with
                 | Some r => word_end r
                 | None => false
                 end)
       [ "section"; "part"; "final"; "midterm"; "exam" ]%string.

Definition is_bullet_char (c : ascii) : bool :=
  if ascii_dec c "-"%char then true
  else (code c =? 183)%N.

Definition is_dot_or_paren (c : ascii) : bool :=
  if ascii_dec c "."%char then true
  else if ascii_dec c ")"%char then true else false.

Definition is_letter (c : ascii) : bool := islower_az c || isupper_az c.

(** The alternatives of [BULLET_RE] before its final [\s+], on the run of
    characters up to the first whitespace:
    [[-...]], [\d{1,3}[.)]], [\(?\d{1,3}\)?[.)]?] and [[a-zA-Z][.)]]. *)
Definition bullet_mark (p : str) : bool :=
  match p with
  | [c] => is_bullet_char c
  | _ => false
  end
  || (let p' := match p with
                | c :: r => if ascii_dec c "("%char then r else p
                | [] => p
                end in
      let '(ds, r) := span isdigit p' in
      (1 <=? length ds) && (length ds <=? 3)
      && match r with
         | [] => true
         | [c] => is_dot_or_paren c
         | [c; d] => (if ascii_dec c ")"%char then true else false) && is_dot_or_paren d
         | _ => false
         end)
  || match p with
     | [c; d] => is_letter c && is_dot_or_paren d
     | _ => false
     end.

(** [BULLET_RE.match(text)]: the text left after the match, if any. *)
Definition bullet_rest (t : str) : option str :=
  let '(p, r) := span (fun c => negb (isspace c)) t in
  match r with
  | [] => None
  | _ => if bullet_mark p then Some (lstrip r) else None
  end.

(** *** [extract_questions] *)

Record state := {
  items : list str;
  buf : list str;
  last_y : option Q;
  last_size : option Q
}.

(** The closure [flush]. *)
Definition flush_text (buf : list str) : str :=
  Re.ws_sub (strip (join [space] (map strip buf))).

Definition flush (st : state) : state :=
  {| items :=
       match buf st with
       | [] => items st
       | _ => match flush_text (buf st) with
              | [] => items st
              | s => items st ++ [s]
              end
       end;
     buf := [];
     last_y := last_y st;
     last_size := last_size st |}.

(** [gap > max(20.0, 2.2 * last_size)], when both [last_y] and
    [last_size] are set. *)
Definition gap_exceeds (st : state) (ln : Line) : bool :=
  match last_y st, last_size st with
  | Some ly, Some ls => Qltb (Qmax 20 ((22 # 10) * ls)) (ly - y1 ln)
  | _, _ => false
  end.

(** One turn of [for ln in lines]. *)
Definition step (st : state) (ln : Line) : state :=
  if header_match (lower (text ln)) then st
  else
    let st := if gap_exceeds st ln then flush st else st in
    let '(st, text) :=
      match bullet_rest (text ln) with
      | Some rest => (flush st, rest)
      | None => (st, text ln)
      end in
    let st := {| items := items st; buf := buf st ++ [text];
                 last_y := last_y st; last_size := last_size st |} in
    let st := if endswith_char "?"%char (rstrip text) then flush st else st in
    {| items := items st; buf := buf st;
       last_y := Some (y1 ln);
       last_size := if Qeq_bool (avg_size ln) 0 then last_size st
                    else Some (avg_size ln) |}.

(** The final loop: first occurrences only, in order. *)
Fixpoint unique_from (seen : list str) (l : list str) : list str :=
  match l with
  | [] => []
  | s :: l' =>
      if existsb (str_eqb s) seen then unique_from seen l'
      else s :: unique_from (s :: seen) l'
  end.

Definition initial : state :=
  {| items := []; buf := []; last_y := None; last_size := None |}.

Definition extract_questions (lines : list Line) : list str :=
  unique_from [] (items (flush (fold_left step lines initial))).

End ExamQuestions.

(** ** Vocabulary of the statements *)

Module Spec.

Import Py MatchTopics.

(** Occurrences of a string in a list of strings. *)
Definition count (q : str) (l : list str) : nat :=
  count_occ (list_eq_dec ascii_dec) l q.

(** The records of a result list whose topic is [t], and the input pairs
    whose topic is [t]. *)
Definition records_of_topic (t : str) (rs : list MatchRecord) : list MatchRecord :=
  filter (fun r => str_eqb (r_slide_topic r) t) rs.

Definition slides_of_topic (t : str) (slides : list slide) : list slide :=
  filter (fun sl => str_eqb (snd sl) t) slides.

(** The questions claimed by the records, one entry per record. *)
Definition claimed (rs : list MatchRecord) : list str := map r_exam_question rs.







(** The three conditions under which a line continues the title. *)
Definition merge_conditions (merge_threshold : Q) (title ln : SlideTitles.LineInfo) : Prop :=
  (merge_threshold
   <= Qmin (SlideTitles.avg_size title) (SlideTitles.avg_size ln)
      / Qmax (SlideTitles.avg_size title) (SlideTitles.avg_size ln))%Q
  /\ (SlideTitles.y0 title - SlideTitles.y1 ln
      <= SlideTitles.avg_size title * (16 # 10))%Q
  /\ (Qabs (SlideTitles.x0 ln - SlideTitles.x0 title)
      <= Qmax 10 (SlideTitles.avg_size title * (8 # 10)))%Q.


(** The record keeping of the segmentation: the lines that are not
    skipped as headers, the top edge of the last of them, and the glyph
    size that the gap test uses, which is the last size that is not zero. *)
Definition is_header (ln : ExamQuestions.Line) : bool :=
  ExamQuestions.header_match (lower (ExamQuestions.text ln)).

Definition kept_lines (lines : list ExamQuestions.Line) : list ExamQuestions.Line :=
  filter (fun ln => negb (is_header ln)) lines.



(** The text of a line without its bullet, and the item a buffer holding
    this text alone is flushed into. *)
Definition body (ln : ExamQuestions.Line) : str :=
  match ExamQuestions.bullet_rest (ExamQuestions.text ln) with
  | Some rest => rest
  | None => ExamQuestions.text ln
  end.

Definition item_of (fragments : list str) : list str :=
  match fragments with
  | [] => []
  | _ => match ExamQuestions.flush_text fragments with
         | [] => []
         | s => [s]
         end
  end.

End Spec.

(** ** The title file written by [tools/extract_slide_titles.py]

    [main] writes one line [f"{page}|{text}\n"] for each title. *)

Module TitleFile.

Import Py.

Definition digit_char (d : Z) : ascii := ascii_of_N (Z.to_N (48 + d)).

(** The decimal digits of [n], which is not negative, put in front of
    [acc]; [fuel] bounds their number. *)
Fixpoint digits_onto (fuel : nat) (n : Z) (acc : str) : str :=
  match fuel with
  | O => acc
  | S fuel' =>
      let acc' := digit_char (n mod 10) :: acc in
      if (n <? 10)%Z then acc' else digits_onto fuel' (n / 10) acc'
  end.

(** A number below [2 ^ (k + 1)] has at most [k + 1] decimal digits. *)
Definition str_of_nonneg (n : Z) : str :=
  digits_onto (S (Z.to_nat (Z.log2 n))) n [].

(** [str(n)] for an [int], which is what an f-string puts for it. *)
Definition str_of_int (n : Z) : str :=
  if (n <? 0)%Z then "-"%char :: str_of_nonneg (- n) else str_of_nonneg n.

(** The line written for one title, without its newline. *)
Definition title_row (title : Z * str) : str :=
  str_of_int (fst title) ++ "|"%char :: snd title.

End TitleFile.

(** ** From the page layouts to the lines

    What the two extractors read of a page layout: its height, and the
    text lines found in its text boxes and other text containers.  A text
    line has a text, a bounding box and the sizes of its characters. *)

Module Layout.

Import Py.

Record TextLine := {
  line_text : str;
  bx0 : Q;
  by0 : Q;
  bx1 : Q;
  by1 : Q;
  char_sizes : list Q
}.

(** The children of a container: text lines, and anything else. *)
Inductive child :=
| Line (l : TextLine)
| OtherChild.

Inductive element :=
| TextBox (children : list child)
| TextContainer (children : list child)
| OtherElement.

Record PageLayout := {
  height : option Q;
  elements : list element
}.

Definition text_lines (children : list child) : list TextLine :=
  flat_map (fun c => match c with Line l => [l] | OtherChild => [] end) children.

(** [iter_lines] and [iter_lines_from_layout]. *)
Definition iter_lines (layout : PageLayout) : list TextLine :=
  flat_map (fun e => match e with
                     | TextBox cs => text_lines cs
                     | TextContainer cs => text_lines cs
                     | OtherElement => []
                     end) (elements layout).

Definition total (sizes : list Q) : Q := fold_right Qplus 0%Q sizes.

Definition mean (sizes : list Q) : Q :=
  (total sizes / inject_Z (Z.of_nat (length sizes)))%Q.

End Layout.

(** ** [extract_titles], page after page *)

Module SlideDocument.

Import Py Layout SlideTitles.

(** [line_avg_font_size]: no size without a character. *)
Definition line_avg_font_size (line : TextLine) : option Q :=
  match char_sizes line with
  | [] => None
  | sizes => Some (mean sizes)
  end.

(** The lines kept for a page: blank lines and lines without a size are
    skipped. *)
Definition collect_line (page_idx : Z) (line : TextLine) : list LineInfo :=
  let text := strip (line_text line) in
  if is_empty text then []
  else match line_avg_font_size line with
       | None => []
       | Some avg_sz =>
           [ {| page := page_idx; text := text;
                x0 := bx0 line; y0 := by0 line; x1 := bx1 line; y1 := by1 line;
                avg_size := avg_sz |} ]
       end.

Definition collect (page_idx : Z) (layout : PageLayout) : list LineInfo :=
  flat_map (collect_line page_idx) (iter_lines layout).

(** [page_height], with the A4 height when the layout has none, or zero. *)
Definition page_height (layout : PageLayout) : Q :=
  match height layout with
  | Some h => if Qeq_bool h 0 then 842%Q else h
  | None => 842%Q
  end.

Section Document.

Variable top_ratio : Q.
Variable merge_threshold : Q.

(** The loop over the pages, from page [page_idx] on; [None] when a page
    raises. *)
Fixpoint titles_from (page_idx : Z) (layouts : list PageLayout) : option (list (Z * str)) :=
  match layouts with
  | [] => Some []
  | layout :: rest =>
      match page_title merge_threshold (page_height layout) top_ratio
              (collect page_idx layout) with
      | None => None
      | Some title =>
          match titles_from (page_idx + 1) rest with
          | None => None
          | Some titles => Some ((page_idx, title) :: titles)
          end
      end
  end.

Definition extract_titles (layouts : list PageLayout) : option (list (Z * str)) :=
  titles_from 1 layouts.

End Document.

End SlideDocument.

(** ** [collect_ordered_lines] *)

Module ExamDocument.

Import Py Layout ExamQuestions.

(** [avg_font_size]: zero without a character. *)
Definition avg_font_size (line : TextLine) : Q :=
  match char_sizes line with
  | [] => 0%Q
  | sizes => mean sizes
  end.

Definition collect_line (page_idx : Z) (line : TextLine) : list Line :=
  let text := strip (line_text line) in
  if is_empty text then []
  else [ {| page := page_idx; text := text;
            x0 := bx0 line; y0 := by0 line; x1 := bx1 line; y1 := by1 line;
            avg_size := avg_font_size line |} ].

Definition collect (page_idx : Z) (layout : PageLayout) : list Line :=
  flat_map (collect_line page_idx) (iter_lines layout).

Fixpoint collect_from (page_idx : Z) (layouts : list PageLayout) : list Line :=
  match layouts with
  | [] => []
  | layout :: rest => collect page_idx layout ++ collect_from (page_idx + 1) rest
  end.

(** The key [(l.page, -l.y1, l.x0)], compared as tuples are. *)
Definition reading_first (a b : Line) : bool :=
  (page a <? page b)%Z
  || ((page a =? page b)%Z
      && (Qltb (- y1 a) (- y1 b)
          || (Qeq_bool (- y1 a) (- y1 b) && Qltb (x0 a) (x0 b)))).

Definition collect_ordered_lines (layouts : list PageLayout) : list Line :=
  stable_sort reading_first (collect_from 1 layouts).

End ExamDocument.

(** ** [load_aliases] *)

Module Aliases.

Import Py MatchTopics.

(** What [json.load] returns. *)
#[local] Unset Elimination Schemes.

Inductive json :=
| JNull
| JBool (b : bool)
| JNumber (x : Q)
| JString (s : str)
| JArray (l : list json)
| JObject (items : list (str * json)).

#[local] Set Elimination Schemes.

(** [[s.lower() for s in v]].  Iterating over a list gives its elements,
    over a string its characters, over a dictionary its keys; [None]
    stands for the [TypeError] of a value that cannot be iterated over and
    for the [AttributeError] of an element without [lower]. *)
Definition lowered_synonyms (v : json) : option (list str) :=
  match v with
  | JArray l =>
      fold_right (fun x acc =>
                    match x, acc with
                    | JString s, Some r => Some (lower s :: r)
                    | _, _ => None
                    end) (Some []) l
  | JString s => Some (map (fun c => lower [c]) s)
  | JObject items => Some (map (fun kv => lower (fst kv)) items)
  | _ => None
  end.

(** [d[k] = v]: a key that is there keeps its place. *)
Fixpoint dict_set (k : str) (v : list str) (d : alias_table) : alias_table :=
  match d with
  | [] => [(k, v)]
  | (k', v') :: d' =>
      if str_eqb k k' then (k', v) :: d' else (k', v') :: dict_set k v d'
  end.

(** [d.get(k)]. *)
Fixpoint dict_get (k : str) (d : alias_table) : option (list str) :=
  match d with
  | [] => None
  | (k', v') :: d' => if str_eqb k k' then Some v' else dict_get k d'
  end.

(** The loop [for k, v in user_aliases.items()] on the table [d].  The
    first value that raises ends it, and [except] returns the table as it
    is by then. *)
Fixpoint merge_items (items : list (str * json)) (d : alias_table) : alias_table :=
  match items with
  | [] => d
  | (k, v) :: rest =>
      match lowered_synonyms v with
      | Some syns => merge_items rest (dict_set (lower k) syns d)
      | None => d
      end
  end.

(** The file named by [path]: no path given, a file that cannot be opened
    or parsed, or the value parsed from it. *)
Inductive source :=
| NoPath
| Unreadable
| Parsed (j : json).

Definition load_aliases (src : source) : alias_table :=
  match src with
  | NoPath => default_aliases
  | Unreadable => default_aliases
  | Parsed (JObject items) => merge_items items default_aliases
  | Parsed _ => default_aliases
  end.

End Aliases.

(** ** The text files between the tools

    The extractors write their results line by line and [match_topics.py]
    reads them back with [load_lines].  A file is the string of its
    characters; the line separator of the platform is the line feed. *)

Module TextFiles.

Import Py.

Definition LF : ascii := ascii_of_N 10.
Definition CR : ascii := ascii_of_N 13.

Definition is_char (x c : ascii) : bool := if ascii_dec x c then true else false.

(** Reading in text mode with universal newlines: a carriage return, with
    the line feed after it if there is one, is read as a line feed. *)
Fixpoint translate (s : str) : str :=
  match s with
  | [] => []
  | c :: s' =>
      if is_char CR c
      then match s' with
           | d :: s'' => if is_char LF d then LF :: translate s''
                         else LF :: translate s'
           | [] => [LF]
           end
      else c :: translate s'
  end.

(** [for line in f]: the lines with their line feed, the last one without
    when the file does not end in one.  [cur] is the line being read, last
    character first. *)
Fixpoint file_lines_from (cur : str) (s : str) : list str :=
  match s with
  | [] => match cur with [] => [] | _ => [rev cur] end
  | c :: s' =>
      if is_char LF c then rev (c :: cur) :: file_lines_from [] s'
      else file_lines_from (c :: cur) s'
  end.

(** [line.rstrip("\n")]. *)
Fixpoint drop_line_feeds (s : str) : str :=
  match s with
  | [] => []
  | c :: s' => if is_char LF c then drop_line_feeds s' else s
  end.

Definition rstrip_line_feeds (line : str) : str := rev (drop_line_feeds (rev line)).

(** [load_lines], from the content of the file. *)
Definition load_lines (content : str) : list str :=
  map rstrip_line_feeds (file_lines_from [] (translate content)).

(** What the loops [f.write(s + "\n")] of [extract_exam_questions.py] and
    [f.write(f"{page}|{text}\n")] of [extract_slide_titles.py] leave in
    the file. *)
Definition written (rows : list str) : str :=
  flat_map (fun row => row ++ [LF]) rows.

Definition exam_file (items : list str) : str := written items.

Definition title_file (titles : list (Z * str)) : str :=
  written (map TitleFile.title_row titles).

End TextFiles.

(** * Properties *)

(** ** Strings and lists *)

Module PyFacts.

Import Py.

Lemma str_eqb_eq (a b : str) : str_eqb a b = true <-> a = b.
Proof.
  unfold str_eqb. destruct (list_eq_dec ascii_dec a b); split; congruence.
Qed.

Lemma str_eqb_refl (a : str) : str_eqb a a = true.
Proof. apply str_eqb_eq. reflexivity. Qed.

Lemma str_eqb_neq (a b : str) : str_eqb a b = false <-> a <> b.
Proof.
  unfold str_eqb. destruct (list_eq_dec ascii_dec a b); split; congruence.
Qed.

Lemma is_empty_true (A : Type) (l : list A) : is_empty l = true <-> l = [].
Proof. destruct l; simpl; split; congruence. Qed.

Lemma is_empty_false (A : Type) (l : list A) : is_empty l = false <-> l <> [].
Proof. destruct l; simpl; split; congruence. Qed.

Definition all_space (s : str) : Prop := Forall (fun c => isspace c = true) s.

(** A string that [strip] leaves alone: no whitespace at either end. *)
Definition trimmed (s : str) : Prop :=
  (forall c r, s = c :: r -> isspace c = false)
  /\ (forall c r, s = r ++ [c] -> isspace c = false).

Lemma lstrip_split (s : str) : exists pre, s = pre ++ lstrip s /\ all_space pre.
Proof.
  induction s as [|c s [pre [E H]]]; simpl.
  - exists []. split; [reflexivity|constructor].
  - destruct (isspace c) eqn:Hc.
    + exists (c :: pre). split; [simpl; now f_equal|now constructor].
    + exists []. split; [reflexivity|constructor].
Qed.

Lemma lstrip_head (s : str) (c : ascii) (r : str) :
  lstrip s = c :: r -> isspace c = false.
Proof.
  induction s as [|d s IH]; simpl; [discriminate|].
  destruct (isspace d) eqn:Hd; [exact IH|].
  intros H. inversion H. now subst.
Qed.

Lemma lstrip_fix (s : str) :
  (forall c r, s = c :: r -> isspace c = false) -> lstrip s = s.
Proof.
  destruct s as [|c s]; simpl; [reflexivity|].
  intros H. now rewrite (H c s eq_refl).
Qed.

Lemma lstrip_idem (s : str) : lstrip (lstrip s) = lstrip s.
Proof. apply lstrip_fix. intros c r. apply lstrip_head. Qed.

Lemma rstrip_fix (s : str) :
  (forall c r, s = r ++ [c] -> isspace c = false) -> rstrip s = s.
Proof.
  intros H. unfold rstrip. rewrite lstrip_fix; [apply rev_involutive|].
  intros c r E. apply (H c (rev r)).
  rewrite <- (rev_involutive s), E. reflexivity.
Qed.

Lemma strip_trimmed (s : str) : trimmed (strip s).
Proof.
  unfold strip, rstrip.
  destruct (lstrip_split (rev (lstrip s))) as [pre [E Hpre]].
  set (u := lstrip (rev (lstrip s))) in *.
  split.
  - intros c r Hu.
    assert (Et : lstrip s = rev u ++ rev pre).
    { rewrite <- (rev_involutive (lstrip s)), E. apply rev_app_distr. }
    rewrite Hu in Et. simpl in Et. now apply lstrip_head in Et.
  - intros c r Hu.
    assert (Eu : u = c :: rev r).
    { rewrite <- (rev_involutive u), Hu, rev_app_distr. reflexivity. }
    now apply lstrip_head in Eu.
Qed.

Lemma strip_fix (s : str) : trimmed s -> strip s = s.
Proof.
  intros [H1 H2]. unfold strip. rewrite (lstrip_fix H1). now apply rstrip_fix.
Qed.

Lemma strip_idem (s : str) : strip (strip s) = strip s.
Proof. apply strip_fix, strip_trimmed. Qed.

End PyFacts.

Section StableSortFacts.

Variable A : Type.
Variable before : A -> A -> bool.

Lemma insert_stable_perm (x : A) (l : list A) :
  Permutation (insert_stable before x l) (x :: l).
Proof.
  induction l as [|y l IH]; simpl.
  - apply Permutation_refl.
  - destruct (before y x).
    + apply perm_trans with (y :: x :: l).
      * apply perm_skip, IH.
      * apply perm_swap.
    + apply Permutation_refl.
Qed.

Lemma stable_sort_perm (l : list A) : Permutation (stable_sort before l) l.
Proof.
  induction l as [|x l IH]; simpl.
  - apply perm_nil.
  - apply perm_trans with (x :: stable_sort before l).
    + apply insert_stable_perm.
    + apply perm_skip, IH.
Qed.

Lemma stable_sort_in (l : list A) (x : A) :
  In x (stable_sort before l) <-> In x l.
Proof.
  split; apply Permutation_in; [|apply Permutation_sym]; apply stable_sort_perm.
Qed.

Lemma stable_sort_length (l : list A) : length (stable_sort before l) = length l.
Proof. apply Permutation_length, stable_sort_perm. Qed.

End StableSortFacts.

(** ** The matcher *)

Module MatcherFacts.

Import Py MatchTopics Spec PyFacts.

Lemma firstn_in (A : Type) (n : nat) (l : list A) (x : A) :
  In x (firstn n l) -> In x l.
Proof.
  intros H. rewrite <- (firstn_skipn n l). apply in_or_app. now left.
Qed.

Lemma take_incl (A : Type) (k : Z) (l : list A) (x : A) :
  In x (take k l) -> In x l.
Proof.
  unfold take. destruct (0 <=? k)%Z; apply firstn_in.
Qed.

Lemma take_length (A : Type) (k : Z) (l : list A) :
  (0 <= k)%Z -> length (take k l) <= Z.to_nat k.
Proof.
  intros Hk. unfold take.
  destruct (Z.leb_spec 0 k) as [_|H]; [|lia].
  apply firstn_le_length.
Qed.

Lemma mem_In (q : str) (l : list str) : mem q l = true <-> In q l.
Proof.
  unfold mem. rewrite existsb_exists. split.
  - intros [x [Hx Hq]]. apply str_eqb_eq in Hq. now subst.
  - intros H. exists q. split; [assumption|apply str_eqb_refl].
Qed.

(** [release q l] is what one turn of the inner loop does to
    [unmatched_exam]. *)
Definition release (l : list str) (q : str) : list str :=
  if mem q l then remove_first q l else l.

Lemma count_remove_first (q q' : str) (l : list str) :
  count q' (remove_first q l)
  = if str_eqb q q' then Nat.pred (count q' l) else count q' l.
Proof.
  unfold count. induction l as [|x l IH]; simpl.
  - now destruct (str_eqb q q').
  - destruct (str_eqb q x) eqn:Hqx.
    + apply str_eqb_eq in Hqx. subst x.
      destruct (str_eqb q q') eqn:Hqq.
      * apply str_eqb_eq in Hqq. subst q'.
        destruct (list_eq_dec ascii_dec q q); [reflexivity|congruence].
      * apply str_eqb_neq in Hqq.
        destruct (list_eq_dec ascii_dec q q'); [congruence|reflexivity].
    + apply str_eqb_neq in Hqx. simpl. rewrite IH.
      destruct (str_eqb q q') eqn:Hqq.
      * apply str_eqb_eq in Hqq. subst q'.
        destruct (list_eq_dec ascii_dec x q); [congruence|reflexivity].
      * destruct (list_eq_dec ascii_dec x q'); reflexivity.
Qed.

Lemma count_release (q q' : str) (l : list str) :
  count q' (release l q)
  = if str_eqb q q' then Nat.pred (count q' l) else count q' l.
Proof.
  unfold release. destruct (mem q l) eqn:Hm.
  - apply count_remove_first.
  - destruct (str_eqb q q') eqn:Hqq; [|reflexivity].
    apply str_eqb_eq in Hqq. subst q'.
    assert (Hn : ~ In q l).
    { intros Hin. apply mem_In in Hin. congruence. }
    unfold count. rewrite (proj1 (count_occ_not_In _ l q) Hn). reflexivity.
Qed.

Lemma count_release_all (q : str) (qs l : list str) :
  count q (fold_left release qs l) = count q l - count q qs.
Proof.
  revert l. induction qs as [|x qs IH]; intros l.
  - unfold count. simpl. lia.
  - simpl. rewrite IH, count_release. unfold count. simpl.
    destruct (str_eqb x q) eqn:Hx.
    + apply str_eqb_eq in Hx. subst x.
      destruct (list_eq_dec ascii_dec q q); [|congruence]. lia.
    + apply str_eqb_neq in Hx.
      destruct (list_eq_dec ascii_dec x q); [congruence|]. lia.
Qed.

Section Run.

Variable aliases : alias_table.
Variable min_score : Q.
Variable max_matches : Z.

Let top_for := top_for aliases min_score max_matches.
Let step := step aliases min_score max_matches.
Let match_topics := match_topics aliases min_score max_matches.

(** The records one input pair contributes. *)
Definition emitted (norm_exam : list (str * str)) (sl : slide) : list MatchRecord :=
  map (record_of sl) (top_for norm_exam (snd sl)).

Lemma score_all_spec (nt : str) (ne : list (str * str)) (s : Q) (q : str) :
  In (s, q) (score_all min_score nt ne) ->
  exists nq, In (q, nq) ne /\ s = combined_score nt nq /\ (min_score <= s)%Q.
Proof.
  induction ne as [|[oq nq] ne IH]; simpl; [tauto|].
  destruct (Qle_bool min_score (combined_score nt nq)) eqn:Hle.
  - intros [H|H].
    + inversion H; subst. exists nq. repeat split; auto.
      now apply Qle_bool_iff.
    + destruct (IH H) as [nq' [? ?]]. exists nq'. tauto.
  - intros H. destruct (IH H) as [nq' [? ?]]. exists nq'. tauto.
Qed.

Lemma top_for_spec (ne : list (str * str)) (topic : str) (s : Q) (q : str) :
  In (s, q) (top_for ne topic) ->
  exists nq, In (q, nq) ne
             /\ s = combined_score (normalize topic aliases) nq
             /\ (min_score <= s)%Q.
Proof.
  intros H. apply take_incl in H. apply stable_sort_in in H.
  now apply score_all_spec in H.
Qed.

Lemma claim_fold (sl : slide) (top : list (Q * str)) (st : state) :
  let st' := fold_left (claim sl) top st in
  results st' = results st ++ map (record_of sl) top
  /\ unmatched_slides st' = unmatched_slides st
  /\ unmatched_exam st' = fold_left release (map snd top) (unmatched_exam st).
Proof.
  revert st. induction top as [|sq top IH]; intros st; simpl.
  - rewrite app_nil_r. auto.
  - destruct (IH (claim sl st sq)) as [H1 [H2 H3]].
    rewrite H1, H2, H3. simpl. rewrite <- app_assoc. auto.
Qed.

Lemma step_spec (ne : list (str * str)) (st : state) (sl : slide) :
  let st' := step ne st sl in
  results st' = results st ++ emitted ne sl
  /\ unmatched_slides st'
     = unmatched_slides st ++ (if is_empty (emitted ne sl) then [sl] else [])
  /\ unmatched_exam st'
     = fold_left release (claimed (emitted ne sl)) (unmatched_exam st).
Proof.
  unfold step, MatchTopics.step, emitted, claimed. fold top_for.
  destruct (top_for ne (snd sl)) as [|sq top] eqn:Htop.
  - simpl. rewrite !app_nil_r. auto.
  - destruct (claim_fold sl (sq :: top) st) as [H1 [H2 H3]].
    rewrite H1, H2, H3. rewrite map_map.
    cbn [is_empty map]. rewrite app_nil_r. auto.
Qed.

Lemma run_spec (ne : list (str * str)) (slides : list slide) (st : state) :
  let st' := fold_left (step ne) slides st in
  results st' = results st ++ flat_map (emitted ne) slides
  /\ unmatched_slides st'
     = unmatched_slides st
       ++ filter (fun sl => is_empty (emitted ne sl)) slides
  /\ unmatched_exam st'
     = fold_left release (claimed (flat_map (emitted ne) slides))
         (unmatched_exam st).
Proof.
  revert st. induction slides as [|sl slides IH]; intros st; simpl.
  - rewrite !app_nil_r. auto.
  - destruct (IH (step ne st sl)) as [H1 [H2 H3]].
    destruct (step_spec ne st sl) as [S1 [S2 S3]].
    rewrite H1, H2, H3, S1, S2, S3. unfold claimed.
    rewrite map_app, fold_left_app, <- !app_assoc.
    repeat split. f_equal.
    destruct (is_empty (emitted ne sl)); reflexivity.
Qed.

Definition normalized (exam : list str) : list (str * str) :=
  map (fun q => (q, normalize q aliases)) exam.

Lemma match_topics_spec (slides : list slide) (exam : list str) :
  let st := match_topics slides exam in
  results st = flat_map (emitted (normalized exam)) slides
  /\ unmatched_slides st
     = filter (fun sl => is_empty (emitted (normalized exam) sl)) slides
  /\ unmatched_exam st = fold_left release (claimed (results st)) exam.
Proof.
  unfold match_topics, MatchTopics.match_topics.
  fold step. fold (normalized exam).
  destruct (run_spec (normalized exam) slides
              {| results := []; unmatched_slides := []; unmatched_exam := exam |})
    as [H1 [H2 H3]].
  simpl in H1, H2, H3. cbv zeta. rewrite H3, H1, H2. auto.
Qed.

End Run.

(** *** Rounding *)



(** *** The cap on matches *)

Lemma records_of_topic_emitted (aliases : alias_table) (min_score : Q)
    (max_matches : Z) (ne : list (str * str)) (sl : slide) (t : str) :
  (0 <= max_matches)%Z ->
  length (records_of_topic t (emitted aliases min_score max_matches ne sl))
  <= Z.to_nat max_matches * length (slides_of_topic t [sl]).
Proof.
  intros Hk. unfold records_of_topic, slides_of_topic, emitted. simpl.
  destruct (str_eqb (snd sl) t) eqn:Ht.
  - simpl. rewrite Nat.mul_1_r.
    etransitivity; [apply filter_length_le|].
    rewrite length_map. unfold top_for. now apply take_length.
  - rewrite Nat.mul_0_r. apply Nat.le_0_r.
    match goal with |- length ?l = 0 => assert (E : l = []); [|now rewrite E] end.
    induction (top_for aliases min_score max_matches ne (snd sl)) as [|sq l IH];
      simpl; [reflexivity|].
    rewrite Ht. exact IH.
Qed.

Lemma records_of_topic_run (aliases : alias_table) (min_score : Q)
    (max_matches : Z) (ne : list (str * str)) (slides : list slide) (t : str) :
  (0 <= max_matches)%Z ->
  length (records_of_topic t
            (flat_map (emitted aliases min_score max_matches ne) slides))
  <= Z.to_nat max_matches * length (slides_of_topic t slides).
Proof.
  intros Hk. induction slides as [|sl slides IH]; simpl.
  - lia.
  - unfold records_of_topic, slides_of_topic in *.
    rewrite filter_app, length_app.
    pose proof (records_of_topic_emitted aliases min_score ne sl t Hk) as H.
    unfold records_of_topic, slides_of_topic in H. simpl in H.
    destruct (str_eqb (snd sl) t); simpl in *; lia.
Qed.

(** C1, as amended: the cap holds once per input pair.  With a cap that is
    not negative, the records whose topic is [t] are at most [max_matches]
    for every input pair whose topic is [t]. *)
Theorem cap_per_input_pair (aliases : alias_table) (min_score : Q)
    (max_matches : Z) (slides : list slide) (exam : list str) (t : str) :
  (0 <= max_matches)%Z ->
  (Z.of_nat (length (records_of_topic t
                       (results (match_topics aliases min_score max_matches
                                   slides exam))))
   <= max_matches * Z.of_nat (length (slides_of_topic t slides)))%Z.
Proof.
  intros Hk.
  destruct (match_topics_spec aliases min_score max_matches slides exam)
    as [H _].
  rewrite H.
  pose proof (records_of_topic_run aliases min_score (normalized aliases exam)
                slides t Hk) as Hle.
  apply Nat2Z.inj_le in Hle. rewrite Nat2Z.inj_mul, Z2Nat.id in Hle by assumption.
  exact Hle.
Qed.

(** The inputs of the examples below. *)
Definition two_pages_one_topic : list slide :=
  [ (Some 1%Z, lit "naive bayes"); (Some 2%Z, lit "naive bayes") ].

Lemma cap_per_input_pair_witness :
  (0 <= 1)%Z
  /\ (Z.of_nat (length (records_of_topic (lit "naive bayes")
                          (results (match_topics default_aliases (72 # 100) 1
                                      two_pages_one_topic [lit "naive bayes"]))))
      <= 1 * Z.of_nat (length (slides_of_topic (lit "naive bayes")
                                 two_pages_one_topic)))%Z.
Proof.
  split; [lia|].
  apply (cap_per_input_pair default_aliases (72 # 100) two_pages_one_topic
           [lit "naive bayes"] (lit "naive bayes")).
  lia.
Defined.

(** C1, as stated, fails: a topic that stands on two pages gets two records
    under a cap of one; and under a negative cap, which drops that many
    candidates from the end, a record is still emitted. *)
Lemma cap_fails_for_repeated_topic :
  ~ (Z.of_nat (length (records_of_topic (lit "naive bayes")
                         (results (match_topics default_aliases (72 # 100) 1
                                     two_pages_one_topic [lit "naive bayes"]))))
     <= 1)%Z
  /\ ~ (Z.of_nat (length (records_of_topic (lit "naive bayes")
                            (results (match_topics default_aliases (1 # 2) (-1)
                                        [(None, lit "naive bayes")]
                                        [lit "naive bayes"; lit "nb"]))))
        <= -1)%Z.
Proof.
  split; apply Z.lt_nge; vm_compute; reflexivity.
Qed.

(** *** The minimum score *)

Lemma results_origin (aliases : alias_table) (min_score : Q) (max_matches : Z)
    (slides : list slide) (exam : list str) (r : MatchRecord) :
  In r (results (match_topics aliases min_score max_matches slides exam)) ->
  exists sl s,
    In sl slides
    /\ In (r_exam_question r) exam
    /\ r = record_of sl (s, r_exam_question r)
    /\ s = combined_score (normalize (snd sl) aliases)
             (normalize (r_exam_question r) aliases)
    /\ (min_score <= s)%Q.
Proof.
  destruct (match_topics_spec aliases min_score max_matches slides exam)
    as [H _].
  rewrite H. clear H. intros Hin.
  apply in_flat_map in Hin. destruct Hin as [sl [Hsl Hr]].
  unfold emitted in Hr. apply in_map_iff in Hr.
  destruct Hr as [[s q] [Hrec Htop]].
  apply top_for_spec in Htop. destruct Htop as [nq [Hq [Hs Hmin]]].
  unfold normalized in Hq. apply in_map_iff in Hq.
  destruct Hq as [q' [Hq' Hexam]]. inversion Hq'; subst q' nq.
  exists sl, s. subst r. simpl. auto.
Qed.


Definition svm_slides : list slide := [ (None, lit "svm") ].

Definition svm_exam : list str := [ lit "svm kernels" ].

Definition svm_record : MatchRecord :=
  {| r_page := None; r_slide_topic := lit "svm";
     r_exam_question := lit "svm kernels";
     r_score := round3 (449 # 520); r_confidence := high |}.



(** *** Questions left unmatched *)

Lemma count_in (q : str) (l : list str) : In q l <-> 0 < count q l.
Proof. unfold count. apply count_occ_In. Qed.

(** C3: the unmatched questions are the complement of the claimed ones,
    occurrence by occurrence.  Of the [count q exam] occurrences of a
    question, [min (count q exam) (count q claimed)] are claimed (a record
    claims one occurrence, as long as one is left) and the others are
    exactly the occurrences of [q] in [unmatched_exam].  So a question of
    the input is claimed or unmatched; it is unmatched exactly when the
    records claiming it are fewer than its occurrences; and a question that
    occurs once is never both. *)
Theorem unmatched_complement (aliases : alias_table) (min_score : Q)
    (max_matches : Z) (slides : list slide) (exam : list str) (q : str) :
  let st := match_topics aliases min_score max_matches slides exam in
  count q exam
  = Nat.min (count q exam) (count q (claimed (results st)))
    + count q (unmatched_exam st)
  /\ (In q exam <-> In q (claimed (results st)) \/ In q (unmatched_exam st))
  /\ (In q (unmatched_exam st)
      <-> count q (claimed (results st)) < count q exam)
  /\ (count q exam = 1 ->
      ~ (In q (claimed (results st)) /\ In q (unmatched_exam st))).
Proof.
  intros st.
  assert (Hcount : count q (unmatched_exam st)
                   = count q exam - count q (claimed (results st))).
  { subst st.
    destruct (match_topics_spec aliases min_score max_matches slides exam)
      as [_ [_ H]].
    rewrite H at 1. apply count_release_all. }
  assert (Horigin : In q (claimed (results st)) -> In q exam).
  { unfold claimed. intros H. apply in_map_iff in H.
    destruct H as [r [Hq Hr]]. subst st. apply results_origin in Hr.
    destruct Hr as [sl [s [_ [Hex _]]]]. now rewrite Hq in Hex. }
  rewrite !count_in in *. rewrite Hcount.
  repeat split; lia.
Qed.

End MatcherFacts.

(** ** Reading the artifacts *)

Module ParserFacts.

Import Py MatchTopics Spec PyFacts MatcherFacts.

Lemma parse_exam_filter (lines : list str) :
  parse_exam lines = filter (fun s => 4 <=? length s) (map strip lines).
Proof.
  induction lines as [|raw lines IH]; simpl; [reflexivity|].
  rewrite IH. destruct (strip raw) as [|c s] eqn:E; simpl; [reflexivity|].
  destruct s as [|c1 [|c2 [|c3 s]]]; reflexivity.
Qed.

Lemma unmatched_slides_incl (aliases : alias_table) (min_score : Q)
    (max_matches : Z) (slides : list slide) (exam : list str) (sl : slide) :
  In sl (unmatched_slides (match_topics aliases min_score max_matches slides exam)) ->
  In sl slides.
Proof.
  destruct (match_topics_spec aliases min_score max_matches slides exam)
    as [_ [H _]].
  rewrite H. intros Hin. apply filter_In in Hin. tauto.
Qed.

Lemma unmatched_exam_incl (aliases : alias_table) (min_score : Q)
    (max_matches : Z) (slides : list slide) (exam : list str) (q : str) :
  In q (unmatched_exam (match_topics aliases min_score max_matches slides exam)) ->
  In q exam.
Proof.
  intros H.
  pose proof (unmatched_complement aliases min_score max_matches slides exam q)
    as [_ [Hiff _]].
  apply Hiff. now right.
Qed.

(** C9: [parse_exam] keeps, in order, the stripped lines of four characters
    or more and nothing else.  A string [s] shorter than that is therefore
    no question of the matcher's input: no record has it as its question,
    the unmatched questions do not contain it, and the unmatched topics are
    input pairs of the slides, to which the exam contributes nothing. *)
Theorem short_lines_discarded (lines : list str) (aliases : alias_table)
    (min_score : Q) (max_matches : Z) (slides : list slide) (s : str) :
  length s < 4 ->
  let st := match_topics aliases min_score max_matches slides (parse_exam lines) in
  parse_exam lines = filter (fun s => 4 <=? length s) (map strip lines)
  /\ ~ In s (parse_exam lines)
  /\ (forall r, In r (results st) -> r_exam_question r <> s)
  /\ ~ In s (unmatched_exam st)
  /\ (forall sl, In sl (unmatched_slides st) -> In sl slides).
Proof.
  intros Hlen st.
  assert (Hnot : ~ In s (parse_exam lines)).
  { rewrite parse_exam_filter. intros H. apply filter_In in H.
    destruct H as [_ H]. apply Nat.leb_le in H. lia. }
  split; [apply parse_exam_filter|].
  split; [exact Hnot|].
  split; [|split].
  - intros r Hr Hq. apply Hnot. subst st. apply results_origin in Hr.
    destruct Hr as [sl [x [_ [Hin _]]]]. now rewrite Hq in Hin.
  - intros H. apply Hnot. subst st. now apply unmatched_exam_incl in H.
  - intros sl. subst st. apply unmatched_slides_incl.
Qed.

Lemma short_lines_discarded_witness :
  length (lit "Q1") < 4
  /\ ~ In (lit "Q1") (parse_exam [lit " Q1 "; lit "What is pca?"]).
Proof.
  split; [simpl; lia|].
  apply (short_lines_discarded [lit " Q1 "; lit "What is pca?"]
           default_aliases (72 # 100) 2 [(None, lit "pca")] (lit "Q1")).
  simpl. lia.
Defined.

Lemma split_bar_app (l r : str) :
  ~ In "|"%char l -> split_bar (l ++ "|"%char :: r) = Some (l, r).
Proof.
  induction l as [|c l IH]; simpl; intros H.
  - destruct (ascii_dec "|" "|"); [reflexivity|congruence].
  - destruct (ascii_dec c "|") as [E|E]; [exfalso; apply H; now left|].
    rewrite IH; [reflexivity|]. intros Hin. apply H. now right.
Qed.






End ParserFacts.

(** ** The sequence matcher *)

Module DifflibFacts.

Import Py Difflib.

(** A block that lies in the window it was searched in. *)
Definition in_window (alo ahi blo bhi : nat) (best : triple) : Prop :=
  let '(i, j, k) := best in
  alo <= i /\ i + k <= ahi /\ blo <= j /\ j + k <= bhi.

(** The entries of the row of index [i - 1], as the row of index [i]
    reads them. *)
Definition row_ok (alo blo bhi i : nat) (m : list (nat * nat)) : Prop :=
  forall j k, In (j, k) m -> k + alo <= i /\ k + blo <= j + 1 /\ j < bhi.

Lemma get_in (j : nat) (m : list (nat * nat)) :
  get j m <> 0 -> In (j, get j m) m.
Proof.
  induction m as [|[j' k] m IH]; simpl; [congruence|].
  destruct (Nat.eqb_spec j j') as [E|E].
  - subst. now left.
  - intros H. right. now apply IH.
Qed.

Lemma get_pred_bound (alo blo bhi i j : nat) (m : list (nat * nat)) :
  row_ok alo blo bhi i m ->
  get_pred j m + alo <= i \/ get_pred j m = 0.
Proof.
  intros Hok. destruct j as [|j]; simpl; [now right|].
  destruct (Nat.eq_dec (get j m) 0) as [E|E]; [now right|].
  left. apply get_in in E. apply Hok in E. lia.
Qed.

Lemma get_pred_bound_b (alo blo bhi i j : nat) (m : list (nat * nat)) :
  row_ok alo blo bhi i m ->
  get_pred j m + blo <= j \/ get_pred j m = 0.
Proof.
  intros Hok. destruct j as [|j]; simpl; [now right|].
  destruct (Nat.eq_dec (get j m) 0) as [E|E]; [now right|].
  left. apply get_in in E. apply Hok in E. lia.
Qed.

Lemma row_in_window (alo ahi blo bhi i : nat) (m : list (nat * nat))
    (js : list nat) (newm : list (nat * nat)) (best : triple) :
  alo <= i -> i < ahi ->
  row_ok alo blo bhi i m ->
  row_ok alo blo bhi (S i) newm ->
  in_window alo ahi blo bhi best ->
  row_ok alo blo bhi (S i) (fst (row i blo bhi m js newm best))
  /\ in_window alo ahi blo bhi (snd (row i blo bhi m js newm best)).
Proof.
  intros Hlo Hhi Hm. revert newm best.
  induction js as [|j js IH]; intros newm best Hnew Hbest; simpl; [auto|].
  destruct (Nat.ltb_spec j blo) as [Hj|Hj]; [now apply IH|].
  destruct (Nat.leb_spec bhi j) as [Hj'|Hj']; [simpl; auto|].
  destruct best as [[bi bj] bk].
  pose proof (get_pred_bound j Hm) as Ha.
  pose proof (get_pred_bound_b j Hm) as Hb.
  apply IH.
  - intros j0 k0 [E|Hin]; [|now apply Hnew].
    inversion E; subst. lia.
  - destruct (Nat.ltb_spec bk (get_pred j m + 1)); [|exact Hbest].
    unfold in_window. lia.
Qed.

Lemma rows_in_window (a b : str) (alo ahi blo bhi n i : nat)
    (m : list (nat * nat)) (best : triple) :
  alo <= i -> i + n <= ahi ->
  row_ok alo blo bhi i m ->
  in_window alo ahi blo bhi best ->
  in_window alo ahi blo bhi (rows a b blo bhi n i m best).
Proof.
  revert i m best. induction n as [|n IH]; intros i m best Hlo Hhi Hm Hbest;
    simpl; [exact Hbest|].
  destruct (nth_error a i) as [x|]; [|exact Hbest].
  destruct (row i blo bhi m (b2j b x) [] best) as [newm best'] eqn:E.
  assert (Hrow : row_ok alo blo bhi (S i) [] ) by (intros j k []).
  destruct (@row_in_window alo ahi blo bhi i m (b2j b x) [] best)
    as [H1 H2]; try assumption; try lia.
  rewrite E in H1, H2. simpl in H1, H2.
  apply IH; try assumption; lia.
Qed.

Lemma extend_back_in_window (a b : str) (alo ahi blo bhi fuel : nat) (best : triple) :
  in_window alo ahi blo bhi best ->
  in_window alo ahi blo bhi (extend_back a b alo blo fuel best).
Proof.
  revert best. induction fuel as [|fuel IH]; intros [[bi bj] bk] H; simpl;
    [exact H|].
  destruct (Nat.ltb_spec alo bi); simpl; [|exact H].
  destruct (Nat.ltb_spec blo bj); simpl; [|exact H].
  destruct (same_at a b (bi - 1) (bj - 1)); [|exact H].
  apply IH. unfold in_window in *. lia.
Qed.

Lemma extend_fwd_in_window (a b : str) (alo ahi blo bhi fuel : nat) (best : triple) :
  in_window alo ahi blo bhi best ->
  in_window alo ahi blo bhi (extend_fwd a b ahi bhi fuel best).
Proof.
  revert best. induction fuel as [|fuel IH]; intros [[bi bj] bk] H; simpl;
    [exact H|].
  destruct (Nat.ltb_spec (bi + bk) ahi); simpl; [|exact H].
  destruct (Nat.ltb_spec (bj + bk) bhi); simpl; [|exact H].
  destruct (same_at a b (bi + bk) (bj + bk)); [|exact H].
  apply IH. unfold in_window in *. lia.
Qed.

Lemma find_longest_match_in_window (a b : str) (alo ahi blo bhi : nat) :
  alo <= ahi -> blo <= bhi ->
  in_window alo ahi blo bhi (find_longest_match a b alo ahi blo bhi).
Proof.
  intros Ha Hb. unfold find_longest_match.
  apply extend_fwd_in_window, extend_back_in_window, rows_in_window.
  - lia.
  - lia.
  - intros j k [].
  - unfold in_window. lia.
Qed.

(** The blocks found in a window fit in it side by side. *)
Lemma matched_bound (a b : str) (fuel alo ahi blo bhi : nat) :
  alo <= ahi -> blo <= bhi ->
  matched a b fuel alo ahi blo bhi <= Nat.min (ahi - alo) (bhi - blo).
Proof.
  revert alo ahi blo bhi.
  induction fuel as [|fuel IH]; intros alo ahi blo bhi Ha Hb; simpl; [lia|].
  pose proof (find_longest_match_in_window a b Ha Hb) as Hw.
  destruct (find_longest_match a b alo ahi blo bhi) as [[i j] k].
  unfold in_window in Hw.
  destruct (Nat.eqb_spec k 0); [lia|].
  assert (Hl : (if (alo <? i) && (blo <? j)
                then matched a b fuel alo i blo j else 0)
               <= Nat.min (i - alo) (j - blo)).
  { destruct ((alo <? i) && (blo <? j)); [apply IH; lia|lia]. }
  assert (Hr : (if (i + k <? ahi) && (j + k <? bhi)
                then matched a b fuel (i + k) ahi (j + k) bhi else 0)
               <= Nat.min (ahi - (i + k)) (bhi - (j + k))).
  { destruct ((i + k <? ahi) && (j + k <? bhi)); [apply IH; lia|lia]. }
  lia.
Qed.

(** The fuel of [matches] is enough: more of it changes nothing. *)
Lemma matched_fuel (a b : str) (f1 f2 alo ahi blo bhi : nat) :
  alo <= ahi -> blo <= bhi -> ahi - alo < f1 -> ahi - alo < f2 ->
  matched a b f1 alo ahi blo bhi = matched a b f2 alo ahi blo bhi.
Proof.
  revert f2 alo ahi blo bhi.
  induction f1 as [|f1 IH]; intros f2 alo ahi blo bhi Ha Hb H1 H2; [lia|].
  destruct f2 as [|f2]; [lia|]. simpl.
  pose proof (find_longest_match_in_window a b Ha Hb) as Hw.
  destruct (find_longest_match a b alo ahi blo bhi) as [[i j] k].
  unfold in_window in Hw.
  destruct (Nat.eqb_spec k 0); [reflexivity|].
  f_equal; [f_equal|].
  - destruct ((alo <? i) && (blo <? j)); [apply IH; lia|reflexivity].
  - destruct ((i + k <? ahi) && (j + k <? bhi)); [apply IH; lia|reflexivity].
Qed.

Lemma matches_bound (a b : str) :
  matches a b <= Nat.min (length a) (length b).
Proof.
  unfold matches.
  pose proof (@matched_bound a b (S (length a)) 0 (length a) 0 (length b)).
  lia.
Qed.

Lemma ratio_range (a b : str) : (0 <= ratio a b <= 1)%Q.
Proof.
  unfold ratio. pose proof (matches_bound a b) as Hm.
  destruct (length a + length b) as [|n] eqn:E; [lra|].
  set (m := matches a b) in *.
  assert (Hpos : (0 < inject_Z (Z.of_nat (S n)))%Q).
  { rewrite <- (Zlt_Qlt 0). lia. }
  split.
  - apply Qle_shift_div_l; [exact Hpos|].
    rewrite Qmult_0_l. rewrite <- (Zle_Qle 0). lia.
  - apply Qle_shift_div_r; [exact Hpos|].
    rewrite Qmult_1_l. rewrite <- Zle_Qle. lia.
Qed.

(** *** A sequence against itself *)

(** Is the element of index [i] kept in the index [b2j]? *)
Definition kept (a : str) (i : nat) : bool :=
  match nth_error a i with
  | Some x => negb (popular a x)
  | None => false
  end.

(** The length of the run of kept elements that ends at index [i]. *)
Fixpoint run (a : str) (i : nat) : nat :=
  if kept a i
  then S (match i with O => 0 | S i' => run a i' end)
  else 0.

Lemma indices_from_in (x : ascii) (s : str) (j0 j : nat) :
  In j (indices_from x j0 s) <-> j0 <= j /\ nth_error s (j - j0) = Some x.
Proof.
  revert j0. induction s as [|y s IH]; intros j0; simpl.
  - split; [tauto|]. intros [_ H]. destruct (j - j0); discriminate.
  - destruct (ascii_dec x y) as [E|E]; simpl; rewrite IH.
    + split.
      * intros [H|[H1 H2]].
        -- subst. rewrite Nat.sub_diag. simpl. split; [lia|congruence].
        -- split; [lia|]. replace (j - j0) with (S (j - S j0)) by lia. exact H2.
      * intros [H1 H2]. destruct (Nat.eq_dec j0 j) as [Ej|Ej]; [now left|].
        right. split; [lia|].
        replace (j - j0) with (S (j - S j0)) in H2 by lia. exact H2.
    + split.
      * intros [H1 H2]. split; [lia|].
        replace (j - j0) with (S (j - S j0)) by lia. exact H2.
      * intros [H1 H2]. destruct (Nat.eq_dec j0 j) as [Ej|Ej].
        -- subst. rewrite Nat.sub_diag in H2. simpl in H2. congruence.
        -- split; [lia|].
           replace (j - j0) with (S (j - S j0)) in H2 by lia. exact H2.
Qed.

Lemma indices_from_sorted (x : ascii) (s : str) (j0 : nat) :
  StronglySorted lt (indices_from x j0 s).
Proof.
  revert j0. induction s as [|y s IH]; intros j0; simpl; [constructor|].
  destruct (ascii_dec x y); [|apply IH].
  constructor; [apply IH|].
  apply Forall_forall. intros j Hj. apply indices_from_in in Hj. lia.
Qed.

Lemma sorted_split (l : list nat) (i : nat) :
  StronglySorted lt l -> In i l ->
  exists l1 l2, l = l1 ++ i :: l2
                /\ Forall (fun j => j < i) l1 /\ Forall (fun j => i < j) l2.
Proof.
  induction 1 as [|x l Hs IH Hall]; simpl; [tauto|].
  intros [E|Hin].
  - subst. exists [], l. auto.
  - destruct (IH Hin) as [l1 [l2 [E [H1 H2]]]].
    exists (x :: l1), l2. subst l. repeat split; auto.
    constructor; [|exact H1].
    rewrite Forall_forall in Hall. apply Hall. apply in_or_app. right. now left.
Qed.

(** The entry that the row of index [i] stores for [j]. *)
Definition entry (m : list (nat * nat)) (j : nat) : nat * nat :=
  (j, get_pred j m + 1).

(** A stretch of the inner loop that finds nothing longer. *)
Lemma row_quiet (i bhi : nat) (m : list (nat * nat)) (js rest : list nat)
    (newm : list (nat * nat)) (bi bj bk : nat) :
  Forall (fun j => j < bhi /\ get_pred j m + 1 <= bk) js ->
  row i 0 bhi m (js ++ rest) newm (bi, bj, bk)
  = row i 0 bhi m rest (rev (map (entry m) js) ++ newm) (bi, bj, bk).
Proof.
  revert newm. induction js as [|j js IH]; intros newm H; simpl; [reflexivity|].
  inversion H as [|? ? [Hj Hk] Hrest]; subst.
  destruct (Nat.leb_spec bhi j); [lia|].
  destruct (Nat.ltb_spec bk (get_pred j m + 1)); [lia|].
  rewrite IH by assumption. rewrite <- app_assoc. reflexivity.
Qed.

Lemma get_rev_entries (m : list (nat * nat)) (js : list nat) (j : nat) :
  In j js -> get j (rev (map (entry m) js)) = get_pred j m + 1.
Proof.
  intros Hin.
  assert (H : forall l : list (nat * nat),
             (forall p, In p l -> p = entry m (fst p)) ->
             In (entry m j) l -> get j l = get_pred j m + 1).
  { induction l as [|[j' k] l IH]; simpl; [tauto|].
    intros Hall Hj. destruct (Nat.eqb_spec j j') as [E|E].
    - subst. specialize (Hall (j', k) (or_introl eq_refl)).
      unfold entry in Hall. simpl in Hall. congruence.
    - apply IH; [intros p Hp; apply Hall; now right|].
      destruct Hj as [Hj|Hj]; [|exact Hj].
      unfold entry in Hj. congruence. }
  apply H.
  - intros p Hp. apply in_rev in Hp. apply in_map_iff in Hp.
    destruct Hp as [j' [E _]]. subst p. reflexivity.
  - apply in_rev. rewrite rev_involutive. now apply in_map.
Qed.

(** What the row of index [i] reads from the one before it. *)
Definition prev_ok (a : str) (i : nat) (m : list (nat * nat)) : Prop :=
  match i with
  | O => m = []
  | S i' =>
      (forall j k, In (j, k) m -> k <= run a i' /\ k <= run a j)
      /\ get i' m = run a i'
  end.

Lemma run_kept (a : str) (i : nat) :
  kept a i = true ->
  run a i = S (match i with O => 0 | S i' => run a i' end).
Proof. intros H. destruct i; simpl; now rewrite H. Qed.

Lemma entry_bound (a : str) (i j : nat) (m : list (nat * nat)) :
  prev_ok a i m -> kept a i = true -> kept a j = true ->
  get_pred j m + 1 <= run a i /\ get_pred j m + 1 <= run a j.
Proof.
  intros Hm Hi Hj. rewrite (run_kept a i Hi), (run_kept a j Hj).
  destruct j as [|j]; simpl; [lia|].
  destruct (Nat.eq_dec (get j m) 0) as [E|E]; [lia|].
  apply get_in in E. destruct i as [|i]; simpl in Hm.
  - subst m. destruct E.
  - destruct Hm as [Hm _]. apply Hm in E. lia.
Qed.

Lemma entry_diagonal (a : str) (i : nat) (m : list (nat * nat)) :
  prev_ok a i m -> kept a i = true -> get_pred i m + 1 = run a i.
Proof.
  intros Hm Hi. rewrite (run_kept a i Hi).
  destruct i as [|i]; simpl in *; [lia|]. destruct Hm as [_ Hm]. lia.
Qed.

(** One row of a sequence against itself: the best block stays on the
    diagonal and is at least as long as every run seen so far. *)
Lemma row_self (a : str) (i : nat) (x : ascii) (m : list (nat * nat))
    (bi bk : nat) :
  nth_error a i = Some x ->
  prev_ok a i m ->
  (forall j, j < i -> run a j <= bk) ->
  exists newm ci ck,
    row i 0 (length a) m (b2j a x) [] (bi, bi, bk) = (newm, (ci, ci, ck))
    /\ prev_ok a (S i) newm
    /\ (forall j, j < S i -> run a j <= ck).
Proof.
  intros Hx Hm Hbest.
  assert (Hkept : kept a i = negb (popular a x)) by (unfold kept; now rewrite Hx).
  unfold b2j. destruct (popular a x) eqn:Hp; simpl in Hkept.
  - exists [], bi, bk. simpl.
    assert (Hrun : run a i = 0) by (destruct i; simpl; now rewrite Hkept).
    split; [reflexivity|]. split.
    + split; [intros j k []|simpl; lia].
    + intros j Hj. destruct (Nat.eq_dec j i); [subst; lia|apply Hbest; lia].
  - set (js := indices_from x 0 a).
    assert (Hjs : forall j, In j js -> kept a j = true /\ j < length a).
    { intros j Hj. apply indices_from_in in Hj. destruct Hj as [_ Hj].
      rewrite Nat.sub_0_r in Hj. split.
      - unfold kept. now rewrite Hj, Hp.
      - apply nth_error_Some. congruence. }
    assert (Hi : In i js).
    { apply indices_from_in. rewrite Nat.sub_0_r. split; [lia|exact Hx]. }
    destruct (@sorted_split js i (indices_from_sorted x a 0) Hi)
      as [l1 [l2 [Esplit [H1 H2]]]].
    fold js in Esplit.
    assert (Hnew : rev (map (entry m) l2)
                   ++ (i, run a i) :: rev (map (entry m) l1) ++ []
                   = rev (map (entry m) js)).
    { rewrite Esplit, map_app, rev_app_distr. simpl.
      rewrite app_nil_r, <- app_assoc. simpl.
      change (entry m i) with (i, get_pred i m + 1).
      now rewrite (@entry_diagonal a i m Hm Hkept). }
    rewrite Esplit, row_quiet; cycle 1.
    { apply Forall_forall. intros j Hj. rewrite Forall_forall in H1.
      assert (Hin : In j js) by (rewrite Esplit; apply in_or_app; now left).
      destruct (Hjs j Hin) as [Hk Hlen]. split; [exact Hlen|].
      pose proof (@entry_bound a i j m Hm Hkept Hk) as [_ Hb].
      specialize (Hbest j (H1 j Hj)). lia. }
    simpl.
    destruct (Nat.leb_spec (length a) i) as [Hle|_];
      [destruct (Hjs i Hi); lia|].
    rewrite (@entry_diagonal a i m Hm Hkept).
    assert (Hfin : forall ci ck, bk <= ck -> run a i <= ck ->
               exists newm ci0 ck0,
                 row i 0 (length a) m l2
                   ((i, run a i) :: rev (map (entry m) l1) ++ []) (ci, ci, ck)
                 = (newm, (ci0, ci0, ck0))
                 /\ prev_ok a (S i) newm
                 /\ (forall j, j < S i -> run a j <= ck0)).
    { intros ci ck Hck1 Hck2.
      rewrite <- (app_nil_r l2), row_quiet; cycle 1.
      { apply Forall_forall. intros j Hj.
        assert (Hin : In j js).
        { rewrite Esplit. apply in_or_app. right. now right. }
        destruct (Hjs j Hin) as [Hk Hlen]. split; [exact Hlen|].
        pose proof (@entry_bound a i j m Hm Hkept Hk) as [Hb _]. lia. }
      simpl. exists (rev (map (entry m) js)), ci, ck. rewrite Hnew.
      split; [reflexivity|]. split; [split|].
      - intros j k Hin. apply in_rev in Hin. apply in_map_iff in Hin.
        destruct Hin as [j' [E Hj']]. unfold entry in E. inversion E; subst.
        destruct (Hjs j Hj') as [Hk _].
        apply (@entry_bound a i j m Hm Hkept Hk).
      - rewrite (@get_rev_entries m js i Hi).
        apply (@entry_diagonal a i m Hm Hkept).
      - intros j Hj. destruct (Nat.eq_dec j i); [subst; lia|].
        specialize (Hbest j). lia. }
    destruct (Nat.ltb_spec bk (run a i)); apply Hfin; lia.
Qed.

Lemma rows_self (a : str) (n i : nat) (m : list (nat * nat)) (bi bk : nat) :
  i + n = length a ->
  prev_ok a i m ->
  (forall j, j < i -> run a j <= bk) ->
  exists ci ck, rows a a 0 (length a) n i m (bi, bi, bk) = (ci, ci, ck).
Proof.
  revert i m bi bk. induction n as [|n IH]; intros i m bi bk Hn Hm Hbest; simpl.
  - now exists bi, bk.
  - destruct (nth_error a i) as [x|] eqn:Hx.
    + destruct (@row_self a i x m bi bk Hx Hm Hbest)
        as [newm [ci [ck [E [Hm' Hbest']]]]].
      rewrite E. apply IH; [lia|assumption|assumption].
    + now exists bi, bk.
Qed.

Lemma same_at_self (a : str) (i : nat) : i < length a -> same_at a a i i = true.
Proof.
  intros H. unfold same_at. destruct (nth_error a i) as [x|] eqn:E.
  - destruct (ascii_dec x x); [reflexivity|congruence].
  - apply nth_error_None in E. lia.
Qed.

Lemma extend_back_self (a : str) (fuel ci ck : nat) :
  ci <= fuel -> ci <= length a ->
  extend_back a a 0 0 fuel (ci, ci, ck) = (0, 0, ck + ci).
Proof.
  revert ci ck. induction fuel as [|fuel IH]; intros ci ck Hf Hlen; simpl.
  - replace ci with 0 by lia. now rewrite Nat.add_0_r.
  - destruct ci as [|c]; simpl; [now rewrite Nat.add_0_r|].
    rewrite Nat.sub_0_r, same_at_self by lia.
    rewrite IH by lia. f_equal. lia.
Qed.

Lemma extend_fwd_self (a : str) (fuel k : nat) :
  length a - k <= fuel -> k <= length a ->
  extend_fwd a a (length a) (length a) fuel (0, 0, k) = (0, 0, length a).
Proof.
  revert k. induction fuel as [|fuel IH]; intros k Hf Hlen; simpl.
  - f_equal. lia.
  - destruct (Nat.ltb_spec k (length a)) as [Hlt|Hge]; simpl.
    + rewrite same_at_self by lia. apply IH; lia.
    + f_equal. lia.
Qed.

(** The longest block of a sequence against itself is the sequence. *)
Lemma find_longest_match_self (a : str) :
  find_longest_match a a 0 (length a) 0 (length a) = (0, 0, length a).
Proof.
  unfold find_longest_match. rewrite Nat.sub_0_r.
  destruct (@rows_self a (length a) 0 [] 0 0) as [ci [ck E]];
    [reflexivity|reflexivity|intros j Hj; lia|].
  assert (Hw : in_window 0 (length a) 0 (length a) (ci, ci, ck)).
  { rewrite <- E. apply rows_in_window; try lia.
    - intros j k [].
    - unfold in_window. lia. }
  unfold in_window in Hw. rewrite E.
  rewrite extend_back_self by lia. apply extend_fwd_self; lia.
Qed.

Lemma matches_self (a : str) : matches a a = length a.
Proof.
  unfold matches. simpl. rewrite find_longest_match_self.
  destruct (Nat.eqb_spec (length a) 0) as [E|E]; [lia|].
  simpl. rewrite Nat.ltb_irrefl. simpl. lia.
Qed.

Lemma ratio_self (a : str) : (ratio a a == 1)%Q.
Proof.
  unfold ratio. rewrite matches_self.
  destruct (length a + length a) as [|n] eqn:E; [reflexivity|].
  rewrite <- E.
  replace (2 * Z.of_nat (length a))%Z with (Z.of_nat (length a + length a)) by lia.
  apply Qmult_inv_r. rewrite E. intros H.
  unfold Qeq, inject_Z in H. simpl in H. lia.
Qed.

End DifflibFacts.

(** ** Splitting and joining *)

Module SplitFacts.

Import Py PyFacts.

Definition nonspace (w : str) : Prop := Forall (fun c => isspace c = false) w.

(** A word as [split] returns them: not empty, no whitespace in it. *)
Definition word (w : str) : Prop := w <> [] /\ nonspace w.

Lemma split_from_words (cur s : str) :
  nonspace cur -> Forall word (split_from cur s).
Proof.
  revert cur. induction s as [|c s IH]; intros cur Hcur; simpl.
  - destruct cur as [|d cur]; [constructor|].
    constructor; [|constructor]. split.
    + intros E. apply (f_equal (@length ascii)) in E.
      rewrite length_rev in E. discriminate.
    + unfold nonspace. apply Forall_rev. exact Hcur.
  - destruct (isspace c) eqn:Hc.
    + destruct cur as [|d cur]; [apply IH; constructor|].
      constructor; [|apply IH; constructor]. split.
      * intros E. apply (f_equal (@length ascii)) in E.
        rewrite length_rev in E. discriminate.
      * unfold nonspace. apply Forall_rev. exact Hcur.
    + apply IH. now constructor.
Qed.

Lemma split_words (s : str) : Forall word (split s).
Proof. apply split_from_words. constructor. Qed.

Lemma split_from_app (cur w s : str) :
  nonspace w -> split_from cur (w ++ s) = split_from (rev w ++ cur) s.
Proof.
  revert cur. induction w as [|c w IH]; intros cur H; simpl; [reflexivity|].
  inversion H as [|? ? Hc Hw]; subst. rewrite Hc, IH by assumption.
  now rewrite <- app_assoc.
Qed.

Lemma split_join (toks : list str) :
  Forall word toks -> split (join [space] toks) = toks.
Proof.
  unfold split. induction toks as [|x toks IH]; intros H; [reflexivity|].
  inversion H as [|? ? [Hne Hx] Htoks]; subst.
  destruct toks as [|y toks].
  - simpl. rewrite <- (app_nil_r x) at 1. rewrite split_from_app by assumption.
    simpl. rewrite app_nil_r.
    destruct (rev x) eqn:E.
    + apply (f_equal (@rev ascii)) in E. rewrite rev_involutive in E.
      simpl in E. congruence.
    + now rewrite <- E, rev_involutive.
  - change (join [space] (x :: y :: toks))
      with (x ++ [space] ++ join [space] (y :: toks)).
    rewrite split_from_app by assumption. rewrite app_nil_r.
    cbn [app split_from]. change (isspace space) with true. cbv iota.
    destruct (rev x) eqn:E.
    + apply (f_equal (@rev ascii)) in E. rewrite rev_involutive in E.
      simpl in E. congruence.
    + rewrite <- E, rev_involutive. f_equal. now apply IH.
Qed.

Lemma join_nil (toks : list str) :
  Forall word toks -> join [space] toks = [] -> toks = [].
Proof.
  destruct toks as [|x toks]; [reflexivity|]. intros H E.
  inversion H as [|? ? [Hne _] _]; subst.
  destruct toks; simpl in E; [congruence|].
  destruct x; [congruence|discriminate].
Qed.

End SplitFacts.

(** ** The similarity scores *)

Module ScoreFacts.

Import Py MatchTopics PyFacts MatcherFacts DifflibFacts SplitFacts.

Lemma Qnat_div_range (n m : nat) : n <= m -> (0 <= Qnat n / Qnat m <= 1)%Q.
Proof.
  intros H. unfold Qnat. destruct m as [|m].
  - replace n with 0 by lia. compute. split; discriminate.
  - assert (Hpos : (0 < inject_Z (Z.of_nat (S m)))%Q).
    { rewrite <- (Zlt_Qlt 0). lia. }
    split.
    + apply Qle_shift_div_l; [exact Hpos|].
      rewrite Qmult_0_l. rewrite <- (Zle_Qle 0). lia.
    + apply Qle_shift_div_r; [exact Hpos|].
      rewrite Qmult_1_l. rewrite <- Zle_Qle. lia.
Qed.

Lemma Qnat_div_self (n : nat) : 0 < n -> (Qnat n / Qnat n == 1)%Q.
Proof.
  intros H. apply Qmult_inv_r. unfold Qnat, Qeq, inject_Z. simpl. lia.
Qed.

Lemma inter_le_left (a b : list str) : inter_size a b <= length (set_of a).
Proof. apply filter_length_le. Qed.

Lemma inter_le_right (a b : list str) : inter_size a b <= length (set_of b).
Proof.
  unfold inter_size, set_of. apply NoDup_incl_length.
  - apply NoDup_filter, NoDup_nodup.
  - intros w Hw. apply filter_In in Hw. destruct Hw as [_ Hw].
    apply nodup_In. now apply mem_In.
Qed.

Lemma set_le_union (a b : list str) : length (set_of a) <= union_size a b.
Proof.
  unfold union_size, set_of. apply NoDup_incl_length; [apply NoDup_nodup|].
  intros w Hw. apply nodup_In. apply in_or_app. left.
  now apply nodup_In in Hw.
Qed.

Lemma inter_self (a : list str) : inter_size a a = length (set_of a).
Proof.
  unfold inter_size. f_equal.
  assert (H : forall l : list str,
             (forall w, In w l -> mem w a = true) ->
             filter (fun w => mem w a) l = l).
  { induction l as [|w l IH]; intros Hl; simpl; [reflexivity|].
    rewrite (Hl w (or_introl eq_refl)). f_equal. apply IH.
    intros w' Hw'. apply Hl. now right. }
  apply H. intros w Hw. apply mem_In. now apply nodup_In in Hw.
Qed.

Lemma union_self (a : list str) : union_size a a = length (set_of a).
Proof.
  unfold union_size, set_of. apply Nat.le_antisymm.
  - apply NoDup_incl_length; [apply NoDup_nodup|].
    intros w Hw. apply nodup_In. apply nodup_In in Hw.
    apply in_app_or in Hw. tauto.
  - apply (set_le_union a a).
Qed.

Lemma set_of_pos (a : list str) : a <> [] -> 0 < length (set_of a).
Proof.
  destruct a as [|w a]; [congruence|]. intros _.
  assert (H : In w (set_of (w :: a))) by (apply nodup_In; now left).
  destruct (set_of (w :: a)); [destruct H|simpl; lia].
Qed.

Lemma jaccard_range (a b : list str) : (0 <= jaccard a b <= 1)%Q.
Proof.
  unfold jaccard. destruct (is_empty a || is_empty b); [lra|].
  apply Qnat_div_range.
  etransitivity; [apply inter_le_left|apply set_le_union].
Qed.

Lemma token_overlap_range (a b : list str) : (0 <= token_overlap a b <= 1)%Q.
Proof.
  unfold token_overlap. destruct (is_empty a || is_empty b); [lra|].
  apply Qnat_div_range. apply Nat.min_glb.
  - apply inter_le_left.
  - apply inter_le_right.
Qed.

Lemma jaccard_self (a : list str) : a <> [] -> (jaccard a a == 1)%Q.
Proof.
  intros H. unfold jaccard.
  destruct a as [|w a]; [congruence|]. cbn [is_empty orb].
  rewrite inter_self, union_self. now apply Qnat_div_self, set_of_pos.
Qed.

Lemma token_overlap_self (a : list str) : a <> [] -> (token_overlap a a == 1)%Q.
Proof.
  intros H. unfold token_overlap.
  destruct a as [|w a]; [congruence|]. cbn [is_empty orb].
  rewrite inter_self, Nat.min_id. now apply Qnat_div_self, set_of_pos.
Qed.

Lemma combined_score_range (a b : str) : (0 <= combined_score a b <= 1)%Q.
Proof.
  unfold combined_score, char_similarity.
  pose proof (jaccard_range (tokens a) (tokens b)).
  pose proof (token_overlap_range (tokens a) (tokens b)).
  pose proof (ratio_range a b).
  split; lra.
Qed.

Lemma combined_score_self (a : str) :
  tokens a <> [] -> (combined_score a a == 1)%Q.
Proof.
  intros H. unfold combined_score, char_similarity.
  pose proof (jaccard_self H). pose proof (token_overlap_self H).
  pose proof (ratio_self a). lra.
Qed.

(** The words that [normalize] joins. *)
Definition kept_words (t : str) : list str :=
  filter (fun w => negb (is_stopword w)) (split (strip (Re.ws_sub (Re.punct_sub t)))).

Lemma clean_join (t : str) : clean t = join [space] (kept_words t).
Proof. reflexivity. Qed.

Lemma kept_words_words (t : str) : Forall word (kept_words t).
Proof.
  unfold kept_words. apply Forall_forall. intros w Hw.
  apply filter_In in Hw. destruct Hw as [Hw _].
  pose proof (split_words (strip (Re.ws_sub (Re.punct_sub t)))) as H.
  rewrite Forall_forall in H. now apply H.
Qed.

Lemma tokens_clean (t : str) : tokens (clean t) = kept_words t.
Proof.
  unfold tokens. rewrite clean_join, split_join by apply kept_words_words.
  pose proof (kept_words_words t) as H.
  induction (kept_words t) as [|w l IH]; simpl; [reflexivity|].
  inversion H as [|? ? [Hne _] Hl]; subst.
  destruct w; [congruence|]. f_equal. now apply IH.
Qed.

Lemma tokens_normalize (text : str) (aliases : alias_table) :
  normalize text aliases <> [] -> tokens (normalize text aliases) <> [].
Proof.
  unfold normalize. rewrite tokens_clean, clean_join.
  intros H E. apply H. now rewrite E.
Qed.

(** C4: the combined score lies in [0, 1], and a string scores 1 against
    itself as soon as it has a token; in particular every normalized
    string that is not empty does. *)
Theorem combined_score_bounds :
  (forall a b : str, (0 <= combined_score a b <= 1)%Q)
  /\ (forall a : str, tokens a <> [] -> (combined_score a a == 1)%Q)
  /\ (forall (text : str) (aliases : alias_table),
        normalize text aliases <> [] ->
        (combined_score (normalize text aliases) (normalize text aliases) == 1)%Q).
Proof.
  split; [exact combined_score_range|].
  split; [exact combined_score_self|].
  intros text aliases H. now apply combined_score_self, tokens_normalize.
Qed.

End ScoreFacts.

(** ** Aliases *)

Module AliasFacts.

Import Py MatchTopics Spec PyFacts.







End AliasFacts.

(** ** Normalizing twice *)

Module NormalizeFacts.

Import Py MatchTopics Spec PyFacts SplitFacts ScoreFacts.












(** *** Strings of plain words joined by single spaces *)







Lemma last_app_right (A : Type) (x z : list A) (d : A) :
  z <> [] -> last (x ++ z) d = last z d.
Proof.
  intros Hz. induction x as [|a x IH]; [reflexivity|].
  simpl. destruct (x ++ z) eqn:E; [|exact IH].
  destruct x; simpl in E; [congruence|discriminate].
Qed.

Lemma join_last (ws : list str) (x : str) :
  Forall word (x :: ws) ->
  exists y, In y (x :: ws) /\ last (join [space] (x :: ws)) space = last y space.
Proof.
  revert x. induction ws as [|z ws IH]; intros x H.
  - exists x. split; [now left|reflexivity].
  - inversion H as [|? ? _ Hws]; subst.
    destruct (IH z Hws) as [y [Hy E]]. exists y. split; [now right|].
    change (join [space] (x :: z :: ws))
      with (x ++ space :: join [space] (z :: ws)).
    rewrite last_app_right by discriminate.
    inversion Hws as [|? ? [Hne _] _]; subst.
    change (space :: join [space] (z :: ws))
      with ([space] ++ join [space] (z :: ws)).
    rewrite last_app_right; [exact E|].
    intros En. destruct ws; simpl in En; [congruence|].
    destruct z; [congruence|discriminate].
Qed.

Lemma join_trimmed (ws : list str) : Forall word ws -> trimmed (join [space] ws).
Proof.
  intros H. split.
  - intros c r E. destruct ws as [|x ws]; [discriminate|].
    inversion H as [|? ? [Hne Hx] _]; subst.
    destruct x as [|d x]; [congruence|].
    inversion Hx as [|? ? Hd _]; subst.
    destruct ws; simpl in E; inversion E; now subst.
  - intros c r E. destruct ws as [|x ws]; [now destruct r|].
    destruct (join_last H) as [y [Hy El]].
    rewrite E, last_last in El.
    rewrite Forall_forall in H. destruct (H y Hy) as [Hne Hns].
    destruct (@exists_last _ y Hne) as [y' [e Ey]]. subst y.
    rewrite last_last in El. subst c.
    unfold nonspace in Hns. rewrite Forall_forall in Hns.
    apply Hns, in_or_app. right. now left.
Qed.













End NormalizeFacts.

(** ** The title of a slide *)

Module TitleFacts.

Import Py SlideTitles Spec.

Section Sorted.

Variable A : Type.
Variable before : A -> A -> bool.

(** [x] may stay in front of [y]. *)
Definition in_order (x y : A) : Prop := before y x = false.

Hypothesis before_asym : forall x y, before y x = true -> before x y = false.
Hypothesis in_order_trans :
  forall x y z, in_order x y -> in_order y z -> in_order x z.

Lemma insert_stable_sorted (x : A) (l : list A) :
  StronglySorted in_order l -> StronglySorted in_order (insert_stable before x l).
Proof.
  induction 1 as [|y l Hl IH Hy]; simpl.
  - constructor; constructor.
  - destruct (before y x) eqn:E.
    + constructor; [exact IH|].
      apply Forall_forall. intros z Hz.
      apply (Permutation_in _ (insert_stable_perm before x l)) in Hz.
      destruct Hz as [Hz|Hz].
      * subst z. now apply before_asym.
      * rewrite Forall_forall in Hy. now apply Hy.
    + constructor; [now constructor|].
      constructor; [exact E|].
      eapply Forall_impl; [|exact Hy].
      intros z Hz. now apply in_order_trans with y.
Qed.

Lemma stable_sort_sorted (l : list A) : StronglySorted in_order (stable_sort before l).
Proof.
  induction l as [|x l IH]; simpl; [constructor|].
  now apply insert_stable_sorted.
Qed.


End Sorted.

Lemma Qltb_false (x y : Q) : Qltb x y = false <-> (y <= x)%Q.
Proof.
  unfold Qltb. rewrite negb_false_iff. apply Qle_bool_iff.
Qed.

Lemma Qltb_true (x y : Q) : Qltb x y = true <-> (x < y)%Q.
Proof.
  unfold Qltb. rewrite negb_true_iff. split.
  - intros H. apply Qnot_le_lt. intros Hle.
    apply Qle_bool_iff in Hle. congruence.
  - intros H. destruct (Qle_bool y x) eqn:E; [|reflexivity].
    apply Qle_bool_iff in E. exfalso. now apply (Qlt_not_le x y).
Qed.




(** The second test of the filter of [candidates_below] always holds. *)
Lemma is_below_spec (title ln : LineInfo) :
  is_below title ln = true <-> (y0 ln < y0 title)%Q.
Proof.
  unfold is_below. rewrite andb_true_iff, Qltb_true.
  split; [tauto|]. intros H. split; [exact H|].
  apply Qle_bool_iff. apply Qle_shift_div_l.
  - apply Qlt_le_trans with (1 # 1000000)%Q; [reflexivity|apply Q.le_max_r].
  - rewrite Qmult_0_l. apply Qabs_nonneg.
Qed.

Lemma candidates_below_in (title : LineInfo) (lines : list LineInfo) (ln : LineInfo) :
  In ln (candidates_below title lines) <-> In ln lines /\ (y0 ln < y0 title)%Q.
Proof.
  unfold candidates_below. rewrite stable_sort_in, filter_In.
  now rewrite is_below_spec.
Qed.

Lemma can_merge_spec (thr : Q) (title ln : LineInfo) :
  (0 < avg_size title)%Q ->
  exists b, can_merge thr title ln = Some b
            /\ (b = true <-> merge_conditions thr title ln).
Proof.
  intros Hpos. unfold can_merge, merge_conditions.
  destruct (Qeq_bool (Qmax (avg_size title) (avg_size ln)) 0) eqn:E.
  - apply Qeq_bool_iff in E. exfalso.
    pose proof (Q.le_max_l (avg_size title) (avg_size ln)) as H.
    rewrite E in H. now apply (Qlt_not_le 0 (avg_size title)).
  - eexists. split; [reflexivity|].
    rewrite !andb_true_iff, !Qle_bool_iff. tauto.
Qed.

Lemma merge_loop_spec (thr : Q) (title : LineInfo) (cs : list LineInfo) :
  (0 < avg_size title)%Q ->
  (merge_loop thr title cs = Some (text title)
   /\ forall ln, In ln cs -> ~ merge_conditions thr title ln)
  \/ exists pre ln post,
       cs = pre ++ ln :: post
       /\ merge_loop thr title cs = Some (strip (text title ++ space :: text ln))
       /\ merge_conditions thr title ln
       /\ forall l, In l pre -> ~ merge_conditions thr title l.
Proof.
  intros Hpos. induction cs as [|c cs IH]; simpl.
  - left. split; [reflexivity|]. intros ln [].
  - destruct (@can_merge_spec thr title c Hpos) as [b [E Hb]]. rewrite E.
    destruct b.
    + right. exists [], c, cs. repeat split; try tauto.
      * now apply Hb.
      * now apply Hb.
      * now apply Hb.
    + destruct IH as [[Hm Hno]|[pre [ln [post [Ecs [Hm [Hc Hpre]]]]]]].
      * left. split; [exact Hm|].
        intros ln [El|Hl]; [|now apply Hno].
        subst ln. intros Hc. apply Hb in Hc. discriminate.
      * right. exists (c :: pre), ln, post. subst cs.
        repeat split; try assumption; try apply Hc.
        intros l [El|Hl]; [|now apply Hpre].
        subst l. intros Hc'. apply Hb in Hc'. discriminate.
Qed.

(** The page title is the outcome of the merge loop on the chosen title. *)
Lemma page_title_merge (thr page_height top_ratio : Q) (lines : list LineInfo) :
  lines <> [] ->
  exists title lines',
    In title lines /\ Permutation lines' lines
    /\ page_title thr page_height top_ratio lines
       = merge_loop thr title (candidates_below title lines').
Proof.
  intros Hne. unfold page_title.
  destruct lines as [|l0 lines0] eqn:El; [congruence|]. rewrite <- El.
  set (in_top := filter (fun ln => Qle_bool (page_height * (1 - top_ratio)) (y1 ln)) lines).
  assert (Hlen : forall l : list LineInfo, l <> [] -> stable_sort larger_first l <> []).
  { intros l Hl E. apply Hl. apply length_zero_iff_nil.
    rewrite <- (stable_sort_length larger_first l), E. reflexivity. }
  destruct in_top as [|t0 in_top0] eqn:Et.
  - destruct (stable_sort larger_first lines) as [|title rest] eqn:Es.
    + exfalso. apply (@Hlen lines); [rewrite El; discriminate|exact Es].
    + exists title, (title :: rest). rewrite <- Es. repeat split.
      * apply (stable_sort_in larger_first lines). rewrite Es. now left.
      * apply stable_sort_perm.
  - destruct (stable_sort larger_first (t0 :: in_top0)) as [|title rest] eqn:Es.
    + exfalso. apply (@Hlen (t0 :: in_top0)); [discriminate|exact Es].
    + exists title, lines. repeat split; [|apply Permutation_refl].
      assert (Hin : In title (t0 :: in_top0)).
      { apply (stable_sort_in larger_first). rewrite Es. now left. }
      rewrite <- Et in Hin. unfold in_top in Hin.
      apply filter_In in Hin. tauto.
Qed.


(** A slide in two columns: the title, a line of the right column just
    below it, and the second line of the title. *)
Definition title_line : LineInfo :=
  {| page := 1; text := lit "Decision Trees";
     x0 := 50; y0 := 700; x1 := 250; y1 := 720; avg_size := 20 |}.

Definition side_line : LineInfo :=
  {| page := 1; text := lit "Figure 1";
     x0 := 300; y0 := 670; x1 := 400; y1 := 690; avg_size := 20 |}.

Definition next_line : LineInfo :=
  {| page := 1; text := lit "and Random Forests";
     x0 := 50; y0 := 660; x1 := 290; y1 := 680; avg_size := 20 |}.

Definition two_column_page : list LineInfo := [title_line; side_line; next_line].



End TitleFacts.

(** ** Question segmentation *)

Module SegmentFacts.

Import Py ExamQuestions Spec TitleFacts.

Lemma flush_items (st : state) : items (flush st) = items st ++ item_of (buf st).
Proof.
  unfold flush, item_of. simpl.
  destruct (buf st); [now rewrite app_nil_r|].
  destruct (flush_text (s :: l)); [now rewrite app_nil_r|reflexivity].
Qed.

Lemma flush_buf (st : state) : buf (flush st) = [].
Proof. reflexivity. Qed.

Lemma flush_last (st : state) :
  last_y (flush st) = last_y st /\ last_size (flush st) = last_size st.
Proof. split; reflexivity. Qed.

Lemma gap_exceeds_flush (st : state) (ln : Line) :
  gap_exceeds (flush st) ln = gap_exceeds st ln.
Proof. reflexivity. Qed.

Lemma step_header (st : state) (ln : Line) :
  is_header ln = true -> step st ln = st.
Proof. unfold is_header, step. now intros ->. Qed.










(** The example of the specification: size 10, gap 50. *)
Definition first_line : Line :=
  {| page := 1; text := lit "Explain the k-means algorithm";
     x0 := 72; y0 := 690; x1 := 300; y1 := 700; avg_size := 10 |}.







End SegmentFacts.

(** ** Laws of the token scores *)

Module ScoreLaws.

Import Py MatchTopics PyFacts MatcherFacts DifflibFacts SplitFacts ScoreFacts.

Lemma same_length (l1 l2 : list str) :
  NoDup l1 -> NoDup l2 -> (forall w, In w l1 <-> In w l2) ->
  length l1 = length l2.
Proof.
  intros H1 H2 H. apply Permutation_length. now apply NoDup_Permutation.
Qed.

Lemma inter_in (a b : list str) (w : str) :
  In w (filter (fun w => mem w b) (set_of a)) <-> In w a /\ In w b.
Proof.
  rewrite filter_In. unfold set_of. rewrite nodup_In, mem_In. tauto.
Qed.

Lemma inter_size_sym (a b : list str) : inter_size a b = inter_size b a.
Proof.
  unfold inter_size. apply same_length.
  - apply NoDup_filter, NoDup_nodup.
  - apply NoDup_filter, NoDup_nodup.
  - intros w. rewrite !inter_in. tauto.
Qed.

Lemma union_size_sym (a b : list str) : union_size a b = union_size b a.
Proof.
  unfold union_size, set_of. apply same_length; try apply NoDup_nodup.
  intros w. rewrite !nodup_In, !in_app_iff. tauto.
Qed.

Lemma Qnat_pos (n : nat) : 0 < n -> (0 < Qnat n)%Q.
Proof. intros H. unfold Qnat. rewrite <- (Zlt_Qlt 0). lia. Qed.

Lemma Qnat_le (n m : nat) : n <= m -> (Qnat n <= Qnat m)%Q.
Proof. intros H. unfold Qnat. rewrite <- Zle_Qle. lia. Qed.

Lemma Qnat_div_anti (n m u : nat) :
  0 < m -> m <= u -> (Qnat n / Qnat u <= Qnat n / Qnat m)%Q.
Proof.
  intros Hm Hu.
  assert (Pm : (0 < Qnat m)%Q) by now apply Qnat_pos.
  assert (Pu : (0 < Qnat u)%Q) by (apply Qnat_pos; lia).
  assert (Pn : (0 <= Qnat n)%Q).
  { unfold Qnat. rewrite <- (Zle_Qle 0). lia. }
  apply Qle_shift_div_l; [exact Pm|].
  assert (E : (Qnat n / Qnat u * Qnat m == Qnat n * Qnat m / Qnat u)%Q).
  { field. intros E. rewrite E in Pu. now apply (Qlt_irrefl 0). }
  rewrite E. apply Qle_shift_div_r; [exact Pu|].
  pose proof (Qnat_le Hu) as Hle. nra.
Qed.

(** X3: The two token scores do not depend on the order of their arguments,
    and the overlap score is never below the Jaccard score. *)
Theorem token_scores_symmetric_and_ordered (a b : list str) :
  jaccard a b = jaccard b a
  /\ token_overlap a b = token_overlap b a
  /\ (jaccard a b <= token_overlap a b)%Q.
Proof.
  unfold jaccard, token_overlap. repeat split.
  - rewrite (orb_comm (is_empty b)), (inter_size_sym b a),
      (union_size_sym b a). reflexivity.
  - rewrite (orb_comm (is_empty b)), (inter_size_sym b a), (Nat.min_comm _ (length (set_of a))).
    reflexivity.
  - destruct a as [|x a]; [apply Qle_refl|].
    destruct b as [|y b]; [apply Qle_refl|].
    cbn [is_empty orb]. apply Qnat_div_anti.
    + assert (Ha : 0 < length (set_of (x :: a))) by (apply set_of_pos; discriminate).
      assert (Hb : 0 < length (set_of (y :: b))) by (apply set_of_pos; discriminate).
      lia.
    + pose proof (set_le_union (x :: a) (y :: b)). lia.
Qed.

(** *** When a token score is 1 *)

Lemma Qnat_div_one (n m : nat) : 0 < m -> (Qnat n / Qnat m == 1)%Q <-> n = m.
Proof.
  intros Hm. pose proof (Qnat_pos Hm) as Pm. split.
  - intros H.
    assert (E : (Qnat n == Qnat n / Qnat m * Qnat m)%Q).
    { field. intros E. rewrite E in Pm. now apply (Qlt_irrefl 0). }
    rewrite H, Qmult_1_l in E. unfold Qnat, Qeq, inject_Z in E. simpl in E. lia.
  - intros ->. now apply Qnat_div_self.
Qed.

Lemma filter_length_all (A : Type) (f : A -> bool) (l : list A) :
  length (filter f l) = length l <-> forall x, In x l -> f x = true.
Proof.
  induction l as [|a l IH]; simpl; [tauto|].
  pose proof (filter_length_le f l) as Hle.
  destruct (f a) eqn:E; simpl.
  - split.
    + intros H x [Hx|Hx]; [now subst|]. apply IH; [lia|exact Hx].
    + intros H. f_equal. apply IH. intros x Hx. apply H. now right.
  - split; [lia|]. intros H. specialize (H a (or_introl eq_refl)). congruence.
Qed.

Lemma inter_full (a b : list str) :
  inter_size a b = length (set_of a) <-> incl a b.
Proof.
  unfold inter_size. rewrite filter_length_all. unfold incl, set_of. split.
  - intros H w Hw. apply mem_In, H. now apply nodup_In.
  - intros H w Hw. apply mem_In, H. now apply nodup_In in Hw.
Qed.

Lemma union_of_subset (a b : list str) :
  incl b a -> union_size a b = length (set_of a).
Proof.
  intros H. unfold union_size, set_of. apply same_length; try apply NoDup_nodup.
  intros w. rewrite !nodup_In, in_app_iff. split; [|tauto].
  intros [Hw|Hw]; [exact Hw|now apply H].
Qed.

(** X4: For two token lists that are not empty: the overlap score is 1 exactly
    when every token of one list occurs in the other, the Jaccard score
    exactly when the two lists have the same tokens. *)
Theorem full_token_scores (a b : list str) :
  a <> [] -> b <> [] ->
  ((token_overlap a b == 1)%Q <-> incl a b \/ incl b a)
  /\ ((jaccard a b == 1)%Q <-> incl a b /\ incl b a).
Proof.
  intros Ha Hb. unfold token_overlap, jaccard.
  apply is_empty_false in Ha as Ea. apply is_empty_false in Hb as Eb.
  rewrite Ea, Eb. cbn [orb].
  pose proof (set_of_pos Ha) as Pa. pose proof (set_of_pos Hb) as Pb.
  pose proof (inter_le_left a b) as La. pose proof (inter_le_right a b) as Lb.
  pose proof (set_le_union a b) as Ua.
  pose proof (set_le_union b a) as Ub. rewrite (union_size_sym b a) in Ub.
  pose proof (inter_full a b) as Fa. pose proof (inter_full b a) as Fb.
  rewrite (inter_size_sym b a) in Fb.
  split.
  - rewrite Qnat_div_one by lia. split.
    + intros H.
      destruct (Nat.min_spec (length (set_of a)) (length (set_of b)))
        as [[_ E]|[_ E]]; rewrite E in H; [left; now apply Fa|right; now apply Fb].
    + intros [H|H]; [apply Fa in H|apply Fb in H]; lia.
  - rewrite Qnat_div_one by lia. split.
    + intros H. split; [apply Fa|apply Fb]; lia.
    + intros [H1 H2]. rewrite (union_of_subset H2). now apply Fa.
Qed.

Lemma full_token_scores_witness :
  (jaccard [lit "k"; lit "means"] [lit "means"; lit "k"; lit "k"] == 1)%Q.
Proof.
  apply (@full_token_scores [lit "k"; lit "means"] [lit "means"; lit "k"; lit "k"]);
    try discriminate.
  split; intros w Hw; simpl in *; tauto.
Defined.

(** *** Strings without a token *)

Lemma matches_empty (a b : str) : a = [] \/ b = [] -> Difflib.matches a b = 0.
Proof.
  intros H. pose proof (matches_bound a b) as Hm.
  destruct H; subst; simpl in Hm; lia.
Qed.

Lemma tokenless_score (a b : str) :
  tokens a = [] \/ tokens b = [] ->
  (combined_score a b == (40 # 100) * Difflib.ratio a b)%Q.
Proof.
  intros H. unfold combined_score, jaccard, token_overlap, char_similarity.
  assert (E : is_empty (tokens a) || is_empty (tokens b) = true).
  { destruct H as [H|H]; rewrite H; [reflexivity|apply orb_true_r]. }
  rewrite E. cbv zeta. ring.
Qed.

Lemma ratio_one_empty (a : str) :
  a <> [] -> (Difflib.ratio [] a == 0)%Q /\ (Difflib.ratio a [] == 0)%Q.
Proof.
  intros Ha. unfold Difflib.ratio.
  rewrite (@matches_empty [] a), (@matches_empty a []) by tauto.
  destruct a as [|c a]; [congruence|]. cbn [length Nat.add].
  rewrite Nat.add_0_r. split; reflexivity.
Qed.

(** X5: A string without a token scores at most 0.4 against anything: exactly
    0.4 when both strings are empty, 0 when one is empty and the other is
    not. *)
Theorem score_without_tokens :
  (forall a b : str,
      tokens a = [] \/ tokens b = [] -> (combined_score a b <= 40 # 100)%Q)
  /\ (combined_score [] [] == 40 # 100)%Q
  /\ (forall a : str,
        a <> [] ->
        (combined_score [] a == 0)%Q /\ (combined_score a [] == 0)%Q).
Proof.
  split; [|split].
  - intros a b H. rewrite (tokenless_score a b H).
    pose proof (ratio_range a b). lra.
  - rewrite (@tokenless_score [] []) by (left; reflexivity). reflexivity.
  - intros a Ha. destruct (ratio_one_empty Ha) as [E1 E2]. split.
    + rewrite (@tokenless_score [] a) by (left; reflexivity).
      rewrite E1. reflexivity.
    + rewrite (@tokenless_score a []) by (right; reflexivity).
      rewrite E2. reflexivity.
Qed.

End ScoreLaws.

(** ** Further laws of the matcher *)

Module MatchLaws.

Import Py MatchTopics Spec PyFacts MatcherFacts ScoreFacts ScoreLaws TitleFacts.

Section Laws.

Variable aliases : alias_table.
Variable min_score : Q.
Variable max_matches : Z.

Let run := match_topics aliases min_score max_matches.
Let group := emitted aliases min_score max_matches.

Lemma tokens_nil : tokens [] = [].
Proof. reflexivity. Qed.



Lemma run_alone (sl : slide) (exam : list str) :
  results (run [sl] exam) = group (normalized aliases exam) sl.
Proof.
  destruct (match_topics_spec aliases min_score max_matches [sl] exam)
    as [H _]. unfold run. rewrite H. simpl. apply app_nil_r.
Qed.

End Laws.



(** X7: The confidence of a record is computed from a score that reached the
    threshold: from a threshold of 0.70 on no record is of low confidence,
    from a threshold of 0.85 on every record is of high confidence. *)
Theorem confidence_follows_threshold (aliases : alias_table) (min_score : Q)
    (max_matches : Z) (slides : list slide) (exam : list str) (r : MatchRecord) :
  In r (results (match_topics aliases min_score max_matches slides exam)) ->
  ((70 # 100 <= min_score)%Q -> r_confidence r <> low)
  /\ ((85 # 100 <= min_score)%Q -> r_confidence r = high).
Proof.
  intros Hr. apply results_origin in Hr.
  destruct Hr as [sl [s [_ [_ [Er [_ Hle]]]]]].
  assert (Ec : r_confidence r = confidence s) by (rewrite Er; reflexivity).
  rewrite Ec. unfold confidence. split; intros Hmin.
  - destruct (Qle_bool (85 # 100) s); [discriminate|].
    assert (H : Qle_bool (70 # 100) s = true).
    { apply Qle_bool_iff. now apply Qle_trans with min_score. }
    rewrite H. discriminate.
  - assert (H : Qle_bool (85 # 100) s = true).
    { apply Qle_bool_iff. now apply Qle_trans with min_score. }
    now rewrite H.
Qed.

Lemma confidence_follows_threshold_witness :
  r_confidence svm_record <> low.
Proof.
  refine (proj1 (@confidence_follows_threshold default_aliases (72 # 100) 2
                   svm_slides svm_exam svm_record _) _).
  - vm_compute. left. reflexivity.
  - vm_compute. discriminate.
Defined.

(** *** Order and grouping of the records *)

Lemma Qfloor_mono (x y : Q) : (x <= y)%Q -> (Qfloor x <= Qfloor y)%Z.
Proof. apply Qfloor_resp_le. Qed.

Lemma round_half_even_mono (x y : Q) :
  (x <= y)%Q -> (round_half_even x <= round_half_even y)%Z.
Proof.
  intros Hxy. pose proof (Qfloor_mono Hxy) as Hf.
  pose proof (Qfloor_le x) as Hx1. pose proof (Qlt_floor x) as Hx2.
  pose proof (Qfloor_le y) as Hy1. pose proof (Qlt_floor y) as Hy2.
  unfold round_half_even.
  destruct (Z.eq_dec (Qfloor x) (Qfloor y)) as [E|E].
  - rewrite <- E in *. 
    destruct (Qcompare_spec (x - inject_Z (Qfloor x)) (1 # 2)) as [Hx|Hx|Hx];
      destruct (Qcompare_spec (y - inject_Z (Qfloor x)) (1 # 2)) as [Hy|Hy|Hy];
      try (destruct (Z.even (Qfloor x))); try lia; exfalso; lra.
  - assert (Hlt : (Qfloor x + 1 <= Qfloor y)%Z) by lia.
    destruct (x - inject_Z (Qfloor x) ?= 1 # 2)%Q;
      destruct (y - inject_Z (Qfloor y) ?= 1 # 2)%Q;
      try (destruct (Z.even (Qfloor x))); try (destruct (Z.even (Qfloor y))); lia.
Qed.

Lemma round3_mono (x y : Q) : (x <= y)%Q -> (round3 x <= round3 y)%Q.
Proof.
  intros H. unfold round3.
  assert (Hm : (x * 1000 <= y * 1000)%Q) by lra.
  apply round_half_even_mono in Hm. rewrite Zle_Qle in Hm.
  apply Qmult_le_compat_r; [exact Hm|]. discriminate.
Qed.

Lemma higher_first_asym (x y : Q * str) :
  higher_first y x = true -> higher_first x y = false.
Proof.
  unfold higher_first. intros H. apply Qltb_true in H.
  apply Qltb_false. now apply Qlt_le_weak.
Qed.

Lemma higher_first_trans (x y z : Q * str) :
  in_order higher_first x y -> in_order higher_first y z ->
  in_order higher_first x z.
Proof.
  unfold in_order, higher_first. intros H1 H2.
  apply Qltb_false in H1. apply Qltb_false in H2. apply Qltb_false.
  now apply Qle_trans with (fst y).
Qed.

Lemma sorted_firstn (A : Type) (R : A -> A -> Prop) (n : nat) (l : list A) :
  StronglySorted R l -> StronglySorted R (firstn n l).
Proof.
  intros H. revert n. induction H as [|a l Hl IH Ha]; intros n.
  - destruct n; constructor.
  - destruct n; simpl; [constructor|].
    constructor; [apply IH|].
    apply Forall_forall. intros x Hx. apply firstn_in in Hx.
    rewrite Forall_forall in Ha. now apply Ha.
Qed.

Lemma sorted_map (A B : Type) (R : A -> A -> Prop) (S : B -> B -> Prop)
    (f : A -> B) (l : list A) :
  (forall x y, R x y -> S (f x) (f y)) ->
  StronglySorted R l -> StronglySorted S (map f l).
Proof.
  intros HRS H. induction H as [|a l Hl IH Ha]; simpl; constructor.
  - exact IH.
  - apply Forall_forall. intros y Hy. apply in_map_iff in Hy.
    destruct Hy as [x [<- Hx]]. apply HRS.
    rewrite Forall_forall in Ha. now apply Ha.
Qed.

Lemma group_sorted (aliases : alias_table) (min_score : Q) (max_matches : Z)
    (ne : list (str * str)) (sl : slide) :
  StronglySorted (fun r r' => (r_score r' <= r_score r)%Q)
    (emitted aliases min_score max_matches ne sl).
Proof.
  unfold emitted, top_for, take.
  apply sorted_map with (R := in_order higher_first).
  - intros x y H. unfold in_order, higher_first in H. apply Qltb_false in H.
    simpl. now apply round3_mono.
  - destruct (0 <=? max_matches)%Z; apply sorted_firstn;
      apply stable_sort_sorted.
    + exact higher_first_asym.
    + exact higher_first_trans.
    + exact higher_first_asym.
    + exact higher_first_trans.
Qed.

(** X8: The records of a run are the records of each input pair matched
    alone, in the order of the pairs; the records of one pair come with
    their stored scores in descending order; and the unmatched topics are
    the pairs without a record, in input order. *)
Theorem records_grouped_by_slide (aliases : alias_table) (min_score : Q)
    (max_matches : Z) (slides : list slide) (exam : list str) :
  let alone sl := results (match_topics aliases min_score max_matches [sl] exam) in
  results (match_topics aliases min_score max_matches slides exam)
  = flat_map alone slides
  /\ unmatched_slides (match_topics aliases min_score max_matches slides exam)
     = filter (fun sl => is_empty (alone sl)) slides
  /\ forall sl,
       StronglySorted (fun r r' => (r_score r' <= r_score r)%Q) (alone sl).
Proof.
  intros alone.
  destruct (match_topics_spec aliases min_score max_matches slides exam)
    as [H1 [H2 _]].
  assert (E : forall sl,
             alone sl = emitted aliases min_score max_matches
                          (normalized aliases exam) sl).
  { intros sl. apply run_alone. }
  rewrite H1, H2. repeat split.
  - apply flat_map_ext. intros sl. now rewrite E.
  - apply filter_ext. intros sl. now rewrite E.
  - intros sl. rewrite E. apply group_sorted.
Qed.

(** *** Topics without a match *)

Lemma score_all_nil (min_score : Q) (nt : str) (ne : list (str * str)) :
  score_all min_score nt ne = []
  <-> forall q nq, In (q, nq) ne -> (combined_score nt nq < min_score)%Q.
Proof.
  induction ne as [|[oq nq] ne IH]; simpl.
  - split; [intros _ q nq []|reflexivity].
  - destruct (Qle_bool min_score (combined_score nt nq)) eqn:E.
    + split; [discriminate|]. intros H. exfalso.
      apply Qle_bool_iff in E.
      apply (Qlt_not_le _ _ (H oq nq (or_introl eq_refl)) E).
    + rewrite IH. split.
      * intros H q nq' [Hq|Hq]; [|exact (H q nq' Hq)].
        inversion Hq; subst. apply Qnot_le_lt. intros Hle.
        apply Qle_bool_iff in Hle. congruence.
      * intros H q nq' Hq. apply (H q nq'). now right.
Qed.





(** X10: With a cap of zero, or with a threshold above 1, nothing is matched:
    no record, every topic and every question unmatched. *)
Theorem nothing_matched_at_the_limits (aliases : alias_table) (min_score : Q)
    (max_matches : Z) (slides : list slide) (exam : list str) :
  max_matches = 0%Z \/ (1 < min_score)%Q ->
  let st := match_topics aliases min_score max_matches slides exam in
  results st = [] /\ unmatched_slides st = slides /\ unmatched_exam st = exam.
Proof.
  intros Hlim st.
  destruct (match_topics_spec aliases min_score max_matches slides exam)
    as [H1 [H2 H3]].
  fold st in H1, H2, H3.
  assert (E : forall sl,
             emitted aliases min_score max_matches (normalized aliases exam) sl = []).
  { intros sl. destruct Hlim as [->|Hmin]; [reflexivity|].
    unfold emitted.
    assert (Es : score_all min_score (normalize (snd sl) aliases)
                   (normalized aliases exam) = []).
    { apply score_all_nil. intros q nq _.
      pose proof (combined_score_range (normalize (snd sl) aliases) nq) as [_ Hr].
      now apply Qle_lt_trans with 1%Q. }
    unfold top_for. rewrite Es. unfold take. cbn [stable_sort].
    destruct (0 <=? max_matches)%Z; now rewrite firstn_nil. }
  assert (R : results st = []).
  { rewrite H1. clear -E. induction slides as [|sl l IH]; [reflexivity|].
    cbn [flat_map]. now rewrite E, IH. }
  split; [exact R|]. split.
  - rewrite H2. clear -E. induction slides as [|sl l IH]; [reflexivity|].
    cbn [filter]. rewrite E. cbn [is_empty]. now f_equal.
  - rewrite H3, R. reflexivity.
Qed.

Lemma nothing_matched_at_the_limits_witness :
  results (match_topics default_aliases (72 # 100) 0 svm_slides svm_exam) = [].
Proof.
  apply (@nothing_matched_at_the_limits default_aliases (72 # 100) 0
           svm_slides svm_exam).
  left. reflexivity.
Defined.

End MatchLaws.

(** ** Further laws of [normalize] *)

Module NormalizeLaws.

Import Py MatchTopics Spec PyFacts SplitFacts ScoreFacts NormalizeFacts.

Lemma lower_char_twice (c : ascii) :
  lower_char (lower_char c) = lower_char c
  /\ isspace (lower_char c) = isspace c.
Proof.
  destruct c as [b0 b1 b2 b3 b4 b5 b6 b7].
  destruct b0, b1, b2, b3, b4, b5, b6, b7; vm_compute; split; reflexivity.
Qed.

Lemma lower_twice (s : str) : lower (lower s) = lower s.
Proof.
  unfold lower. rewrite map_map. apply map_ext.
  intros c. apply lower_char_twice.
Qed.

Lemma lstrip_lower (s : str) : lstrip (lower s) = lower (lstrip s).
Proof.
  induction s as [|c s IH]; [reflexivity|].
  unfold lower in *. cbn [map lstrip].
  destruct (lower_char_twice c) as [_ ->].
  destruct (isspace c); [exact IH|reflexivity].
Qed.

Lemma strip_lower (s : str) : strip (lower s) = lower (strip s).
Proof.
  unfold strip, rstrip. rewrite lstrip_lower.
  unfold lower at 1. rewrite <- map_rev. fold (lower (rev (lstrip s))).
  rewrite lstrip_lower. unfold lower. now rewrite map_rev.
Qed.

(** X2: [normalize] does not see the case of its argument, nor the whitespace
    around it. *)
Theorem normalize_ignores_case_and_margins (text : str) (aliases : alias_table) :
  normalize (lower text) aliases = normalize text aliases
  /\ normalize (strip text) aliases = normalize text aliases.
Proof.
  unfold normalize. split.
  - now rewrite lower_twice.
  - now rewrite <- strip_lower, strip_idem.
Qed.


End NormalizeLaws.

(** ** Reading back the title file *)

Module RowFacts.

Import Py MatchTopics PyFacts ParserFacts TitleFile.

(** *** More on [strip] *)

Lemma lstrip_snoc (u : str) (c : ascii) :
  lstrip (u ++ [c])
  = match lstrip u with
    | [] => if isspace c then [] else [c]
    | x => x ++ [c]
    end.
Proof.
  induction u as [|d u IH]; simpl; [now destruct (isspace c)|].
  destruct (isspace d); [exact IH|reflexivity].
Qed.

Lemma rstrip_cons (c : ascii) (t : str) :
  rstrip (c :: t)
  = match rstrip t with
    | [] => if isspace c then [] else [c]
    | x => c :: x
    end.
Proof.
  unfold rstrip. cbn [rev]. rewrite lstrip_snoc.
  destruct (lstrip (rev t)) as [|d r] eqn:E.
  - simpl. now destruct (isspace c).
  - rewrite rev_app_distr. simpl.
    destruct (rev r ++ [d]) eqn:E'; [|reflexivity].
    destruct (rev r); discriminate.
Qed.

Lemma rstrip_app_keep (a b : str) (c : ascii) :
  isspace c = false -> rstrip (a ++ c :: b) = a ++ c :: rstrip b.
Proof.
  intros Hc. induction a as [|d a IH].
  - cbn [app]. rewrite rstrip_cons, Hc. now destruct (rstrip b).
  - cbn [app]. rewrite rstrip_cons, IH. now destruct a.
Qed.

Lemma lstrip_rstrip (t : str) : lstrip (rstrip t) = rstrip (lstrip t).
Proof.
  induction t as [|c t IH]; [reflexivity|].
  rewrite rstrip_cons. cbn [lstrip].
  destruct (rstrip t) as [|d x] eqn:E.
  - destruct (isspace c) eqn:Hc.
    + rewrite <- IH. reflexivity.
    + cbn [lstrip]. rewrite Hc, rstrip_cons, E, Hc. reflexivity.
  - cbn [lstrip]. destruct (isspace c) eqn:Hc.
    + rewrite <- IH. reflexivity.
    + rewrite rstrip_cons, E. reflexivity.
Qed.

Lemma rstrip_idem (t : str) : rstrip (rstrip t) = rstrip t.
Proof.
  unfold rstrip. now rewrite rev_involutive, lstrip_idem.
Qed.

Lemma strip_rstrip (t : str) : strip (rstrip t) = strip t.
Proof.
  unfold strip. now rewrite lstrip_rstrip, rstrip_idem.
Qed.

Lemma strip_nonspace (s : str) :
  Forall (fun c => isspace c = false) s -> strip s = s.
Proof.
  intros H. rewrite Forall_forall in H. apply strip_fix. split.
  - intros c r E. apply H. rewrite E. now left.
  - intros c r E. apply H. rewrite E. apply in_or_app. right. now left.
Qed.

(** *** Decimal digits *)

Lemma digit_char_spec (d : Z) :
  (0 <= d <= 9)%Z ->
  isdigit (digit_char d) = true /\ digit_value (digit_char d) = d.
Proof.
  intros H.
  assert (E : (d = 0 \/ d = 1 \/ d = 2 \/ d = 3 \/ d = 4 \/ d = 5 \/ d = 6
               \/ d = 7 \/ d = 8 \/ d = 9)%Z) by lia.
  repeat (destruct E as [E|E]; [subst; split; reflexivity|]).
  subst. split; reflexivity.
Qed.

(** What a digit is not. *)
Lemma digit_is_plain (c : ascii) :
  isdigit c = true ->
  isspace c = false /\ int_isspace c = false /\ c <> "|"%char
  /\ c <> "-"%char /\ c <> "+"%char.
Proof.
  destruct c as [b0 b1 b2 b3 b4 b5 b6 b7].
  destruct b0, b1, b2, b3, b4, b5, b6, b7; vm_compute; intros H;
    try discriminate H; repeat split; discriminate.
Qed.

Definition all_digits (s : str) : Prop := Forall (fun c => isdigit c = true) s.

Lemma int_digits_app (D rest : str) (a : Z) (b : bool) (v : Z) :
  (forall a b rest, int_digits a b (D ++ rest) = int_digits (a * 10 ^ Z.of_nat (length D) + v) true rest) ->
  forall c, isdigit c = true ->
  forall a b rest,
    int_digits a b ((D ++ [c]) ++ rest)
    = int_digits (a * 10 ^ Z.of_nat (length (D ++ [c])) + (10 * v + digit_value c)) true rest.
Proof.
  intros H c Hc a' b' rest'. rewrite <- app_assoc. rewrite H.
  cbn [app int_digits]. rewrite Hc. f_equal.
  rewrite length_app, Nat2Z.inj_add, Z.pow_add_r by lia.
  change (Z.of_nat (length [c])) with 1%Z. change (10 ^ 1)%Z with 10%Z. ring.
Qed.

(** The digits written for [n] are read back as [n]. *)
Lemma digits_onto_spec (fuel : nat) :
  forall (n : Z) (acc : str),
    (0 <= n < 10 ^ Z.of_nat (S fuel))%Z ->
    exists D,
      digits_onto (S fuel) n acc = D ++ acc
      /\ D <> [] /\ all_digits D
      /\ forall a b rest,
           int_digits a b (D ++ rest)
           = int_digits (a * 10 ^ Z.of_nat (length D) + n) true rest.
Proof.
  induction fuel as [|fuel IH]; intros n acc Hn.
  - assert (Hlt : (n < 10)%Z) by (change (10 ^ Z.of_nat 1)%Z with 10%Z in Hn; lia).
    cbn [digits_onto]. apply Z.ltb_lt in Hlt as E. rewrite E.
    apply Z.ltb_lt in E.
    assert (Hd : (0 <= n mod 10 <= 9)%Z) by (pose proof (Z.mod_pos_bound n 10); lia).
    destruct (digit_char_spec Hd) as [H1 H2].
    exists [digit_char (n mod 10)]. repeat split.
    + discriminate.
    + constructor; [exact H1|constructor].
    + intros a b rest. cbn [app int_digits length]. rewrite H1, H2.
      rewrite Z.mod_small by lia. f_equal.
      change (10 ^ Z.of_nat 1)%Z with 10%Z. lia.
  - cbn [digits_onto].
    assert (Hd : (0 <= n mod 10 <= 9)%Z) by (pose proof (Z.mod_pos_bound n 10); lia).
    destruct (digit_char_spec Hd) as [H1 H2].
    destruct (Z.ltb_spec n 10) as [Hlt|Hge].
    + exists [digit_char (n mod 10)]. repeat split.
      * discriminate.
      * constructor; [exact H1|constructor].
      * intros a b rest. cbn [app int_digits length]. rewrite H1, H2.
        rewrite Z.mod_small by lia. f_equal.
        change (10 ^ Z.of_nat 1)%Z with 10%Z. lia.
    + assert (Hq : (0 <= n / 10 < 10 ^ Z.of_nat (S fuel))%Z).
      { split; [apply Z.div_pos; lia|].
        apply Z.div_lt_upper_bound; [lia|].
        replace (Z.of_nat (S (S fuel))) with (1 + Z.of_nat (S fuel))%Z in Hn by lia.
        rewrite Z.pow_add_r in Hn by lia. change (10 ^ 1)%Z with 10%Z in Hn. lia. }
      destruct (IH (n / 10)%Z (digit_char (n mod 10) :: acc) Hq)
        as [D [E [Hne [Hall Hread]]]].
      exists (D ++ [digit_char (n mod 10)]). repeat split.
      * fold digits_onto. rewrite <- app_assoc. exact E.
      * destruct D; discriminate.
      * apply Forall_app. split; [exact Hall|]. constructor; [exact H1|constructor].
      * intros a b rest.
        rewrite (@int_digits_app D rest a b (n / 10)%Z Hread _ H1).
        f_equal. rewrite H2. pose proof (Z.div_mod n 10). lia.
Qed.

Lemma str_of_nonneg_spec (n : Z) :
  (0 <= n)%Z ->
  str_of_nonneg n <> [] /\ all_digits (str_of_nonneg n)
  /\ int_digits 0 false (str_of_nonneg n) = Some n.
Proof.
  intros Hn. unfold str_of_nonneg.
  assert (Hb : (0 <= n < 10 ^ Z.of_nat (S (Z.to_nat (Z.log2 n))))%Z).
  { split; [exact Hn|].
    destruct (Z.eq_dec n 0) as [->|Hz]; [reflexivity|].
    pose proof (Z.log2_nonneg n) as Hl.
    pose proof (Z.log2_spec n ltac:(lia)) as [_ Hs].
    rewrite Nat2Z.inj_succ, Z2Nat.id by exact Hl.
    apply Z.lt_le_trans with (2 ^ Z.succ (Z.log2 n))%Z; [exact Hs|].
    apply Z.pow_le_mono_l. lia. }
  destruct (@digits_onto_spec _ n [] Hb) as [D [E [Hne [Hall Hread]]]].
  rewrite E, app_nil_r. repeat split; try assumption.
  rewrite <- (app_nil_r D) at 1. rewrite Hread. simpl. reflexivity.
Qed.

Lemma int_lstrip_fix (s : str) :
  (forall c r, s = c :: r -> int_isspace c = false) -> int_lstrip s = s.
Proof.
  destruct s as [|c s]; [reflexivity|]. intros H. simpl.
  now rewrite (H c s eq_refl).
Qed.

Lemma int_strip_digits (D : str) :
  all_digits D -> rev (int_lstrip (rev (int_lstrip D))) = D.
Proof.
  intros H.
  assert (F : forall s, all_digits s -> int_lstrip s = s).
  { intros s Hs. apply int_lstrip_fix. intros c r E. subst s.
    inversion Hs; subst. now apply digit_is_plain. }
  rewrite (F D H), F; [apply rev_involutive|]. now apply Forall_rev.
Qed.

Lemma py_int_str_of_int (n : Z) : py_int (str_of_int n) = Some n.
Proof.
  unfold str_of_int. destruct (Z.ltb_spec n 0) as [Hneg|Hpos].
  - destruct (@str_of_nonneg_spec (- n)%Z ltac:(lia)) as [Hne [Hall Hread]].
    set (D := str_of_nonneg (- n)) in *. unfold py_int.
    assert (E : rev (int_lstrip (rev (int_lstrip ("-"%char :: D))))
                = "-"%char :: D).
    { change (int_lstrip ("-"%char :: D)) with ("-"%char :: D).
      cbn [rev].
      assert (Hr : all_digits (rev D)) by now apply Forall_rev.
      destruct (rev D) as [|d r] eqn:Er.
      - exfalso. apply Hne. rewrite <- (rev_involutive D), Er. reflexivity.
      - inversion Hr; subst.
        cbn [app int_lstrip]. destruct (@digit_is_plain d) as [_ [-> _]]; [assumption|].
        change (d :: r ++ ["-"%char]) with ((d :: r) ++ ["-"%char]).
        rewrite <- Er, rev_app_distr, rev_involutive. reflexivity. }
    rewrite E. destruct (ascii_dec "-" "-") as [_|C]; [|congruence].
    rewrite Hread. simpl. f_equal. lia.
  - destruct (@str_of_nonneg_spec n Hpos) as [Hne [Hall Hread]].
    set (D := str_of_nonneg n) in *. unfold py_int.
    rewrite (int_strip_digits Hall).
    destruct D as [|c r]; [congruence|].
    inversion Hall; subst.
    destruct (@digit_is_plain c) as [_ [_ [_ [Hm Hp]]]]; [assumption|].
    destruct (ascii_dec c "-") as [C|_]; [congruence|].
    destruct (ascii_dec c "+") as [C|_]; [congruence|].
    exact Hread.
Qed.

(** The shape of [str(n)]: an optional minus sign, then digits. *)
Lemma str_of_int_chars (n : Z) :
  str_of_int n <> []
  /\ Forall (fun c => isspace c = false /\ c <> "|"%char) (str_of_int n).
Proof.
  assert (F : forall D, all_digits D ->
                Forall (fun c => isspace c = false /\ c <> "|"%char) D).
  { intros D H. eapply Forall_impl; [|exact H].
    intros c Hc. pose proof (@digit_is_plain c Hc). tauto. }
  unfold str_of_int. destruct (Z.ltb_spec n 0) as [Hneg|Hpos].
  - split; [discriminate|]. constructor.
    + split; [reflexivity|discriminate].
    + apply F. now apply str_of_nonneg_spec; lia.
  - destruct (@str_of_nonneg_spec n Hpos) as [Hne [Hall _]].
    split; [exact Hne|now apply F].
Qed.

Lemma title_row_parsed (page : Z) (text : str) :
  parse_slide_line (title_row (page, text))
  = if is_empty (strip text) then None else Some (Some page, strip text).
Proof.
  unfold title_row, parse_slide_line. cbn [fst snd].
  destruct (str_of_int_chars page) as [Hne Hch].
  set (P := str_of_int page) in *.
  assert (Hsp : Forall (fun c => isspace c = false) P).
  { eapply Forall_impl; [|exact Hch]. intros c [Hc _]. exact Hc. }
  assert (Hbar : ~ In "|"%char P).
  { intros Hin. rewrite Forall_forall in Hch. now destruct (Hch _ Hin). }
  assert (Es : strip (P ++ "|"%char :: text) = P ++ "|"%char :: rstrip text).
  { unfold strip. rewrite lstrip_fix.
    - now apply rstrip_app_keep.
    - intros c r E. destruct P as [|p P']; [congruence|].
      inversion E; subst. now inversion Hsp. }
  rewrite Es.
  assert (En : is_empty (P ++ "|"%char :: rstrip text) = false).
  { destruct P; [congruence|reflexivity]. }
  rewrite En, (@split_bar_app P (rstrip text) Hbar), (strip_nonspace Hsp).
  unfold P. rewrite py_int_str_of_int, strip_rstrip. reflexivity.
Qed.


(** X21: A row written for a title is read back by [parse_slides] with its
    page number and its title stripped; rows whose title is empty or
    blank are dropped. *)
Theorem title_rows_round_trip (titles : list (Z * str)) :
  parse_slides (map title_row titles)
  = map (fun t => (Some (fst t), strip (snd t)))
      (filter (fun t => negb (is_empty (strip (snd t)))) titles).
Proof.
  induction titles as [|[page text] titles IH]; [reflexivity|].
  cbn [map parse_slides filter fst snd]. rewrite title_row_parsed, IH.
  destruct (is_empty (strip text)); reflexivity.
Qed.

End RowFacts.

(** ** Further laws of the two readers *)

Module ParserLaws.

Import Py MatchTopics PyFacts ParserFacts.

(** X11: A line that is not blank and has no page number in front of a bar,
    either because it has no bar or because the text before its first bar
    is no integer, is kept whole as a topic without a page. *)
Theorem line_without_page_is_kept_whole (raw : str) :
  strip raw <> [] ->
  (forall l r, split_bar (strip raw) = Some (l, r) -> py_int (strip l) = None) ->
  parse_slide_line raw = Some (None, strip raw).
Proof.
  intros Hne Hbar. unfold parse_slide_line.
  apply is_empty_false in Hne as E. rewrite E.
  destruct (split_bar (strip raw)) as [[l r]|] eqn:Es; [|reflexivity].
  rewrite (Hbar l r eq_refl), strip_idem, E. reflexivity.
Qed.

Lemma line_without_page_is_kept_whole_witness :
  parse_slide_line (lit "  Trees | part 2 ") = Some (None, lit "Trees | part 2").
Proof.
  apply (@line_without_page_is_kept_whole (lit "  Trees | part 2 ")).
  - vm_compute. discriminate.
  - intros l r H. vm_compute in H. inversion H; subst. vm_compute. reflexivity.
Defined.

(** X12: The questions that [parse_exam] returns are stripped and have at
    least four characters; reading them again changes nothing. *)
Theorem parse_exam_idempotent (lines : list str) :
  parse_exam (parse_exam lines) = parse_exam lines
  /\ Forall (fun s => strip s = s /\ 4 <= length s) (parse_exam lines).
Proof.
  assert (F : Forall (fun s => strip s = s /\ 4 <= length s) (parse_exam lines)).
  { rewrite parse_exam_filter. apply Forall_forall. intros s Hs.
    apply filter_In in Hs. destruct Hs as [Hs Hl].
    apply in_map_iff in Hs. destruct Hs as [x [<- _]].
    split; [apply strip_idem|]. now apply Nat.leb_le in Hl. }
  split; [|exact F].
  induction F as [|s l [Hs Hl] _ IH]; [reflexivity|].
  cbn [parse_exam]. rewrite Hs, IH.
  destruct s as [|c s]; [simpl in Hl; lia|]. cbn [is_empty].
  destruct (Nat.ltb_spec (length (c :: s)) 4); [lia|reflexivity].
Qed.

End ParserLaws.

(** ** Further laws of the question segmentation *)

Module SegmentLaws.

Import Py ExamQuestions Spec PyFacts SplitFacts NormalizeFacts SegmentFacts RowFacts.

(** *** Splitting and whitespace *)

Definition head_ok (s : str) : Prop := forall c r, s = c :: r -> isspace c = false.
Definition tail_ok (s : str) : Prop := forall r c, s = r ++ [c] -> isspace c = false.

Lemma tail_ok_cons (c : ascii) (s : str) : tail_ok (c :: s) -> tail_ok s.
Proof. intros H r x E. apply (H (c :: r) x). now rewrite E. Qed.

Lemma split_from_last (cur r : str) (x : ascii) :
  isspace x = false -> split_from cur (r ++ [x]) <> [].
Proof.
  intros Hx. revert cur. induction r as [|c r IH]; intros cur; simpl.
  - rewrite Hx. discriminate.
  - destruct (isspace c); [|apply IH].
    destruct cur; [apply IH|discriminate].
Qed.

Lemma join_cons (x : str) (l : list str) :
  l <> [] -> join [space] (x :: l) = x ++ space :: join [space] l.
Proof. destruct l; [congruence|reflexivity]. Qed.

(** Collapsing the whitespace of a string that does not end in
    whitespace gives its words joined by single spaces. *)
Lemma ws_sub_split (s : str) :
  tail_ok s ->
  (forall cur, cur <> [] ->
     rev cur ++ Re.ws_sub_from false s = join [space] (split_from cur s))
  /\ Re.ws_sub_from true s = join [space] (split_from [] s)
  /\ (head_ok s -> Re.ws_sub_from false s = join [space] (split_from [] s)).
Proof.
  induction s as [|c s IH]; intros Ht.
  - split; [|split; reflexivity].
    intros cur Hc. simpl. destruct cur; [congruence|].
    now rewrite app_nil_r.
  - destruct (IH (tail_ok_cons Ht)) as [IH1 [IH2 IH3]].
    assert (Hword : isspace c = false ->
              Re.ws_sub_from false (c :: s) = join [space] (split_from [] (c :: s))
              /\ Re.ws_sub_from true (c :: s) = join [space] (split_from [] (c :: s))).
    { intros Hc. simpl. rewrite Hc.
      specialize (IH1 [c] ltac:(discriminate)). simpl in IH1. now rewrite IH1. }
    split; [|split].
    + intros cur Hcur. simpl. destruct (isspace c) eqn:Hc.
      * destruct cur as [|d cur]; [congruence|].
        assert (Hs : split_from [] s <> []).
        { destruct (@exists_last _ s) as [r [x E]].
          - intros E. subst s. specialize (Ht [] c eq_refl). congruence.
          - subst s. apply split_from_last.
            apply (Ht (c :: r) x). reflexivity. }
        rewrite (join_cons _ Hs), IH2. reflexivity.
      * specialize (IH1 (c :: cur) ltac:(discriminate)).
        simpl in IH1. rewrite <- app_assoc in IH1. exact IH1.
    + destruct (isspace c) eqn:Hc; [|now apply Hword].
      simpl. rewrite Hc. exact IH2.
    + intros Hh. apply Hword. now apply (Hh c s).
Qed.

Lemma ws_sub_trimmed (s : str) :
  trimmed s -> Re.ws_sub s = join [space] (split s).
Proof.
  intros [H1 H2]. unfold Re.ws_sub, split.
  destruct (@ws_sub_split s) as [_ [_ H]].
  - intros r c E. now apply (H2 c r).
  - apply H. intros c r E. now apply (H1 c r).
Qed.

Lemma split_from_spaces (cur post : str) :
  all_space post -> split_from cur post = split_from cur [].
Proof.
  intros H. revert cur. induction H as [|c post Hc _ IH]; intros cur; [reflexivity|].
  simpl. rewrite Hc. destruct cur; rewrite IH; reflexivity.
Qed.

Lemma split_from_padded (cur a post : str) :
  all_space post -> split_from cur (a ++ post) = split_from cur a.
Proof.
  intros H. revert cur. induction a as [|c a IH]; intros cur.
  - now apply split_from_spaces.
  - simpl. destruct (isspace c); [|apply IH].
    destruct cur; now rewrite IH.
Qed.

Lemma split_lstrip (s : str) : split (lstrip s) = split s.
Proof.
  unfold split. induction s as [|c s IH]; [reflexivity|].
  simpl. destruct (isspace c) eqn:Hc; [exact IH|].
  simpl. now rewrite Hc.
Qed.

Lemma rstrip_split (s : str) : exists post, s = rstrip s ++ post /\ all_space post.
Proof.
  destruct (lstrip_split (rev s)) as [pre [E H]].
  exists (rev pre). split.
  - unfold rstrip. rewrite <- rev_app_distr, <- E. symmetry. apply rev_involutive.
  - now apply Forall_rev.
Qed.

Lemma split_rstrip (s : str) : split (rstrip s) = split s.
Proof.
  destruct (rstrip_split s) as [post [E H]].
  rewrite E at 2. unfold split. symmetry. now apply split_from_padded.
Qed.

Lemma split_strip (s : str) : split (strip s) = split s.
Proof. unfold strip. now rewrite split_rstrip, split_lstrip. Qed.

Lemma split_from_space (cur a b : str) :
  split_from cur (a ++ space :: b) = split_from cur a ++ split_from [] b.
Proof.
  revert cur. induction a as [|c a IH]; intros cur.
  - simpl. change (isspace space) with true. cbv iota. now destruct cur.
  - simpl. destruct (isspace c); [|apply IH].
    destruct cur; rewrite IH; reflexivity.
Qed.

Lemma split_join_all (l : list str) :
  split (join [space] l) = flat_map split l.
Proof.
  induction l as [|x l IH]; [reflexivity|].
  destruct l as [|y l].
  - simpl. now rewrite app_nil_r.
  - change (join [space] (x :: y :: l)) with (x ++ space :: join [space] (y :: l)).
    unfold split at 1. rewrite split_from_space. fold (split x).
    fold (split (join [space] (y :: l))). now rewrite IH.
Qed.

Lemma flat_map_split_strip (l : list str) :
  flat_map split (map strip l) = flat_map split l.
Proof.
  induction l as [|x l IH]; [reflexivity|].
  simpl. now rewrite split_strip, IH.
Qed.

(** *** The text of an item *)

Lemma flush_text_spec (fragments : list str) :
  flush_text fragments = join [space] (flat_map split fragments).
Proof.
  unfold flush_text.
  rewrite ws_sub_trimmed by apply strip_trimmed.
  now rewrite split_strip, split_join_all, flat_map_split_strip.
Qed.

Lemma flat_map_words (l : list str) : Forall word (flat_map split l).
Proof.
  induction l as [|x l IH]; [constructor|].
  simpl. apply Forall_app. split; [apply split_words|exact IH].
Qed.

Lemma split_flush_text (fragments : list str) :
  split (flush_text fragments) = flat_map split fragments.
Proof.
  rewrite flush_text_spec. apply split_join, flat_map_words.
Qed.

Lemma item_of_words (fragments : list str) :
  flat_map split (item_of fragments) = flat_map split fragments.
Proof.
  unfold item_of. destruct fragments as [|x l]; [reflexivity|].
  pose proof (split_flush_text (x :: l)) as H.
  destruct (flush_text (x :: l)) as [|c s]; [exact H|].
  cbn [flat_map]. now rewrite app_nil_r.
Qed.

Lemma item_of_shape (fragments : list str) :
  Forall (fun s => s <> [] /\ s = join [space] (split s)) (item_of fragments).
Proof.
  unfold item_of. destruct fragments as [|x l]; [constructor|].
  pose proof (split_flush_text (x :: l)) as H.
  pose proof (flush_text_spec (x :: l)) as E.
  destruct (flush_text (x :: l)) as [|c s]; [constructor|].
  constructor; [|constructor]. split; [discriminate|].
  now rewrite H.
Qed.

(** *** Invariants of the loop *)

Definition words_of (st : state) : list str :=
  flat_map split (items st) ++ flat_map split (buf st).

Definition shaped (s : str) : Prop := s <> [] /\ s = join [space] (split s).

Ltac flush_norm :=
  repeat first
    [ rewrite flush_items | rewrite flush_buf | rewrite flat_map_app
    | rewrite item_of_words | progress (cbn [items buf app flat_map]) ].

Lemma flush_words (st : state) : words_of (flush st) = words_of st.
Proof. unfold words_of. flush_norm. now rewrite app_nil_r. Qed.

Lemma step_words (st : state) (ln : Line) :
  is_header ln = false -> words_of (step st ln) = words_of st ++ split (body ln).
Proof.
  intros Hh. unfold is_header in Hh. unfold step, body, words_of. rewrite Hh.
  destruct (gap_exceeds st ln), (bullet_rest (text ln)) as [r|];
    cbv zeta beta iota;
    match goal with
    | |- context [endswith_char ?c ?s] => destruct (endswith_char c s)
    end; flush_norm; rewrite ?app_nil_r, <- ?app_assoc; reflexivity.
Qed.

Lemma step_shaped (st : state) (ln : Line) :
  Forall shaped (items st) -> Forall shaped (items (step st ln)).
Proof.
  intros H. unfold step.
  destruct (header_match (lower (text ln))); [exact H|].
  destruct (gap_exceeds st ln), (bullet_rest (text ln)) as [r|];
    cbv zeta beta iota;
    match goal with
    | |- context [endswith_char ?c ?s] => destruct (endswith_char c s)
    end; flush_norm;
    repeat (apply Forall_app; split); try exact H; try apply item_of_shape.
Qed.

Lemma run_words (lines : list Line) (st : state) :
  words_of (fold_left step lines st)
  = words_of st ++ flat_map split (map body (kept_lines lines)).
Proof.
  revert st. induction lines as [|ln lines IH]; intros st.
  - simpl. now rewrite app_nil_r.
  - cbn [fold_left]. rewrite IH. unfold kept_lines. cbn [filter].
    destruct (is_header ln) eqn:Hh; cbn [negb].
    + now rewrite step_header.
    + rewrite step_words by assumption. cbn [map flat_map].
      now rewrite <- app_assoc.
Qed.

Lemma run_shaped (lines : list Line) (st : state) :
  Forall shaped (items st) -> Forall shaped (items (fold_left step lines st)).
Proof.
  revert st. induction lines as [|ln lines IH]; intros st H; [exact H|].
  cbn [fold_left]. apply IH. now apply step_shaped.
Qed.

Lemma run_skips_headers (lines : list Line) (st : state) :
  fold_left step lines st = fold_left step (kept_lines lines) st.
Proof.
  revert st. induction lines as [|ln lines IH]; intros st; [reflexivity|].
  unfold kept_lines. cbn [fold_left filter].
  destruct (is_header ln) eqn:Hh; cbn [negb].
  - rewrite step_header by assumption. apply IH.
  - cbn [fold_left]. apply IH.
Qed.

Lemma unique_from_spec (l seen : list str) :
  NoDup (unique_from seen l)
  /\ forall x, In x (unique_from seen l) <-> In x l /\ ~ In x seen.
Proof.
  revert seen. induction l as [|s l IH]; intros seen.
  - split; [constructor|]. simpl. tauto.
  - simpl. destruct (existsb (str_eqb s) seen) eqn:E.
    + destruct (IH seen) as [H1 H2]. split; [exact H1|].
      intros x. rewrite H2. split; [tauto|].
      intros [[Hx|Hx] Hn]; [|tauto]. subst x. exfalso. apply Hn.
      apply existsb_exists in E. destruct E as [y [Hy Ey]].
      apply str_eqb_eq in Ey. now subst.
    + destruct (IH (s :: seen)) as [H1 H2].
      assert (Hs : ~ In s seen).
      { intros Hin. assert (T : existsb (str_eqb s) seen = true).
        { apply existsb_exists. exists s. split; [exact Hin|apply str_eqb_refl]. }
        congruence. }
      split.
      * constructor; [|exact H1]. rewrite H2. simpl. tauto.
      * intros x. simpl. rewrite H2. simpl.
        destruct (list_eq_dec ascii_dec s x) as [->|Hne]; tauto.
Qed.

Lemma shaped_strip (s : str) : shaped s -> strip s = s.
Proof.
  intros [_ E]. rewrite E. apply strip_fix, join_trimmed, split_words.
Qed.

(** X24: Lines that look like headers leave no trace: they can be removed from
    the input, or put anywhere in it, without any change to the items. *)
Theorem header_lines_leave_no_trace (lines : list Line) :
  extract_questions lines = extract_questions (kept_lines lines)
  /\ forall (above below : list Line) (h : Line),
       is_header h = true ->
       extract_questions (above ++ h :: below) = extract_questions (above ++ below).
Proof.
  split.
  - unfold extract_questions. now rewrite run_skips_headers.
  - intros above below h Hh. unfold extract_questions.
    rewrite (run_skips_headers (above ++ h :: below)), (run_skips_headers (above ++ below)).
    unfold kept_lines. rewrite !filter_app. cbn [filter]. now rewrite Hh.
Qed.

Lemma extract_questions_shaped (lines : list Line) :
  NoDup (extract_questions lines)
  /\ Forall (fun s => s <> [] /\ strip s = s /\ s = join [space] (split s))
       (extract_questions lines).
Proof.
  unfold extract_questions.
  destruct (unique_from_spec (items (flush (fold_left step lines initial))) [])
    as [H1 H2].
  split; [exact H1|]. apply Forall_forall. intros s Hs.
  apply H2 in Hs. destruct Hs as [Hs _].
  assert (F : Forall shaped (items (flush (fold_left step lines initial)))).
  { rewrite flush_items. apply Forall_app. split.
    - apply run_shaped. constructor.
    - apply item_of_shape. }
  rewrite Forall_forall in F. specialize (F s Hs).
  split; [apply F|]. split; [now apply shaped_strip|apply F].
Qed.

(** X25: The items are pairwise different, and each of them is a non-empty
    sequence of words separated by single spaces, with no other
    whitespace and no space at either end. *)
Theorem question_items_shape (lines : list Line) :
  NoDup (extract_questions lines)
  /\ Forall (fun s => s <> [] /\ strip s = s /\ s = join [space] (split s))
       (extract_questions lines).
Proof. apply extract_questions_shaped. Qed.

(** X26: The segmentation only groups words: the words of the items, before
    repeated items are dropped, are the words of the lines that are not
    headers, bullets left out, in the same order; and a word occurs in an
    item exactly when it occurs in such a line. *)
Theorem words_are_conserved (lines : list Line) :
  flat_map split (items (flush (fold_left step lines initial)))
  = flat_map split (map body (kept_lines lines))
  /\ forall w,
       (exists item, In item (extract_questions lines) /\ In w (split item))
       <-> (exists ln, In ln (kept_lines lines) /\ In w (split (body ln))).
Proof.
  assert (E : flat_map split (items (flush (fold_left step lines initial)))
              = flat_map split (map body (kept_lines lines))).
  { pose proof (flush_words (fold_left step lines initial)) as H.
    rewrite run_words in H. unfold words_of in H.
    rewrite flush_buf in H. cbn [flat_map] in H.
    rewrite app_nil_r in H. exact H. }
  split; [exact E|]. intros w.
  destruct (unique_from_spec (items (flush (fold_left step lines initial))) [])
    as [_ H2].
  unfold extract_questions. split.
  - intros [item [Hi Hw]]. apply H2 in Hi. destruct Hi as [Hi _].
    assert (Hin : In w (flat_map split (map body (kept_lines lines)))).
    { rewrite <- E. apply in_flat_map. now exists item. }
    apply in_flat_map in Hin. destruct Hin as [b [Hb Hwb]].
    apply in_map_iff in Hb. destruct Hb as [ln [<- Hln]]. now exists ln.
  - intros [ln [Hln Hw]].
    assert (Hin : In w (flat_map split (items (flush (fold_left step lines initial))))).
    { rewrite E. apply in_flat_map. exists (body ln). split; [|exact Hw].
      now apply in_map. }
    apply in_flat_map in Hin. destruct Hin as [item [Hi Hwi]].
    exists item. split; [|exact Hwi]. apply H2. split; [exact Hi|intros []].
Qed.

(** X28: Read back by [parse_exam], the items come out unchanged, except that
    those of fewer than four characters are dropped. *)
Theorem question_items_read_back (lines : list Line) :
  MatchTopics.parse_exam (extract_questions lines)
  = filter (fun s => 4 <=? length s) (extract_questions lines).
Proof.
  rewrite ParserFacts.parse_exam_filter. f_equal.
  assert (F : Forall (fun s => strip s = s) (extract_questions lines)).
  { destruct (extract_questions_shaped lines) as [_ F].
    eapply Forall_impl; [|exact F]. intros s [_ [H _]]. exact H. }
  induction F as [|s l Hs _ IH]; [reflexivity|].
  cbn [map]. now rewrite Hs, IH.
Qed.

(** *** Bullets and question marks *)

Lemma step_bullet (st : state) (ln : Line) (rest : str) :
  is_header ln = false -> bullet_rest (text ln) = Some rest ->
  items (flush (step st ln)) = items (flush st) ++ item_of [rest].
Proof.
  intros Hh Hb. unfold is_header in Hh. unfold step. rewrite Hh, Hb.
  destruct (gap_exceeds st ln); cbv zeta beta iota;
    match goal with
    | |- context [endswith_char ?c ?s] => destruct (endswith_char c s)
    end; flush_norm; rewrite ?app_nil_r, <- ?app_assoc; reflexivity.
Qed.

Lemma step_question_mark (st : state) (ln : Line) :
  is_header ln = false ->
  endswith_char "?"%char (rstrip (body ln)) = true ->
  buf (step st ln) = [].
Proof.
  intros Hh Hq. unfold is_header in Hh. unfold body in Hq. unfold step.
  rewrite Hh.
  destruct (gap_exceeds st ln), (bullet_rest (text ln)) as [r|];
    cbv zeta beta iota; rewrite Hq; reflexivity.
Qed.

Lemma step_on_empty_buffer (st : state) (ln : Line) :
  is_header ln = false -> buf st = [] ->
  items (flush (step st ln)) = items st ++ item_of [body ln].
Proof.
  intros Hh Hb. unfold is_header in Hh. unfold step, body. rewrite Hh.
  destruct (gap_exceeds st ln), (bullet_rest (text ln)) as [r|];
    cbv zeta beta iota;
    match goal with
    | |- context [endswith_char ?c ?s] => destruct (endswith_char c s)
    end; flush_norm; rewrite ?Hb; cbn [item_of app];
    rewrite ?app_nil_r, <- ?app_assoc; reflexivity.
Qed.

(** X27: A line that starts with a bullet opens a new item whatever the gap
    above it, and so does the line that follows a line ending in a
    question mark: what was buffered before becomes an item of its own. *)
Theorem bullets_and_question_marks_delimit (st : state) (ln : Line) :
  is_header ln = false ->
  (forall rest, bullet_rest (text ln) = Some rest ->
     items (flush (step st ln)) = items (flush st) ++ item_of [rest])
  /\ (endswith_char "?"%char (rstrip (body ln)) = true ->
        buf (step st ln) = []
        /\ forall next, is_header next = false ->
             items (flush (step (step st ln) next))
             = items (step st ln) ++ item_of [body next]).
Proof.
  intros Hh. split.
  - intros rest Hb. now apply step_bullet.
  - intros Hq. pose proof (@step_question_mark st ln Hh Hq) as Hb.
    split; [exact Hb|]. intros next Hn. now apply step_on_empty_buffer.
Qed.

Definition numbered_question : Line :=
  {| page := 1; text := lit "2) What is overfitting?";
     x0 := 72; y0 := 678; x1 := 300; y1 := 688; avg_size := 10 |}.

Lemma bullets_and_question_marks_delimit_witness :
  items (flush (step (step initial first_line) numbered_question))
  = [ lit "Explain the k-means algorithm"; lit "What is overfitting?" ].
Proof.
  destruct (@bullets_and_question_marks_delimit
              (step initial first_line) numbered_question eq_refl) as [H1 _].
  rewrite (H1 (lit "What is overfitting?") eq_refl).
  vm_compute. reflexivity.
Defined.

End SegmentLaws.

(** ** Further laws of the title selection *)

Module TitleLaws.

Import Py Layout SlideTitles SlideDocument Spec PyFacts TitleFacts.

(** [a] does not have to come strictly before [b] in the sort by size and
    height: its key is not the larger one. *)
Definition not_larger (a b : LineInfo) : Prop :=
  (avg_size a < avg_size b)%Q
  \/ ((avg_size a == avg_size b)%Q /\ (y1 a <= y1 b)%Q).

Lemma larger_first_true (a b : LineInfo) :
  larger_first a b = true
  <-> (avg_size b < avg_size a)%Q
      \/ ((avg_size a == avg_size b)%Q /\ (y1 b < y1 a)%Q).
Proof.
  unfold larger_first.
  rewrite orb_true_iff, andb_true_iff, !Qltb_true, Qeq_bool_iff. tauto.
Qed.

Lemma larger_first_false (a b : LineInfo) :
  larger_first a b = false <-> not_larger a b.
Proof.
  unfold not_larger. split.
  - intros H.
    destruct (Qlt_le_dec (avg_size a) (avg_size b)) as [Hlt|Hge]; [now left|].
    right.
    assert (Hn : ~ (avg_size b < avg_size a)%Q).
    { intros C. assert (T : larger_first a b = true)
        by (apply larger_first_true; now left). congruence. }
    assert (He : (avg_size a == avg_size b)%Q) by lra.
    split; [exact He|].
    destruct (Qlt_le_dec (y1 b) (y1 a)) as [C|Hle]; [|exact Hle].
    assert (T : larger_first a b = true)
      by (apply larger_first_true; right; now split). congruence.
  - intros H. destruct (larger_first a b) eqn:E; [|reflexivity].
    apply larger_first_true in E. exfalso.
    destruct H as [H|[H1 H2]], E as [E|[E1 E2]]; lra.
Qed.

Lemma larger_first_asym (x y : LineInfo) :
  larger_first y x = true -> larger_first x y = false.
Proof.
  intros H. apply larger_first_true in H. apply larger_first_false.
  unfold not_larger. destruct H as [H|[H1 H2]]; [left; exact H|].
  right. split; lra.
Qed.

Lemma larger_first_trans (x y z : LineInfo) :
  in_order larger_first x y -> in_order larger_first y z ->
  in_order larger_first x z.
Proof.
  unfold in_order. rewrite !larger_first_false. unfold not_larger.
  intros [H|[H1 H2]] [K|[K1 K2]].
  - left. lra.
  - left. lra.
  - left. lra.
  - right. split; lra.
Qed.

(** The first element of a stable sort need not come after any other. *)
Lemma sort_head (A : Type) (before : A -> A -> bool) (l t : list A) (h : A) :
  (forall x y, before y x = true -> before x y = false) ->
  (forall x y z, in_order before x y -> in_order before y z -> in_order before x z) ->
  stable_sort before l = h :: t ->
  In h l /\ forall z, In z l -> before z h = false.
Proof.
  intros Ha Ht E.
  pose proof (@stable_sort_sorted A before Ha Ht l) as H. rewrite E in H.
  assert (Hin : forall z, In z l <-> In z (h :: t)).
  { intros z. rewrite <- E. symmetry. apply stable_sort_in. }
  split; [apply Hin; now left|].
  intros z Hz. apply Hin in Hz. destruct Hz as [<-|Hz].
  - destruct (before h h) eqn:B; [|reflexivity].
    pose proof (Ha _ _ B) as C. congruence.
  - inversion H as [|? ? _ Hall]; subst. rewrite Forall_forall in Hall.
    now apply Hall.
Qed.

(** The lines among which the title is chosen: those of the top area,
    or all of them when the top area is empty. *)
Definition top_area (page_height top_ratio : Q) (lines : list LineInfo) : list LineInfo :=
  filter (fun ln => Qle_bool (page_height * (1 - top_ratio)) (y1 ln)) lines.

Definition pool (page_height top_ratio : Q) (lines : list LineInfo) : list LineInfo :=
  match top_area page_height top_ratio lines with
  | [] => lines
  | top => top
  end.

Lemma page_title_choice (thr page_height top_ratio : Q) (lines : list LineInfo) :
  lines <> [] ->
  exists title lines',
    In title (pool page_height top_ratio lines)
    /\ (forall l, In l (pool page_height top_ratio lines) -> not_larger l title)
    /\ Permutation lines' lines
    /\ page_title thr page_height top_ratio lines
       = merge_loop thr title (candidates_below title lines').
Proof.
  intros Hne. unfold page_title, pool, top_area.
  destruct lines as [|l0 lines0] eqn:El; [congruence|]. rewrite <- El.
  set (in_top := filter (fun ln => Qle_bool (page_height * (1 - top_ratio)) (y1 ln)) lines).
  assert (Hlen : forall l : list LineInfo, l <> [] -> stable_sort larger_first l <> []).
  { intros l Hl E. apply Hl. apply length_zero_iff_nil.
    rewrite <- (stable_sort_length larger_first l), E. reflexivity. }
  destruct in_top as [|t0 in_top0] eqn:Et.
  - destruct (stable_sort larger_first lines) as [|title rest] eqn:Es.
    + exfalso. apply (@Hlen lines); [rewrite El; discriminate|exact Es].
    + destruct (@sort_head _ larger_first lines rest title
                  larger_first_asym larger_first_trans Es) as [Hin Hmax].
      exists title, (title :: rest). rewrite <- Es. repeat split.
      * exact Hin.
      * intros l Hl. apply larger_first_false. now apply Hmax.
      * apply stable_sort_perm.
  - destruct (stable_sort larger_first (t0 :: in_top0)) as [|title rest] eqn:Es.
    + exfalso. apply (@Hlen (t0 :: in_top0)); [discriminate|exact Es].
    + destruct (@sort_head _ larger_first (t0 :: in_top0) rest title
                  larger_first_asym larger_first_trans Es) as [Hin Hmax].
      exists title, lines. repeat split.
      * exact Hin.
      * intros l Hl. apply larger_first_false. now apply Hmax.
      * apply Permutation_refl.
Qed.



(** *** What a page returns *)

Lemma merge_loop_shape (thr : Q) (title : LineInfo) (cs : list LineInfo) (t : str) :
  merge_loop thr title cs = Some t ->
  t = text title
  \/ exists ln, In ln cs /\ t = strip (text title ++ space :: text ln).
Proof.
  induction cs as [|c cs IH]; simpl.
  - intros H. inversion H. now left.
  - destruct (can_merge thr title c) as [[|]|]; [| |discriminate].
    + intros H. inversion H. right. exists c. split; [now left|reflexivity].
    + intros H. destruct (IH H) as [E|[ln [Hln E]]]; [now left|].
      right. exists ln. split; [now right|exact E].
Qed.

Lemma merge_loop_returns (thr : Q) (title : LineInfo) (cs : list LineInfo) :
  (0 < avg_size title)%Q -> exists t, merge_loop thr title cs = Some t.
Proof.
  intros Hpos.
  destruct (@merge_loop_spec thr title cs Hpos)
    as [[H _]|[pre [ln [post [_ [H _]]]]]]; eauto.
Qed.

Lemma pool_in (page_height top_ratio : Q) (lines : list LineInfo) (l : LineInfo) :
  In l (pool page_height top_ratio lines) -> In l lines.
Proof.
  unfold pool, top_area.
  destruct (filter _ lines) as [|t0 top] eqn:E; [tauto|].
  rewrite <- E. intros H. apply filter_In in H. tauto.
Qed.

Lemma page_title_shape (thr page_height top_ratio : Q) (lines : list LineInfo)
    (t : str) :
  page_title thr page_height top_ratio lines = Some t ->
  (lines = [] /\ t = [])
  \/ exists title,
       In title lines
       /\ (t = text title
           \/ exists ln, In ln lines /\ (y0 ln < y0 title)%Q
                         /\ t = strip (text title ++ space :: text ln)).
Proof.
  destruct lines as [|l0 lines0] eqn:El.
  - intros H. inversion H. now left.
  - rewrite <- El. intros H. right.
    destruct (@page_title_choice thr page_height top_ratio lines)
      as [title [lines' [Hin [_ [Hperm E]]]]]; [rewrite El; discriminate|].
    exists title. split; [now apply pool_in in Hin|].
    rewrite E in H. apply merge_loop_shape in H.
    destruct H as [H|[ln [Hln H]]]; [now left|]. right.
    apply candidates_below_in in Hln. destruct Hln as [Hln Hb].
    exists ln. split; [|now split].
    now apply (Permutation_in _ Hperm).
Qed.

Lemma page_title_returns_aux (thr page_height top_ratio : Q)
    (lines : list LineInfo) :
  (forall l, In l lines -> (0 < avg_size l)%Q) ->
  exists t, page_title thr page_height top_ratio lines = Some t.
Proof.
  intros Hpos.
  destruct lines as [|l0 lines0] eqn:El; [now exists []|]. rewrite <- El in *.
  destruct (@page_title_choice thr page_height top_ratio lines)
    as [title [lines' [Hin [_ [_ E]]]]]; [rewrite El; discriminate|].
  rewrite E. apply merge_loop_returns. apply Hpos. now apply pool_in in Hin.
Qed.

(** X18: A page whose lines all have a glyph size above zero gets a title: the
    empty string when it has no line, else the text of one of its lines,
    alone or followed by a space and the text of a line that lies lower,
    the whole stripped. *)
Theorem page_title_returns (thr page_height top_ratio : Q) (lines : list LineInfo) :
  (forall l, In l lines -> (0 < avg_size l)%Q) ->
  exists t,
    page_title thr page_height top_ratio lines = Some t
    /\ ((lines = [] /\ t = [])
        \/ exists title,
             In title lines
             /\ (t = text title
                 \/ exists ln, In ln lines /\ (y0 ln < y0 title)%Q
                               /\ t = strip (text title ++ space :: text ln))).
Proof.
  intros Hpos.
  destruct (@page_title_returns_aux thr page_height top_ratio lines Hpos) as [t Ht]. exists t. split; [exact Ht|].
  now apply page_title_shape in Ht.
Qed.

Lemma page_title_returns_witness :
  exists t, page_title (9 # 10) 842 (35 # 100) two_column_page = Some t.
Proof.
  destruct (@page_title_returns (9 # 10) 842 (35 # 100) two_column_page)
    as [t [H _]].
  - intros l [<-|[<-|[<-|[]]]]; reflexivity.
  - now exists t.
Defined.

(** *** The whole document *)

Definition positive_sizes (layout : PageLayout) : Prop :=
  forall line, In line (iter_lines layout) ->
  forall s, In s (char_sizes line) -> (0 < s)%Q.

Lemma total_pos (sizes : list Q) :
  sizes <> [] -> (forall s, In s sizes -> (0 < s)%Q) -> (0 < total sizes)%Q.
Proof.
  induction sizes as [|a l IH]; [congruence|]. intros _ H.
  assert (Ha : (0 < a)%Q) by (apply H; now left).
  destruct l as [|b l]; [simpl; lra|].
  assert (Hl : (0 < total (b :: l))%Q).
  { apply IH; [discriminate|]. intros s Hs. apply H. now right. }
  change (total (a :: b :: l)) with (a + total (b :: l))%Q. lra.
Qed.

Lemma mean_pos (sizes : list Q) :
  sizes <> [] -> (forall s, In s sizes -> (0 < s)%Q) -> (0 < mean sizes)%Q.
Proof.
  intros Hne H. unfold mean. apply Qlt_shift_div_l.
  - rewrite <- (Zlt_Qlt 0). destruct sizes; [congruence|simpl; lia].
  - rewrite Qmult_0_l. now apply total_pos.
Qed.

Lemma collect_line_spec (idx : Z) (line : TextLine) (l : LineInfo) :
  In l (collect_line idx line) ->
  page l = idx /\ strip (text l) = text l
  /\ ((forall s, In s (char_sizes line) -> (0 < s)%Q) -> (0 < avg_size l)%Q).
Proof.
  unfold collect_line, line_avg_font_size.
  destruct (is_empty (strip (line_text line))); [intros []|].
  destruct (char_sizes line) as [|a sizes] eqn:E; [intros []|].
  intros [<-|[]]. cbn [page text avg_size].
  split; [reflexivity|]. split; [apply strip_idem|].
  intros H. apply mean_pos; [discriminate|exact H].
Qed.

Lemma collect_spec (idx : Z) (layout : PageLayout) (l : LineInfo) :
  In l (collect idx layout) ->
  page l = idx /\ strip (text l) = text l
  /\ (positive_sizes layout -> (0 < avg_size l)%Q).
Proof.
  unfold collect. intros H. apply in_flat_map in H.
  destruct H as [line [Hline Hl]].
  destruct (collect_line_spec _ _ _ Hl) as [H1 [H2 H3]].
  split; [exact H1|]. split; [exact H2|].
  intros Hp. apply H3. now apply Hp.
Qed.

Definition numbered_from (idx : Z) (n : nat) : list Z :=
  map (fun k => (idx + Z.of_nat k)%Z) (seq 0 n).

Lemma numbered_from_cons (idx : Z) (n : nat) :
  numbered_from idx (S n) = idx :: numbered_from (idx + 1) n.
Proof.
  unfold numbered_from. cbn [seq map]. f_equal; [lia|].
  rewrite <- seq_shift, map_map. apply map_ext. intros k. lia.
Qed.

Lemma titles_from_spec (top_ratio thr : Q) (layouts : list PageLayout) :
  forall (idx : Z) (rows : list (Z * str)),
    titles_from top_ratio thr idx layouts = Some rows ->
    map fst rows = numbered_from idx (length layouts)
    /\ Forall (fun r => strip (snd r) = snd r) rows.
Proof.
  induction layouts as [|layout rest IH]; intros idx rows H.
  - inversion H. split; [reflexivity|constructor].
  - cbn [titles_from] in H.
    destruct (page_title thr (page_height layout) top_ratio (collect idx layout))
      as [t|] eqn:Et; [|discriminate].
    destruct (titles_from top_ratio thr (idx + 1) rest) as [rows'|] eqn:Er;
      [|discriminate].
    inversion H; subst. destruct (IH _ _ Er) as [H1 H2].
    cbn [length map fst]. rewrite numbered_from_cons, H1.
    split; [reflexivity|]. constructor; [|exact H2]. cbn [snd].
    apply page_title_shape in Et.
    destruct Et as [[_ ->]|[title [Hin [->|[ln [_ [_ ->]]]]]]].
    + reflexivity.
    + now apply collect_spec in Hin.
    + apply strip_idem.
Qed.

Lemma titles_from_returns (top_ratio thr : Q) (layouts : list PageLayout) :
  (forall layout, In layout layouts -> positive_sizes layout) ->
  forall idx, exists rows, titles_from top_ratio thr idx layouts = Some rows.
Proof.
  induction layouts as [|layout rest IH]; intros Hpos idx; [now exists []|].
  cbn [titles_from].
  destruct (@page_title_returns_aux thr (page_height layout) top_ratio
              (collect idx layout)) as [t Ht].
  { intros l Hl. apply collect_spec in Hl. apply Hl. apply Hpos. now left. }
  rewrite Ht.
  destruct (IH (fun l Hl => Hpos l (or_intror Hl)) (idx + 1)%Z) as [rows Hr].
  rewrite Hr. eauto.
Qed.

(** X19: [extract_titles] gives one row for each page, numbered from 1 in the
    order of the pages, with a stripped title; and it does return when no
    character of the document has a size of zero or less. *)
Theorem one_title_per_page (top_ratio thr : Q) (layouts : list PageLayout) :
  (forall rows,
      extract_titles top_ratio thr layouts = Some rows ->
      map fst rows = numbered_from 1 (length layouts)
      /\ Forall (fun r => strip (snd r) = snd r) rows)
  /\ ((forall layout, In layout layouts -> positive_sizes layout) ->
      exists rows, extract_titles top_ratio thr layouts = Some rows).
Proof.
  split.
  - intros rows H. now apply (@titles_from_spec top_ratio thr layouts 1).
  - intros H. now apply titles_from_returns.
Qed.

(** X20: The title file is read back by [parse_slides] as the rows of
    [extract_titles], with their page numbers; the pages without a title
    are left out. *)
Theorem titles_file_read_back (top_ratio thr : Q) (layouts : list PageLayout)
    (rows : list (Z * str)) :
  extract_titles top_ratio thr layouts = Some rows ->
  MatchTopics.parse_slides (map TitleFile.title_row rows)
  = map (fun r => (Some (fst r), snd r))
      (filter (fun r => negb (is_empty (snd r))) rows).
Proof.
  intros H. apply (@titles_from_spec top_ratio thr layouts 1) in H.
  destruct H as [_ F].
  induction F as [|[p t] rows Ht _ IH]; [reflexivity|].
  cbn [map MatchTopics.parse_slides filter fst snd] in *.
  rewrite RowFacts.title_row_parsed, Ht, IH.
  destruct (is_empty t); reflexivity.
Qed.

(** A document of two pages: a title and a line of text, then a page
    without text. *)
Definition sample_document : list PageLayout :=
  [ {| height := Some 842%Q;
       elements :=
         [ TextBox
             [ Line {| line_text := lit "  Decision Trees ";
                       bx0 := 50; by0 := 700; bx1 := 250; by1 := 720;
                       char_sizes := [20%Q; 20%Q] |};
               Line {| line_text := lit "Gini index";
                       bx0 := 50; by0 := 400; bx1 := 150; by1 := 410;
                       char_sizes := [10%Q] |} ] ] |};
    {| height := None; elements := [OtherElement] |} ].

Lemma titles_file_read_back_witness :
  extract_titles (35 # 100) (9 # 10) sample_document
  = Some [(1%Z, lit "Decision Trees"); (2%Z, [])]
  /\ MatchTopics.parse_slides
       (map TitleFile.title_row [(1%Z, lit "Decision Trees"); (2%Z, [])])
     = [(Some 1%Z, lit "Decision Trees")].
Proof.
  assert (H : extract_titles (35 # 100) (9 # 10) sample_document
              = Some [(1%Z, lit "Decision Trees"); (2%Z, [])]).
  { vm_compute. reflexivity. }
  split; [exact H|].
  rewrite (@titles_file_read_back (35 # 100) (9 # 10) sample_document _ H).
  reflexivity.
Defined.

End TitleLaws.

(** ** The reading order of the exam lines *)

Module ReadingOrder.

Import Py Layout ExamQuestions ExamDocument PyFacts TitleFacts.

Section SortApp.

Variable A : Type.
Variable before : A -> A -> bool.

Lemma insert_stable_app (x : A) (l1 l2 : list A) :
  (forall z, In z l2 -> before z x = false) ->
  insert_stable before x (l1 ++ l2) = insert_stable before x l1 ++ l2.
Proof.
  intros H. induction l1 as [|y l1 IH]; simpl.
  - destruct l2 as [|z l2]; [reflexivity|].
    simpl. now rewrite (H z (or_introl eq_refl)).
  - destruct (before y x); [now rewrite IH|reflexivity].
Qed.

(** Sorting two blocks, when nothing of the second has to come before
    anything of the first, is sorting each of them. *)
Lemma stable_sort_app (a b : list A) :
  (forall x z, In x a -> In z b -> before z x = false) ->
  stable_sort before (a ++ b) = stable_sort before a ++ stable_sort before b.
Proof.
  intros H. induction a as [|x a IH]; [reflexivity|].
  cbn [app stable_sort]. rewrite IH.
  - apply insert_stable_app. intros z Hz. apply stable_sort_in in Hz.
    apply H; [now left|exact Hz].
  - intros x' z Hx Hz. apply H; [now right|exact Hz].
Qed.

End SortApp.

(** [a] is read before [b], or at the same place. *)
Definition reads_first (a b : Line) : Prop :=
  (page a < page b)%Z
  \/ (page a = page b
      /\ ((y1 b < y1 a)%Q \/ ((y1 a == y1 b)%Q /\ (x0 a <= x0 b)%Q))).

Lemma reading_first_true (a b : Line) :
  reading_first a b = true
  <-> (page a < page b)%Z
      \/ (page a = page b
          /\ ((y1 b < y1 a)%Q \/ ((y1 a == y1 b)%Q /\ (x0 a < x0 b)%Q))).
Proof.
  unfold reading_first.
  rewrite orb_true_iff, andb_true_iff, orb_true_iff, andb_true_iff.
  rewrite Z.ltb_lt, Z.eqb_eq, !Qltb_true, Qeq_bool_iff.
  assert (E1 : (- y1 a < - y1 b)%Q <-> (y1 b < y1 a)%Q) by (split; intros; lra).
  assert (E2 : (- y1 a == - y1 b)%Q <-> (y1 a == y1 b)%Q) by (split; intros; lra).
  rewrite E1, E2. reflexivity.
Qed.

Lemma reading_first_false (a b : Line) :
  reading_first b a = false <-> reads_first a b.
Proof.
  unfold reads_first. split.
  - intros H.
    assert (N : ~ ((page b < page a)%Z
                   \/ (page b = page a
                       /\ ((y1 a < y1 b)%Q
                           \/ ((y1 b == y1 a)%Q /\ (x0 b < x0 a)%Q))))).
    { intros C. apply reading_first_true in C. congruence. }
    destruct (Z.lt_trichotomy (page a) (page b)) as [Hp|[Hp|Hp]].
    + now left.
    + right. split; [exact Hp|].
      destruct (Qlt_le_dec (y1 b) (y1 a)) as [Hy|Hy]; [now left|].
      right.
      assert (Hy' : ~ (y1 a < y1 b)%Q).
      { intros C. apply N. right. split; [now symmetry|now left]. }
      assert (He : (y1 a == y1 b)%Q) by lra.
      split; [exact He|].
      destruct (Qlt_le_dec (x0 b) (x0 a)) as [Hx|Hx]; [|exact Hx].
      exfalso. apply N. right. split; [now symmetry|].
      right. split; [lra|exact Hx].
    + exfalso. apply N. now left.
  - intros H. destruct (reading_first b a) eqn:E; [|reflexivity].
    apply reading_first_true in E. exfalso.
    destruct H as [H|[H1 [H2|[H2 H3]]]], E as [E|[E1 [E2|[E2 E3]]]];
      try lia; lra.
Qed.

Lemma reading_first_asym (x y : Line) :
  reading_first y x = true -> reading_first x y = false.
Proof.
  intros H. apply reading_first_true in H. apply reading_first_false.
  unfold reads_first. destruct H as [H|[H1 [H2|[H2 H3]]]].
  - now left.
  - right. split; [exact H1|now left].
  - right. split; [exact H1|]. right. split; lra.
Qed.

Lemma reading_first_trans (x y z : Line) :
  in_order reading_first x y -> in_order reading_first y z ->
  in_order reading_first x z.
Proof.
  unfold in_order. rewrite !reading_first_false. unfold reads_first.
  intros [H|[H1 H2]] [K|[K1 K2]].
  - left. lia.
  - left. lia.
  - left. lia.
  - right. split; [congruence|].
    destruct H2 as [H2|[H2 H3]], K2 as [K2|[K2 K3]].
    + left. lra.
    + left. lra.
    + left. lra.
    + right. split; lra.
Qed.

Lemma collect_page (idx : Z) (layout : PageLayout) (l : Line) :
  In l (collect idx layout) -> page l = idx /\ strip (text l) = text l /\ text l <> [].
Proof.
  unfold collect. intros H. apply in_flat_map in H.
  destruct H as [line [_ H]]. unfold collect_line in H.
  destruct (strip (line_text line)) as [|c s] eqn:E; [destruct H|].
  cbn [is_empty] in H. destruct H as [<-|[]]. cbn [page text].
  split; [reflexivity|]. split; [|discriminate].
  rewrite <- E. apply strip_idem.
Qed.

Lemma collect_from_page (layouts : list PageLayout) :
  forall (idx : Z) (l : Line), In l (collect_from idx layouts) -> (idx <= page l)%Z.
Proof.
  induction layouts as [|layout rest IH]; intros idx l H; [destruct H|].
  cbn [collect_from] in H. apply in_app_or in H. destruct H as [H|H].
  - apply collect_page in H. lia.
  - apply IH in H. lia.
Qed.

(** X23: The lines come out page by page, in the order of the pages: sorting
    the document is sorting each page.  On a page, a higher line comes
    first, and of two lines at the same height the one further left; no
    line is lost or added. *)
Theorem lines_in_reading_order (layouts : list PageLayout) :
  Permutation (collect_ordered_lines layouts) (collect_from 1 layouts)
  /\ StronglySorted reads_first (collect_ordered_lines layouts)
  /\ forall (idx : Z) (layout : PageLayout) (rest : list PageLayout),
       stable_sort reading_first (collect_from idx (layout :: rest))
       = stable_sort reading_first (collect idx layout)
         ++ stable_sort reading_first (collect_from (idx + 1) rest).
Proof.
  split; [apply stable_sort_perm|]. split.
  - unfold collect_ordered_lines.
    pose proof (@stable_sort_sorted _ reading_first reading_first_asym
                  reading_first_trans (collect_from 1 layouts)) as H.
    induction H as [|a l Hl IH Ha]; constructor; [exact IH|].
    eapply Forall_impl; [|exact Ha].
    intros b Hb. now apply reading_first_false.
  - intros idx layout rest. cbn [collect_from]. apply stable_sort_app.
    intros x z Hx Hz. apply collect_page in Hx. apply collect_from_page in Hz.
    apply reading_first_false. left. lia.
Qed.

End ReadingOrder.

(** ** The alias table *)

Module AliasLaws.

Import Py MatchTopics PyFacts Aliases NormalizeLaws.

Definition keys (d : alias_table) : list str := map fst d.

Lemma dict_set_keys (k : str) (v : list str) (d : alias_table) :
  keys (dict_set k v d) = if mem k (keys d) then keys d else keys d ++ [k].
Proof.
  unfold keys, mem. induction d as [|[k' v'] d IH]; simpl; [reflexivity|].
  destruct (str_eqb k k'); simpl; [reflexivity|].
  rewrite IH. now destruct (existsb (str_eqb k) (map fst d)).
Qed.

Lemma dict_get_set (k k' : str) (v : list str) (d : alias_table) :
  dict_get k' (dict_set k v d) = if str_eqb k' k then Some v else dict_get k' d.
Proof.
  induction d as [|[k0 v0] d IH]; simpl; [reflexivity|].
  destruct (str_eqb k k0) eqn:E; simpl.
  - apply str_eqb_eq in E. subst k0. now destruct (str_eqb k' k).
  - rewrite IH. destruct (str_eqb k' k0) eqn:E0; [|reflexivity].
    apply str_eqb_eq in E0. subst k0.
    destruct (str_eqb k' k) eqn:E1; [|reflexivity].
    apply str_eqb_eq in E1. subst k'. rewrite str_eqb_refl in E. discriminate.
Qed.

Lemma mem_keys (k : str) (l : list str) : mem k l = true <-> In k l.
Proof. apply MatcherFacts.mem_In. Qed.

Lemma dict_set_nodup (k : str) (v : list str) (d : alias_table) :
  NoDup (keys d) -> NoDup (keys (dict_set k v d)).
Proof.
  intros H. rewrite dict_set_keys. destruct (mem k (keys d)) eqn:E; [exact H|].
  apply NoDup_app; [exact H|repeat constructor; intros []|].
  intros x Hx [<-|[]]. apply mem_keys in Hx. congruence.
Qed.

Lemma merge_items_keys (items : list (str * json)) (d : alias_table) :
  NoDup (keys d) ->
  NoDup (keys (merge_items items d))
  /\ exists added, keys (merge_items items d) = keys d ++ added.
Proof.
  revert d. induction items as [|[k v] items IH]; intros d H.
  - split; [exact H|]. exists []. now rewrite app_nil_r.
  - cbn [merge_items]. destruct (lowered_synonyms v) as [syns|].
    + destruct (IH (dict_set (lower k) syns d) (@dict_set_nodup (lower k) syns d H))
        as [H1 [added H2]].
      split; [exact H1|]. rewrite H2, dict_set_keys.
      destruct (mem (lower k) (keys d)); [now exists added|].
      exists (lower k :: added). now rewrite <- app_assoc.
    + split; [exact H|]. exists []. now rewrite app_nil_r.
Qed.

Lemma default_keys_nodup : NoDup (keys default_aliases).
Proof.
  apply (NoDup_count_occ' (list_eq_dec ascii_dec)).
  intros k Hk. repeat (destruct Hk as [<-|Hk]; [vm_compute; reflexivity|]).
  destruct Hk.
Qed.

Definition well_formed (items : list (str * json)) : Prop :=
  Forall (fun kv => lowered_synonyms (snd kv) <> None) items.

Lemma merge_items_app (good rest : list (str * json)) (d : alias_table) :
  well_formed good ->
  merge_items (good ++ rest) d = merge_items rest (merge_items good d).
Proof.
  intros H. revert d. induction H as [|[k v] good Hv _ IH]; intros d; [reflexivity|].
  cbn [app merge_items]. cbn [snd] in Hv.
  destruct (lowered_synonyms v); [apply IH|congruence].
Qed.

Lemma merge_items_get_other (items : list (str * json)) (d : alias_table) (k' : str) :
  (forall kv, In kv items -> lower (fst kv) <> k') ->
  dict_get k' (merge_items items d) = dict_get k' d.
Proof.
  revert d. induction items as [|[k v] items IH]; intros d H; [reflexivity|].
  cbn [merge_items]. destruct (lowered_synonyms v) as [syns|]; [|reflexivity].
  rewrite IH by (intros kv Hkv; apply H; now right).
  rewrite dict_get_set.
  destruct (str_eqb k' (lower k)) eqn:E; [|reflexivity].
  apply str_eqb_eq in E. exfalso. apply (H (k, v)); [now left|now symmetry].
Qed.

(** X13: Whatever the file holds, the canonical terms of the default table
    stay in the table, in their order, new terms coming after them, and no
    term occurs twice. *)
Theorem default_terms_are_kept (src : source) :
  NoDup (keys (load_aliases src))
  /\ exists added, keys (load_aliases src) = keys default_aliases ++ added.
Proof.
  assert (D : NoDup (keys default_aliases)
              /\ exists added, keys default_aliases = keys default_aliases ++ added).
  { split; [apply default_keys_nodup|]. exists []. now rewrite app_nil_r. }
  destruct src as [| |j]; try exact D.
  destruct j; try exact D.
  apply merge_items_keys, default_keys_nodup.
Qed.

(** X14: An entry of the file replaces the entry of its lower-cased key, unless
    a later entry has the same lower-cased key or an earlier value is
    malformed; a term that the file does not name keeps its synonyms. *)
Theorem file_entry_wins (before after : list (str * json)) (k : str) (v : json)
    (syns : list str) :
  well_formed before ->
  lowered_synonyms v = Some syns ->
  (forall kv, In kv after -> lower (fst kv) <> lower k) ->
  dict_get (lower k) (load_aliases (Parsed (JObject (before ++ (k, v) :: after))))
  = Some syns
  /\ forall k',
       (forall kv, In kv (before ++ (k, v) :: after) -> lower (fst kv) <> k') ->
       dict_get k' (load_aliases (Parsed (JObject (before ++ (k, v) :: after))))
       = dict_get k' default_aliases.
Proof.
  intros Hb Hv Ha. cbn [load_aliases]. split.
  - rewrite merge_items_app by exact Hb. cbn [merge_items]. rewrite Hv.
    rewrite merge_items_get_other by exact Ha.
    now rewrite dict_get_set, str_eqb_refl.
  - intros k' H. now apply merge_items_get_other.
Qed.

Lemma file_entry_wins_witness :
  dict_get (lit "svm")
    (load_aliases
       (Parsed (JObject [ (lit "SVM", JArray [JString (lit "Max-Margin Classifier")]);
                          (lit "boosting", JArray [JString (lit "AdaBoost")]) ])))
  = Some [lit "max-margin classifier"].
Proof.
  apply (@file_entry_wins []
           [(lit "boosting", JArray [JString (lit "AdaBoost")])]
           (lit "SVM") (JArray [JString (lit "Max-Margin Classifier")])
           [lit "max-margin classifier"]).
  - constructor.
  - reflexivity.
  - intros kv [<-|[]]. vm_compute. discriminate.
Defined.

(** X15: The merge ends at the first value that is no list of strings (nor a
    string, nor an object): the entries before it are in the table that
    is returned, that entry and the ones after it are not. *)
Theorem merge_ends_at_first_bad_value (good rest : list (str * json)) (k : str)
    (bad : json) :
  well_formed good ->
  lowered_synonyms bad = None ->
  load_aliases (Parsed (JObject (good ++ (k, bad) :: rest)))
  = load_aliases (Parsed (JObject good)).
Proof.
  intros Hg Hb. cbn [load_aliases].
  rewrite merge_items_app by exact Hg. cbn [merge_items]. rewrite Hb.
  rewrite <- (app_nil_r good) at 2. now rewrite merge_items_app.
Qed.

Lemma merge_ends_at_first_bad_value_witness :
  load_aliases
    (Parsed (JObject [ (lit "boosting", JArray [JString (lit "AdaBoost")]);
                       (lit "bagging", JNumber 3);
                       (lit "svm", JArray [JString (lit "max margin")]) ]))
  = default_aliases ++ [(lit "boosting", [lit "adaboost"])].
Proof.
  refine (eq_trans
            (@merge_ends_at_first_bad_value
               [(lit "boosting", JArray [JString (lit "AdaBoost")])]
               [(lit "svm", JArray [JString (lit "max margin")])]
               (lit "bagging") (JNumber 3) _ _) _).
  - constructor; [discriminate|constructor].
  - reflexivity.
  - vm_compute. reflexivity.
Defined.

(** *** Lower case *)

Definition lowercase_entry (e : str * list str) : bool :=
  str_eqb (lower (fst e)) (fst e)
  && forallb (fun s => str_eqb (lower s) s) (snd e).

Lemma lowered_synonyms_lower (v : json) (syns : list str) :
  lowered_synonyms v = Some syns ->
  forallb (fun s => str_eqb (lower s) s) syns = true.
Proof.
  destruct v as [| | |s|l|items]; try discriminate; cbn [lowered_synonyms].
  - intros H. inversion H. apply forallb_forall. intros x Hx.
    apply in_map_iff in Hx. destruct Hx as [c [<- _]].
    apply str_eqb_eq. exact (lower_twice [c]).
  - revert syns. induction l as [|x l IH]; intros syns H.
    + inversion H. reflexivity.
    + cbn [fold_right] in H.
      destruct x as [| | |s|l'|items]; try discriminate.
      destruct (fold_right _ (Some []) l) as [r|]; [|discriminate].
      inversion H. cbn [forallb]. rewrite (IH r eq_refl), andb_true_r.
      apply str_eqb_eq, lower_twice.
  - intros H. inversion H. apply forallb_forall. intros x Hx.
    apply in_map_iff in Hx. destruct Hx as [kv [<- _]].
    apply str_eqb_eq, lower_twice.
Qed.

Lemma dict_set_lower (k : str) (v : list str) (d : alias_table) :
  lowercase_entry (k, v) = true ->
  forallb lowercase_entry d = true ->
  forallb lowercase_entry (dict_set k v d) = true.
Proof.
  intros He. induction d as [|[k' v'] d IH]; simpl; [now rewrite He|].
  intros H. apply andb_prop in H. destruct H as [H1 H2].
  destruct (str_eqb k k') eqn:E; simpl.
  - apply str_eqb_eq in E. subst k'. now rewrite He, H2.
  - now rewrite H1, IH.
Qed.

Lemma merge_items_lower (items : list (str * json)) (d : alias_table) :
  forallb lowercase_entry d = true ->
  forallb lowercase_entry (merge_items items d) = true.
Proof.
  revert d. induction items as [|[k v] items IH]; intros d H; [exact H|].
  cbn [merge_items]. destruct (lowered_synonyms v) as [syns|] eqn:E; [|exact H].
  apply IH, dict_set_lower; [|exact H]. unfold lowercase_entry. cbn [fst snd].
  rewrite (lowered_synonyms_lower _ E), andb_true_r.
  apply str_eqb_eq, lower_twice.
Qed.

(** X16: The table has no upper-case letter, in its canonical terms or in its
    synonyms, whatever the file holds: the synonyms are looked for in a
    text that [normalize] has lower-cased. *)
Theorem alias_table_is_lower_case (src : source) (canon : str) (syns : list str) :
  In (canon, syns) (load_aliases src) ->
  lower canon = canon /\ forall s, In s syns -> lower s = s.
Proof.
  assert (D : forallb lowercase_entry default_aliases = true)
    by (vm_compute; reflexivity).
  assert (H : forallb lowercase_entry (load_aliases src) = true).
  { destruct src as [| |j]; try exact D. destruct j; try exact D.
    now apply merge_items_lower. }
  intros Hin. rewrite forallb_forall in H. specialize (H _ Hin).
  unfold lowercase_entry in H. cbn [fst snd] in H.
  apply andb_prop in H. destruct H as [H1 H2].
  split; [now apply str_eqb_eq|].
  intros s Hs. rewrite forallb_forall in H2. now apply str_eqb_eq, H2.
Qed.

Lemma alias_table_is_lower_case_witness :
  lower (lit "svm") = lit "svm".
Proof.
  refine (proj1 (@alias_table_is_lower_case
                   (Parsed (JObject [(lit "SVM", JArray [JString (lit "Max Margin")])]))
                   (lit "svm") [lit "max margin"] _)).
  vm_compute. repeat (first [left; reflexivity | right]).
Defined.

End AliasLaws.

(** ** From one tool to the next *)

Module FileLaws.

Import Py MatchTopics TextFiles PyFacts SplitFacts.

Definition one_line (row : str) : Prop :=
  Forall (fun c => is_char CR c = false /\ is_char LF c = false) row.

Lemma translate_plain (s : str) :
  Forall (fun c => is_char CR c = false) s -> translate s = s.
Proof.
  induction 1 as [|c s Hc _ IH]; [reflexivity|].
  cbn [translate]. now rewrite Hc, IH.
Qed.

Lemma file_lines_row (row rest cur : str) :
  Forall (fun c => is_char LF c = false) row ->
  file_lines_from cur (row ++ LF :: rest)
  = (rev cur ++ row ++ [LF]) :: file_lines_from [] rest.
Proof.
  intros H. revert cur. induction H as [|c row Hc _ IH]; intros cur.
  - cbn [app file_lines_from]. change (is_char LF LF) with true. cbv iota.
    cbn [rev]. reflexivity.
  - cbn [app file_lines_from]. rewrite Hc, IH. cbn [rev].
    now rewrite <- !app_assoc.
Qed.

Lemma rstrip_line_feeds_row (row : str) :
  Forall (fun c => is_char LF c = false) row ->
  rstrip_line_feeds (row ++ [LF]) = row.
Proof.
  intros H. unfold rstrip_line_feeds. rewrite rev_app_distr.
  cbn [rev app drop_line_feeds]. change (is_char LF LF) with true. cbv iota.
  assert (E : drop_line_feeds (rev row) = rev row).
  { apply Forall_rev in H. destruct (rev row) as [|c r]; [reflexivity|].
    inversion H; subst. cbn [drop_line_feeds].
    match goal with Hc : is_char LF c = false |- _ => now rewrite Hc end. }
  rewrite E. apply rev_involutive.
Qed.

Lemma no_line_feed (row : str) :
  one_line row -> Forall (fun c => is_char LF c = false) row.
Proof. intros H. eapply Forall_impl; [|exact H]. intros c [_ Hc]. exact Hc. Qed.

Lemma written_plain (rows : list str) :
  Forall one_line rows -> Forall (fun c => is_char CR c = false) (written rows).
Proof.
  unfold written. induction 1 as [|row rows Hr _ IH]; [constructor|].
  cbn [flat_map]. apply Forall_app. split; [|exact IH].
  apply Forall_app. split.
  - eapply Forall_impl; [|exact Hr]. intros c [Hc _]. exact Hc.
  - constructor; [reflexivity|constructor].
Qed.

Lemma lines_of_written (rows : list str) :
  Forall one_line rows ->
  map rstrip_line_feeds (file_lines_from [] (written rows)) = rows.
Proof.
  unfold written. induction 1 as [|row rows Hr _ IH]; [reflexivity|].
  cbn [flat_map]. rewrite <- app_assoc. cbn [app].
  rewrite (@file_lines_row row _ [] (no_line_feed Hr)). cbn [rev app map].
  rewrite (rstrip_line_feeds_row (no_line_feed Hr)). now f_equal.
Qed.

(** Rows without a line break, written one per line, are read back as
    they are. *)
Lemma load_lines_written (rows : list str) :
  Forall one_line rows -> load_lines (written rows) = rows.
Proof.
  intros H. unfold load_lines.
  rewrite (translate_plain (written_plain H)). now apply lines_of_written.
Qed.

(** *** What [load_lines] returns *)

Lemma translate_no_cr (s : str) :
  Forall (fun c => is_char CR c = false) (translate s).
Proof.
  assert (G : forall n s, length s <= n ->
                Forall (fun c => is_char CR c = false) (translate s)).
  { induction n as [|n IH]; intros t Ht.
    - destruct t; [constructor|simpl in Ht; lia].
    - destruct t as [|c t]; [constructor|]. cbn [translate].
      simpl in Ht. destruct (is_char CR c) eqn:Hc.
      + destruct t as [|d t]; [repeat constructor|].
        simpl in Ht. destruct (is_char LF d).
        * constructor; [reflexivity|]. apply IH. lia.
        * constructor; [reflexivity|]. apply IH. simpl. lia.
      + constructor; [exact Hc|]. apply IH. lia. }
  apply (G (length s)). lia.
Qed.

Lemma drop_line_feeds_fix (s : str) :
  Forall (fun c => is_char LF c = false) s -> drop_line_feeds s = s.
Proof.
  intros H. destruct H as [|c s Hc _]; [reflexivity|].
  cbn [drop_line_feeds]. now rewrite Hc.
Qed.

Lemma file_lines_one_line (s : str) :
  forall cur,
    Forall (fun c => is_char CR c = false) s ->
    one_line cur ->
    Forall (fun l => one_line (rstrip_line_feeds l)) (file_lines_from cur s).
Proof.
  induction s as [|c s IH]; intros cur Hs Hcur.
  - cbn [file_lines_from]. destruct cur as [|d cur]; [constructor|].
    constructor; [|constructor]. unfold rstrip_line_feeds.
    rewrite rev_involutive, drop_line_feeds_fix by now apply no_line_feed.
    now apply Forall_rev.
  - inversion Hs as [|? ? Hc Hs']; subst. cbn [file_lines_from].
    destruct (is_char LF c) eqn:El.
    + constructor; [|apply IH; [exact Hs'|constructor]].
      assert (E : c = LF).
      { unfold is_char in El. destruct (ascii_dec LF c); congruence. }
      subst c. cbn [rev].
      rewrite rstrip_line_feeds_row.
      * now apply Forall_rev.
      * apply Forall_rev. now apply no_line_feed.
    + apply IH; [exact Hs'|]. constructor; [now split|exact Hcur].
Qed.

(** X29: [load_lines] returns lines without a carriage return or a line
    feed, and it returns the rows that were written, one per line, as
    they are when none of them holds such a character. *)
Theorem load_lines_inverts_writing :
  (forall content : str, Forall one_line (load_lines content))
  /\ (forall rows : list str,
        Forall one_line rows -> load_lines (written rows) = rows).
Proof.
  split; [|exact load_lines_written].
  intros content. unfold load_lines.
  pose proof (@file_lines_one_line (translate content) []
                (translate_no_cr content) (Forall_nil _)) as H.
  induction H as [|l ls Hl _ IH]; [constructor|].
  cbn [map]. now constructor.
Qed.

(** *** The two files *)

Lemma space_char_plain (c : ascii) :
  isspace c = false \/ c = space -> is_char CR c = false /\ is_char LF c = false.
Proof.
  intros [H| ->]; [|split; reflexivity].
  unfold is_char. split.
  - destruct (ascii_dec CR c) as [<-|_]; [discriminate H|reflexivity].
  - destruct (ascii_dec LF c) as [<-|_]; [discriminate H|reflexivity].
Qed.

Lemma join_one_line (ws : list str) :
  Forall word ws -> one_line (join [space] ws).
Proof.
  induction ws as [|x ws IH]; intros H; [constructor|].
  inversion H as [|? ? [_ Hx] Hws]; subst.
  assert (Px : one_line x).
  { eapply Forall_impl; [|exact Hx]. intros c Hc.
    apply space_char_plain. now left. }
  destruct ws as [|y ws]; [exact Px|].
  change (join [space] (x :: y :: ws))
    with (x ++ space :: join [space] (y :: ws)).
  apply Forall_app. split; [exact Px|].
  constructor; [apply space_char_plain; now right|now apply IH].
Qed.

Lemma map_strip_fix (l : list str) :
  Forall (fun s => strip s = s) l -> map strip l = l.
Proof.
  induction 1 as [|s l Hs _ IH]; [reflexivity|].
  cbn [map]. now rewrite Hs, IH.
Qed.

Lemma items_one_line (lines : list ExamQuestions.Line) :
  Forall one_line (ExamQuestions.extract_questions lines)
  /\ Forall (fun s => strip s = s) (ExamQuestions.extract_questions lines).
Proof.
  destruct (SegmentLaws.extract_questions_shaped lines) as [_ F].
  split; (eapply Forall_impl; [|exact F]); intros s [_ [H1 H2]].
  - rewrite H2. apply join_one_line, split_words.
  - exact H1.
Qed.

Lemma title_row_one_line (t : Z * str) :
  one_line (snd t) -> one_line (TitleFile.title_row t).
Proof.
  intros H. unfold TitleFile.title_row. apply Forall_app. split.
  - destruct (RowFacts.str_of_int_chars (fst t)) as [_ F].
    eapply Forall_impl; [|exact F]. intros c [Hc _].
    apply space_char_plain. now left.
  - constructor; [split; reflexivity|exact H].
Qed.

(** X30: The files written by the two extractors are read back by
    [match_topics.py] line for line.  From the exam file, [parse_exam]
    gets the items of [extract_questions], those of fewer than four
    characters left out; from the title file, when no title holds a line
    break, [parse_slides] gets the pages with their stripped titles, the
    pages with a blank title left out. *)
Theorem files_between_the_tools :
  (forall lines : list ExamQuestions.Line,
      parse_exam (load_lines (exam_file (ExamQuestions.extract_questions lines)))
      = filter (fun s => 4 <=? length s) (ExamQuestions.extract_questions lines))
  /\ (forall titles : list (Z * str),
        Forall (fun t => one_line (snd t)) titles ->
        parse_slides (load_lines (title_file titles))
        = map (fun t => (Some (fst t), strip (snd t)))
            (filter (fun t => negb (is_empty (strip (snd t)))) titles)).
Proof.
  split.
  - intros lines. destruct (items_one_line lines) as [H1 H2].
    unfold exam_file. rewrite (load_lines_written H1).
    rewrite ParserFacts.parse_exam_filter. f_equal.
    now apply map_strip_fix.
  - intros titles H. unfold title_file.
    rewrite load_lines_written.
    + clear H. induction titles as [|[page text] titles IH]; [reflexivity|].
      cbn [map parse_slides filter fst snd].
      rewrite RowFacts.title_row_parsed, IH.
      destruct (is_empty (strip text)); reflexivity.
    + induction H as [|t titles Ht _ IH]; [constructor|].
      cbn [map]. constructor; [now apply title_row_one_line|exact IH].
Qed.

Lemma files_between_the_tools_witness :
  parse_slides (load_lines (title_file [(1%Z, lit "Decision Trees"); (2%Z, [])]))
  = [(Some 1%Z, lit "Decision Trees")].
Proof.
  refine (eq_trans
            (proj2 files_between_the_tools
               [(1%Z, lit "Decision Trees"); (2%Z, [])] _) _).
  - repeat constructor.
  - vm_compute. reflexivity.
Defined.

End FileLaws.
